(** * Lovelace pop-up grid editor: a shallow embedding of [src/ui/popup_tool.js]

    The development follows the source file top to bottom: the line and
    scalar grammar, the flow collections, the block parser, the serializer,
    the slug derivation, the pattern matcher, the template engine and the
    batch driver [processGrid].  Definitions keep the names of the
    JavaScript functions they embed.

    Conventions.
    - A JavaScript string is the list of its UTF-16 code units ([list N]).
    - A JavaScript number is an IEEE binary64 value, carried as the
      standard library's [spec_float] and rounded by its [binary_round] and
      [SFdiv] at precision 53.
    - An object is the list of its own enumerable properties in the order
      [Object.entries] reports them (array-index keys ascending, then the
      other keys in insertion order).  In the tree model only own
      properties are seen: a lookup does not find the members inherited
      from [Object.prototype] (the texts that would find one are those of
      [inherited_name]; module [Store], where [Object.prototype] is a
      cell, follows these lookups), and a write to [__proto__] leaves the
      own properties as they are.
    - An array is the list of its elements.  A write that would give it
      another own property is refused with [Unmodelled].
    - [throw] is the [Err] outcome of [result].  [Unmodelled] is no
      outcome of the program: it marks an input on which the model stops
      following it. *)

From Stdlib Require Import ZArith NArith List Bool Lia String Ascii Sorted.
From Stdlib Require Import Floats.SpecFloat.
From stdpp Require Import base list gmap.

Set Warnings "-register-all".

Local Open Scope N_scope.

(** ** Strings *)

Abbreviation jstring := (list N).

Definition ch (a : ascii) : N := N_of_ascii a.

(** The double quote, U+0022 *)
Definition dquote : N := 34.

Definition js (s : string) : jstring := map ch (list_ascii_of_string s).

Arguments ch : simpl never.
Arguments js : simpl never.

Definition jstr_eqb (a b : jstring) : bool := bool_decide (a = b).

(** [\s] of the regular expressions, which is also what [trim] removes:
    TAB, LF, VT, FF, CR, SP, NBSP, the Unicode space separators, LS, PS and
    the byte order mark. *)
Definition is_ws (c : N) : bool :=
  ((9 <=? c) && (c <=? 13)) || (c =? 32) || (c =? 160) || (c =? 5760)
  || ((8192 <=? c) && (c <=? 8202)) || (c =? 8232) || (c =? 8233)
  || (c =? 8239) || (c =? 8287) || (c =? 12288) || (c =? 65279).

Fixpoint dropWhile (p : N -> bool) (s : jstring) : jstring :=
  match s with
  | [] => []
  | c :: s' => if p c then dropWhile p s' else s
  end.

Fixpoint takeWhile (p : N -> bool) (s : jstring) : jstring :=
  match s with
  | [] => []
  | c :: s' => if p c then c :: takeWhile p s' else []
  end.

Definition trimStart (s : jstring) : jstring := dropWhile is_ws s.

(** [s.replace(/\s+$/, '')] *)
Definition trimEnd (s : jstring) : jstring := rev (dropWhile is_ws (rev s)).

Definition trim (s : jstring) : jstring := trimEnd (trimStart s).

(** [s.slice(a, b)] for [0 <= a] and [0 <= b] *)
Definition slice (a b : nat) (s : jstring) : jstring := take (b - a) (drop a s).

(** [s.slice(1, -1)] *)
Definition slice_1_m1 (s : jstring) : jstring := slice 1 (length s - 1) s.

Fixpoint startsWith (s p : jstring) : bool :=
  match p, s with
  | [], _ => true
  | _ :: _, [] => false
  | a :: p', b :: s' => (a =? b) && startsWith s' p'
  end.

Definition endsWith (s p : jstring) : bool := startsWith (rev s) (rev p).

(** [s.indexOf(c)] for a one-character needle; [None] is the result [-1]. *)
Fixpoint indexOf (c : N) (s : jstring) : option nat :=
  match s with
  | [] => None
  | d :: s' => if d =? c then Some 0%nat else option_map S (indexOf c s')
  end.

Fixpoint includes (p s : jstring) : bool :=
  startsWith s p || match s with [] => false | _ :: s' => includes p s' end.

(** [s.split("\n")] *)
Fixpoint split_on (sep : N) (cur : jstring) (s : jstring) : list jstring :=
  match s with
  | [] => [rev cur]
  | c :: s' => if c =? sep then rev cur :: split_on sep [] s'
               else split_on sep (c :: cur) s'
  end.

Definition split_lines (s : jstring) : list jstring := split_on 10 [] s.

(** [parts.join("\n")] *)
Fixpoint join_lines (parts : list jstring) : jstring :=
  match parts with
  | [] => []
  | [p] => p
  | p :: rest => p ++ 10 :: join_lines rest
  end.

(** [" ".repeat(n)] *)
Definition spaces (n : nat) : jstring := repeat 32 n.

(** [s.replace(/ab/g, r)] for a two-character pattern: leftmost matches,
    not overlapping. *)
Fixpoint replace2 (a b : N) (r : jstring) (s : jstring) : jstring :=
  match s with
  | [] => []
  | c :: s' =>
      match s' with
      | d :: s'' =>
          if (c =? a) && (d =? b) then r ++ replace2 a b r s''
          else c :: replace2 a b r s'
      | [] => [c]
      end
  end.

(** [s.replace(/a/g, r)] for a one-character pattern *)
Definition replace1 (a : N) (r : jstring) (s : jstring) : jstring :=
  flat_map (fun c => if c =? a then r else [c]) s.

(** [text.replace(/\r\n?/g, "\n")] *)
Fixpoint normalize_newlines (s : jstring) : jstring :=
  match s with
  | [] => []
  | c :: s' =>
      if c =? 13 then
        match s' with
        | d :: s'' => if d =? 10 then 10 :: normalize_newlines s''
                      else 10 :: normalize_newlines s'
        | [] => [10]
        end
      else c :: normalize_newlines s'
  end.

Definition is_digit (c : N) : bool := (48 <=? c) && (c <=? 57).
Definition is_lower (c : N) : bool := (97 <=? c) && (c <=? 122).
Definition is_upper (c : N) : bool := (65 <=? c) && (c <=? 90).

(** The number of backslashes right before position [i]: the loop
    [while (j >= 0 && line[j] === "\\")] started at [j = i - 1]. *)
Definition backslashes_before (line : jstring) (i : nat) : nat :=
  length (takeWhile (fun c => c =? 92) (rev (take i line))).

(** ** stripComments *)

Fixpoint stripComments_loop (line rest : jstring) (i : nat)
    (inSingle inDouble : bool) : jstring :=
  match rest with
  | [] => line
  | c :: rest' =>
      if (c =? ch "'") && negb inDouble then
        stripComments_loop line rest' (S i) (negb inSingle) inDouble
      else if (c =? dquote) && negb inSingle then
        stripComments_loop line rest' (S i) inSingle
          (if Nat.even (backslashes_before line i) then negb inDouble
           else inDouble)
      else if (c =? ch "#") && negb inSingle && negb inDouble then
        slice 0 i line
      else stripComments_loop line rest' (S i) inSingle inDouble
  end.

Definition stripComments (line : jstring) : jstring :=
  stripComments_loop line line 0 false false.

(** [/^\s*$/.test(value)] *)
Definition isWhitespaceOnly (value : jstring) : bool := forallb is_ws value.

(** ** parseQuotedString *)

Definition parseQuotedString (raw : jstring) : jstring :=
  if startsWith raw [dquote] && endsWith raw [dquote] then
    replace2 92 92 [92]
      (replace2 92 (dquote) [dquote]
         (replace2 92 (ch "n") [10] (slice_1_m1 raw)))
  else if startsWith raw [ch "'"] && endsWith raw [ch "'"] then
    replace2 (ch "'") (ch "'") [ch "'"] (slice_1_m1 raw)
  else raw.

(** ** Numbers

    [Number.parseInt(s, 10)], [Number.parseFloat(s)] and [String(x)] are
    built-ins of the runtime.  They are modelled on binary64 with the
    standard library's correctly rounded [binary_round] and [SFdiv]; the
    parsers are only ever called on text that passed the regular expression
    guarding the call, and are defined for that text. *)

Abbreviation number := spec_float.

Definition prec : Z := 53.
Definition emax : Z := 1024.

#[global] Instance spec_float_eq_dec : EqDecision spec_float.
Proof. solve_decision. Defined.

Definition digits_value (ds : jstring) : Z :=
  fold_left (fun acc c => (10 * acc + (Z.of_N c - 48))%Z) ds 0%Z.

Definition number_of_Z (neg : bool) (m : Z) : number :=
  match m with
  | Zpos p => binary_round prec emax neg p 0
  | _ => S754_zero neg
  end.

(** An optional leading sign, [[-+]?] *)
Definition split_sign (s : jstring) : bool * jstring :=
  match s with
  | c :: s' => if c =? ch "-" then (true, s')
               else if c =? ch "+" then (false, s') else (false, s)
  | [] => (false, [])
  end.

(** [/^[-+]?[0-9]+$/.test(s)] *)
Definition is_int_literal (s : jstring) : bool :=
  let ds := snd (split_sign s) in
  negb (jstr_eqb ds []) && forallb is_digit ds.

(** [/^[-+]?[0-9]*\.[0-9]+$/.test(s)] *)
Definition is_float_literal (s : jstring) : bool :=
  let ds := snd (split_sign s) in
  match dropWhile is_digit ds with
  | c :: fp => (c =? ch ".") && negb (jstr_eqb fp []) && forallb is_digit fp
  | [] => false
  end.

Definition parseInt10 (s : jstring) : number :=
  let '(neg, ds) := split_sign s in number_of_Z neg (digits_value ds).

Definition parseFloat (s : jstring) : number :=
  let '(neg, ds) := split_sign s in
  let ip := takeWhile is_digit ds in
  let fp := drop (S (length ip)) ds in
  match digits_value (ip ++ fp) with
  | Zpos m =>
      SFdiv prec emax (S754_finite neg m 0)
        (S754_finite false (Z.to_pos (10 ^ Z.of_nat (length fp))) 0)
  | _ => S754_zero neg
  end.

(** Decimal digits of a non-negative integer, most significant first. *)
Fixpoint digits_of_Z_fuel (fuel : nat) (z : Z) (acc : jstring) : jstring :=
  match fuel with
  | O => acc
  | S f =>
      let acc' := Z.to_N (48 + z mod 10) :: acc in
      if (z <? 10)%Z then acc' else digits_of_Z_fuel f (z / 10) acc'
  end.

Definition digits_of_Z (z : Z) : jstring :=
  digits_of_Z_fuel (S (Z.to_nat (Z.log2 z))) z [].

(** The value [s * 10^q] rounded to binary64, for [0 < s]. *)
Definition dec_to_number (s q : Z) : number :=
  match s with
  | Zpos p =>
      if (0 <=? q)%Z then binary_round prec emax false (Z.to_pos (s * 10 ^ q)) 0
      else SFdiv prec emax (S754_finite false p 0)
             (S754_finite false (Z.to_pos (10 ^ (- q))) 0)
  | _ => S754_zero false
  end.

(** The least [j] with [num * 10^(j+1) >= den]. *)
Fixpoint leading_zeros (fuel : nat) (num den : Z) (j : nat) : nat :=
  match fuel with
  | O => j
  | S f => if (den <=? num * 10)%Z then j else leading_zeros f (num * 10) den (S j)
  end.

(** The decimal exponent [n] of [num / den > 0]: [10^(n-1) <= num/den < 10^n]. *)
Definition dec_exponent (num den : Z) : Z :=
  if (den <=? num)%Z then Z.of_nat (length (digits_of_Z (num / den)))
  else (- Z.of_nat (leading_zeros 400 num den 0))%Z.

(** The shortest decimal [(s, n)], of [k] digits, that reads back as [x]
    ([Number::toString], steps choosing [n], [k] and [s]): of two
    candidates the one closer to [x], and the even one when they are
    equally close. *)
Fixpoint shortest_fuel (fuel : nat) (k : Z) (x : number) (num den n : Z)
    : Z * Z :=
  match fuel with
  | O => (0, n)%Z
  | S f =>
      let sh := (k - n)%Z in
      let top := if (0 <=? sh)%Z then (num * 10 ^ sh)%Z else num in
      let bot := if (0 <=? sh)%Z then den else (den * 10 ^ (- sh))%Z in
      let lo := (top / bot)%Z in
      let r := (top mod bot)%Z in
      let '(hi, nhi) := if (lo + 1 <? 10 ^ k)%Z then (lo + 1, n)%Z
                        else (10 ^ (k - 1), n + 1)%Z in
      let oklo := bool_decide (dec_to_number lo (n - k) = x) in
      let okhi := bool_decide (dec_to_number hi (nhi - k) = x) in
      if oklo && (negb okhi || (2 * r <? bot)%Z
                  || ((2 * r =? bot)%Z && Z.even lo)) then (lo, n)
      else if okhi then (hi, nhi)
      else shortest_fuel f (k + 1)%Z x num den n
  end.

Definition zeros (n : nat) : jstring := repeat 48 n.

Definition format_decimal (ds : jstring) (n : Z) : jstring :=
  let k := Z.of_nat (length ds) in
  if ((k <=? n) && (n <=? 21))%Z then ds ++ zeros (Z.to_nat (n - k))
  else if ((0 <? n) && (n <=? 21))%Z then
    take (Z.to_nat n) ds ++ ch "." :: drop (Z.to_nat n) ds
  else if ((-6 <? n) && (n <=? 0))%Z then
    ch "0" :: ch "." :: zeros (Z.to_nat (- n)) ++ ds
  else
    let e := (n - 1)%Z in
    let es := (if (0 <=? e)%Z then ch "+" else ch "-") :: digits_of_Z (Z.abs e) in
    match ds with
    | [d] => d :: ch "e" :: es
    | d :: rest => d :: ch "." :: rest ++ ch "e" :: es
    | [] => []
    end.

(** [String(x)] *)
Definition number_to_string (x : number) : jstring :=
  match x with
  | S754_nan => js "NaN"
  | S754_infinity s => (if s then [ch "-"] else []) ++ js "Infinity"
  | S754_zero _ => js "0"
  | S754_finite s m e =>
      let '(num, den) := if (0 <=? e)%Z then (Zpos m * 2 ^ e, 1)%Z
                         else (Zpos m, 2 ^ (- e))%Z in
      let n := dec_exponent num den in
      let '(sd, n') := shortest_fuel 17 1 (S754_finite false m e) num den n in
      (if s then [ch "-"] else []) ++ format_decimal (digits_of_Z sd) n'
  end.

(** [Number.isFinite(x)] *)
Definition isFinite (x : number) : bool :=
  match x with
  | S754_zero _ | S754_finite _ _ _ => true
  | _ => false
  end.

(** ** Values *)

Inductive value :=
| VNull
| VBool (b : bool)
| VNum (n : number)
| VStr (s : jstring)
| VArr (items : list value)
| VObj (props : list (jstring * value)).

Inductive error :=
| InvalidInlineFragment (part : jstring)
| UnexpectedListItem (line : nat)
| ListItemWithoutArray (line : nat)
| UnableToParseLine (line : nat) (text : jstring)
| GridCardsInvalid
| UnknownStrategy (strategy : value)
| GridCardsNotArray
| RoomsJSONUnparsable
| RoomsNotList
| GridYAMLInvalid
| TemplateNotStack
| TemplateNeedsCards
| TemplateFirstCard
| RoomsNotStrings
| TypeError
| Unmodelled
| OutOfFuel.

Inductive result (A : Type) :=
| Ok (a : A)
| Err (e : error).

Arguments Ok {A} a.
Arguments Err {A} e.

Definition bind {A B} (r : result A) (k : A -> result B) : result B :=
  match r with
  | Ok a => k a
  | Err e => Err e
  end.

Notation "x <- r ;; k" := (bind r (fun x => k))
  (at level 100, r at next level, right associativity).

(** [xs.map(f)] where [f] may throw: the first exception wins. *)
Fixpoint mapM {A B} (f : A -> result B) (xs : list A) : result (list B) :=
  match xs with
  | [] => Ok []
  | x :: xs' => y <- f x ;; ys <- mapM f xs' ;; Ok (y :: ys)
  end.

(** *** Objects: own properties in enumeration order *)

(** An array index in the sense of the property order: the canonical
    decimal text of an integer below [2^32 - 1]. *)
Definition array_index (k : jstring) : option N :=
  match k with
  | [] => None
  | c :: rest =>
      if forallb is_digit k && ((negb (c =? 48)) || jstr_eqb rest []) then
        let n := Z.to_N (digits_value k) in
        if n <? 4294967295 then Some n else None
      else None
  end.

Fixpoint obj_get {V : Type} (k : jstring) (o : list (jstring * V)) : option V :=
  match o with
  | [] => None
  | (k', v) :: o' => if jstr_eqb k' k then Some v else obj_get k o'
  end.

Definition obj_has {V : Type} (k : jstring) (o : list (jstring * V)) : bool :=
  match obj_get k o with Some _ => true | None => false end.

Fixpoint obj_replace {V : Type} (k : jstring) (v : V) (o : list (jstring * V))
    : list (jstring * V) :=
  match o with
  | [] => []
  | (k', v') :: o' =>
      if jstr_eqb k' k then (k', v) :: o' else (k', v') :: obj_replace k v o'
  end.

(** A new array-index key goes after the smaller index keys. *)
Fixpoint obj_insert_index {V : Type} (n : N) (k : jstring) (v : V)
    (o : list (jstring * V)) : list (jstring * V) :=
  match o with
  | [] => [(k, v)]
  | (k', v') :: o' =>
      match array_index k' with
      | Some n' => if n' <? n then (k', v') :: obj_insert_index n k v o'
                   else (k, v) :: o
      | None => (k, v) :: o
      end
  end.

(** [o[k] = v] on an ordinary object *)
Definition obj_set {V : Type} (k : jstring) (v : V) (o : list (jstring * V))
    : list (jstring * V) :=
  if jstr_eqb k (js "__proto__") then o
  else if obj_has k o then obj_replace k v o
  else match array_index k with
       | Some n => obj_insert_index n k v o
       | None => o ++ [(k, v)]
       end.

(** [container[key] = v] where the container may be an array, as in the
    block parser.  On an array an index inside the bounds replaces the
    element.  Every other key on an array is outside the model: an index
    past the end leaves holes, [length] cuts the array, and a name becomes
    an own property of the array, which hides the method of that name
    ([push], [forEach], [map]: the next call of it throws) and which
    [structuredClone] copies.  A value of this model has no place for such
    a property, so the write is refused rather than dropped. *)
Definition container_set (key : jstring) (v : value) (container : value)
    : result value :=
  match container with
  | VObj o => Ok (VObj (obj_set key v o))
  | VArr l =>
      match array_index key with
      | Some n => if bool_decide (N.to_nat n < length l)%nat
                  then Ok (VArr (<[N.to_nat n := v]> l)) else Err Unmodelled
      | None => Err Unmodelled
      end
  | _ => Err TypeError
  end.

(** ** parseScalar, splitTopLevel, parseInlineArray, parseInlineObject *)

Fixpoint splitTopLevel_loop (text rest : jstring) (separator : N) (i : nat)
    (depth start : nat) (inSingle inDouble : bool) (result : list jstring)
    : list jstring :=
  match rest with
  | [] =>
      let finalPart := trim (drop start text) in
      if jstr_eqb finalPart [] then result else result ++ [finalPart]
  | c :: rest' =>
      if (c =? ch "'") && negb inDouble then
        splitTopLevel_loop text rest' separator (S i) depth start
          (negb inSingle) inDouble result
      else if (c =? dquote) && negb inSingle then
        splitTopLevel_loop text rest' separator (S i) depth start inSingle
          (if Nat.even (backslashes_before text i) then negb inDouble
           else inDouble) result
      else if inSingle || inDouble then
        splitTopLevel_loop text rest' separator (S i) depth start
          inSingle inDouble result
      else if (c =? ch "{") || (c =? ch "[") then
        splitTopLevel_loop text rest' separator (S i) (S depth) start
          inSingle inDouble result
      else if (c =? ch "}") || (c =? ch "]") then
        splitTopLevel_loop text rest' separator (S i) (Nat.max 0 (depth - 1))
          start inSingle inDouble result
      else if (c =? separator) && bool_decide (depth = 0%nat) then
        splitTopLevel_loop text rest' separator (S i) depth (S i)
          inSingle inDouble (result ++ [trim (slice start i text)])
      else
        splitTopLevel_loop text rest' separator (S i) depth start
          inSingle inDouble result
  end.

Definition splitTopLevel (text : jstring) (separator : N) : list jstring :=
  splitTopLevel_loop text text separator 0 0 0 false false [].

(** The two flow parsers, over the scalar parser they call back. *)
Definition parseInlineArray_with (parseScalar : jstring -> result value)
    (body : jstring) : result value :=
  if isWhitespaceOnly body then Ok (VArr [])
  else
    items <- mapM parseScalar (splitTopLevel body (ch ",")) ;;
    Ok (VArr items).

Fixpoint parseInlineObject_parts (parseScalar : jstring -> result value)
    (parts : list jstring) (obj : list (jstring * value))
    : result (list (jstring * value)) :=
  match parts with
  | [] => Ok obj
  | part :: parts' =>
      match indexOf (ch ":") part with
      | None => Err (InvalidInlineFragment part)
      | Some colonIdx =>
          let key := trim (slice 0 colonIdx part) in
          let rawValue := trim (drop (S colonIdx) part) in
          v <- parseScalar rawValue ;;
          parseInlineObject_parts parseScalar parts' (obj_set key v obj)
      end
  end.

Definition parseInlineObject_with (parseScalar : jstring -> result value)
    (body : jstring) : result value :=
  if isWhitespaceOnly body then Ok (VObj [])
  else
    obj <- parseInlineObject_parts parseScalar (splitTopLevel body (ch ",")) [] ;;
    Ok (VObj obj).

Definition is_quoted (trimmed : jstring) : bool :=
  (startsWith trimmed [dquote] && endsWith trimmed [dquote])
  || (startsWith trimmed [ch "'"] && endsWith trimmed [ch "'"]).

(** [parseScalar] recurses through the flow parsers on the text between
    the brackets, which is shorter than its argument; [fuel] bounds the
    nesting depth and [parseScalar] below supplies enough of it. *)
Fixpoint parseScalar_fuel (fuel : nat) (rawValue : jstring) : result value :=
  let trimmed := trim rawValue in
  if jstr_eqb trimmed [] || jstr_eqb trimmed (js "null")
     || jstr_eqb trimmed (js "~") then Ok VNull
  else if jstr_eqb trimmed (js "true") || jstr_eqb trimmed (js "True") then
    Ok (VBool true)
  else if jstr_eqb trimmed (js "false") || jstr_eqb trimmed (js "False") then
    Ok (VBool false)
  else if is_int_literal trimmed then Ok (VNum (parseInt10 trimmed))
  else if is_float_literal trimmed then Ok (VNum (parseFloat trimmed))
  else if is_quoted trimmed then Ok (VStr (parseQuotedString trimmed))
  else if startsWith trimmed [ch "["] && endsWith trimmed [ch "]"] then
    match fuel with
    | O => Err OutOfFuel
    | S f => parseInlineArray_with (parseScalar_fuel f) (slice_1_m1 trimmed)
    end
  else if startsWith trimmed [ch "{"] && endsWith trimmed [ch "}"] then
    match fuel with
    | O => Err OutOfFuel
    | S f => parseInlineObject_with (parseScalar_fuel f) (slice_1_m1 trimmed)
    end
  else Ok (VStr trimmed).

Definition parseScalar (rawValue : jstring) : result value :=
  parseScalar_fuel (length rawValue) rawValue.

Definition parseInlineArray (body : jstring) : result value :=
  parseInlineArray_with parseScalar body.

Definition parseInlineObject (body : jstring) : result value :=
  parseInlineObject_with parseScalar body.

(** ** parseYAML

    The JavaScript parser keeps a stack of frames whose [container] is a
    reference to an object or array that was bound into its parent when the
    frame was opened, and mutates the container of the top frame only.
    Here a frame carries the current contents of its container and the
    [slot] of the parent it was bound to; the binding made at opening time
    is written into the parent then (it fixes the property order), and the
    contents are written through the same slot when the frame is popped.
    The stack is a list with the top frame first. *)

Inductive ftype := TObject | TArray.

Record pending := { pkey : jstring; pindent : Z }.

Inductive slot :=
| SRoot
| SKey (k : jstring)
| SIndex (i : nat).

Record frame := {
  f_type : ftype;
  f_container : value;
  f_indent : Z;
  f_pending : option pending;
  f_slot : slot
}.

Definition set_container (c : value) (f : frame) : frame :=
  {| f_type := f_type f; f_container := c; f_indent := f_indent f;
     f_pending := f_pending f; f_slot := f_slot f |}.

Definition set_pending (p : option pending) (f : frame) : frame :=
  {| f_type := f_type f; f_container := f_container f; f_indent := f_indent f;
     f_pending := p; f_slot := f_slot f |}.

(** The contents of a popped frame, seen through the parent.  A frame is
    bound under a key by [container_set], so that on an array the key is an
    index inside the bounds; the case of a name on an array is there to
    make the function total and is not reached. *)
Definition write_back (child parent : frame) : frame :=
  match f_slot child, f_container parent with
  | SKey k, VObj o => set_container (VObj (obj_set k (f_container child) o)) parent
  | SKey k, VArr l =>
      match array_index k with
      | Some n => set_container (VArr (<[N.to_nat n := f_container child]> l)) parent
      | None => parent
      end
  | SIndex i, VArr l => set_container (VArr (<[i := f_container child]> l)) parent
  | _, _ => parent
  end.

(** [stack.pop()] *)
Definition pop (stack : list frame) : list frame :=
  match stack with
  | top :: parent :: rest => write_back top parent :: rest
  | _ => stack
  end.

(** [while (stack.length > 1 && indent <= stack[stack.length - 1].indent) stack.pop()] *)
Fixpoint pop_while (fuel : nat) (indent : Z) (stack : list frame) : list frame :=
  match fuel with
  | O => stack
  | S f =>
      match stack with
      | top :: _ :: _ =>
          if (indent <=? f_indent top)%Z then pop_while f indent (pop stack)
          else stack
      | _ => stack
      end
  end.

(** Bind a new empty container under [key] in the top frame and push a frame
    for it: [frame.container[key] = c; stack.push({type, container: c,
    indent, pending: null}); frame.pending = null]. *)
Definition open_child (ty : ftype) (key : jstring) (indent : Z)
    (top : frame) (rest : list frame) : result (list frame) :=
  let c := match ty with TArray => VArr [] | TObject => VObj [] end in
  container' <- container_set key c (f_container top) ;;
  Ok ({| f_type := ty; f_container := c; f_indent := indent;
         f_pending := None; f_slot := SKey key |}
      :: set_pending None (set_container container' top) :: rest).

(** [frame.container.push(v)] followed, when [child] is given, by
    [stack.push(child)] for the element just pushed. *)
Definition push_item (v : value) (child : option (Z * option pending))
    (top : frame) (rest : list frame) : result (list frame) :=
  match f_container top with
  | VArr l =>
      let top' := set_container (VArr (l ++ [v])) top in
      match child with
      | Some (indent, p) =>
          Ok ({| f_type := TObject; f_container := v; f_indent := indent;
                 f_pending := p; f_slot := SIndex (length l) |} :: top' :: rest)
      | None => Ok (top' :: rest)
      end
  | _ => Err TypeError
  end.

(** The pending key of the top frame, looked at by the current line. *)
Definition resolve_pending (indent : Z) (trimmed : jstring)
    (stack : list frame) : result (list frame) :=
  match stack with
  | top :: rest =>
      match f_pending top with
      | Some p =>
          if (pindent p <? indent)%Z then
            if startsWith trimmed [ch "-"] then
              open_child TArray (pkey p) (pindent p) top rest
            else open_child TObject (pkey p) (pindent p) top rest
          else Ok (set_pending None top :: rest)
      | None => Ok stack
      end
  | [] => Err TypeError
  end.

Definition list_item (index : nat) (indent : Z) (trimmed : jstring)
    (stack : list frame) : result (list frame) :=
  match stack with
  | [] => Err TypeError
  | frame0 :: rest0 =>
      stack1 <-
        match f_type frame0 with
        | TObject =>
            match f_pending frame0 with
            | None => Err (UnexpectedListItem (index + 1))
            | Some p => open_child TArray (pkey p) (pindent p) frame0 rest0
            end
        | TArray => Ok stack
        end ;;
      match stack1 with
      | [] => Err TypeError
      | frame :: rest =>
          match f_type frame with
          | TObject => Err (ListItemWithoutArray (index + 1))
          | TArray =>
              let content := trim (drop 1 trimmed) in
              if jstr_eqb content [] then
                push_item (VObj []) (Some (indent, None)) frame rest
              else if includes [ch ":"] content then
                match indexOf (ch ":") content with
                | None => Err TypeError
                | Some colonIndex =>
                    let key := trim (slice 0 colonIndex content) in
                    let valuePart := trim (drop (S colonIndex) content) in
                    if jstr_eqb valuePart [] then
                      push_item (VObj (obj_set key (VObj []) []))
                        (Some (indent, Some {| pkey := key; pindent := indent |}))
                        frame rest
                    else
                      v <- parseScalar valuePart ;;
                      push_item (VObj (obj_set key v [])) (Some (indent, None))
                        frame rest
                end
              else
                v <- parseScalar content ;;
                push_item v None frame rest
          end
      end
  end.

Definition mapping_entry (index : nat) (indent : Z) (trimmed : jstring)
    (stack : list frame) : result (list frame) :=
  match stack with
  | [] => Err TypeError
  | frame :: rest =>
      match indexOf (ch ":") trimmed with
      | None => Err (UnableToParseLine (index + 1) trimmed)
      | Some colonIndex =>
          let key := trim (slice 0 colonIndex trimmed) in
          let valuePart := trim (drop (S colonIndex) trimmed) in
          if jstr_eqb valuePart [] then
            Ok (set_pending (Some {| pkey := key; pindent := indent |}) frame
                :: rest)
          else
            v <- parseScalar valuePart ;;
            c <- container_set key v (f_container frame) ;;
            Ok (set_container c frame :: rest)
      end
  end.

(** One iteration of the [for] loop over [filteredLines]. *)
Definition process_line (index : nat) (rawLine : jstring)
    (stack : list frame) : result (list frame) :=
  if isWhitespaceOnly rawLine then Ok stack
  else
    let indent := Z.of_nat (length (takeWhile is_ws rawLine)) in
    let trimmed := trim rawLine in
    let stack := pop_while (length stack) indent stack in
    stack <- resolve_pending indent trimmed stack ;;
    if startsWith trimmed [ch "-"] then list_item index indent trimmed stack
    else mapping_entry index indent trimmed stack.

Fixpoint process_lines (index : nat) (lines : list jstring)
    (stack : list frame) : result (list frame) :=
  match lines with
  | [] => Ok stack
  | rawLine :: lines' =>
      stack' <- process_line index rawLine stack ;;
      process_lines (S index) lines' stack'
  end.

(** The final [while (stack.length > 1)] loop. *)
Fixpoint unwind (fuel : nat) (stack : list frame) : result (list frame) :=
  match fuel with
  | O => Ok stack
  | S f =>
      match stack with
      | top :: parent :: rest =>
          let parent' := write_back top parent in
          match f_pending top with
          | Some p =>
              c <- container_set (pkey p) (VObj []) (f_container parent') ;;
              unwind f (set_container c parent' :: rest)
          | None => unwind f (parent' :: rest)
          end
      | _ => Ok stack
      end
  end.

Definition filteredLines (text : jstring) : list jstring :=
  map trimEnd
    (map (replace1 9 [32; 32])
       (map stripComments (split_lines (normalize_newlines text)))).

Definition root_frame : frame :=
  {| f_type := TObject; f_container := VObj []; f_indent := -1;
     f_pending := None; f_slot := SRoot |}.

Definition parseYAML (text : jstring) : result value :=
  stack <- process_lines 0 (filteredLines text) [root_frame] ;;
  stack' <- unwind (length stack) stack ;;
  match stack' with
  | [root] => Ok (f_container root)
  | _ => Err TypeError
  end.

(** ** Serializer *)

Definition is_bare_char (c : N) : bool :=
  (c =? ch "-") || is_upper c || is_lower c || is_digit c || (c =? ch "_")
  || (c =? ch ".").

Definition needsQuoting (value : jstring) : bool :=
  negb (negb (jstr_eqb value []) && forallb is_bare_char value)
  || includes (js ": ") value || jstr_eqb value [].

Definition quoteString (value : jstring) : jstring :=
  dquote :: replace1 (dquote) [92; dquote] (replace1 92 [92; 92] value)
  ++ [dquote].

(** [String(value)] *)
Fixpoint js_String (v : value) : jstring :=
  match v with
  | VNull => js "null"
  | VBool b => if b then js "true" else js "false"
  | VNum n => number_to_string n
  | VStr s => s
  | VArr items =>
      (fix join (l : list value) : jstring :=
         match l with
         | [] => []
         | x :: l' =>
             match x with VNull => [] | _ => js_String x end
             ++ match l' with [] => [] | _ :: _ => ch "," :: join l' end
         end) items
  | VObj _ => js "[object Object]"
  end.

Definition serializeScalar (v : value) : jstring :=
  match v with
  | VNull => js "null"
  | VBool b => if b then js "true" else js "false"
  | VNum n => if isFinite n then number_to_string n else js "null"
  | VStr s => if needsQuoting s then quoteString s else s
  | _ => quoteString (js_String v)
  end.

(** [typeof v === "object" && v !== null] *)
Definition is_object_like (v : value) : bool :=
  match v with
  | VArr _ | VObj _ => true
  | _ => false
  end.

Definition dash_item (indent childIndent nested : jstring) : jstring :=
  match split_lines nested with
  | [] => indent ++ js "- "
  | [firstLine] => indent ++ js "- " ++ trimStart firstLine
  | firstLine :: rest =>
      let tail :=
        join_lines
          (map (fun line =>
                  childIndent ++
                  (if startsWith line childIndent
                   then drop (length childIndent) line else trimStart line))
             rest) in
      indent ++ js "- " ++ trimStart firstLine ++ 10 :: tail
  end.

Fixpoint stringifyYAML (v : value) (indentSize indentLevel : nat) : jstring :=
  let indent := spaces indentLevel in
  match v with
  | VArr items =>
      match items with
      | [] => indent ++ js "[]"
      | _ :: _ =>
          let childIndent := spaces (indentLevel + indentSize) in
          join_lines
            (map (fun item =>
                    if is_object_like item then
                      dash_item indent childIndent
                        (stringifyYAML item indentSize (indentLevel + indentSize))
                    else indent ++ js "- " ++ serializeScalar item)
               items)
      end
  | VObj props =>
      match props with
      | [] => indent ++ js "{}"
      | _ :: _ =>
          join_lines
            (map (fun kv =>
                    let prefix :=
                      indent
                      ++ (if needsQuoting (fst kv) then quoteString (fst kv)
                          else fst kv) ++ [ch ":"] in
                    if is_object_like (snd kv) then
                      prefix ++ 10
                      :: stringifyYAML (snd kv) indentSize (indentLevel + indentSize)
                    else prefix ++ 32 :: serializeScalar (snd kv))
               props)
      end
  | _ => indent ++ serializeScalar v
  end.

(** ** Built-ins of the runtime

    [String.prototype.toLowerCase] (the Unicode case tables) and
    [JSON.parse] are not part of the program; the functions below take them
    from the environment.  [has_structuredClone] says whether
    [typeof structuredClone === "function"]. *)

Class Runtime := {
  toLowerCase : jstring -> jstring;
  JSON_parse : jstring -> option value;
  has_structuredClone : bool
}.

(** ** slugifyArea *)

Definition translit (c : N) : option jstring :=
  if c =? 228 then Some (js "ae")
  else if c =? 246 then Some (js "oe")
  else if c =? 252 then Some (js "ue")
  else if c =? 223 then Some (js "ss")
  else None.

(** The body of [for (const char of lower)].  The loop runs over code
    points; a code point outside the basic plane is two code units, neither
    of which is kept, so running over code units gives the same text. *)
Fixpoint slugify_loop (lower : jstring) (result : jstring) : jstring :=
  match lower with
  | [] => result
  | char :: rest =>
      slugify_loop rest
        match translit char with
        | Some t => result ++ t
        | None =>
            if is_lower char || is_digit char then result ++ [char]
            else if (char =? ch " ") || (char =? ch "/") then result ++ [ch "_"]
            else result
        end
  end.

Definition slugifyArea `{Runtime} (name : jstring) : jstring :=
  slugify_loop (toLowerCase (trim name)) [].

Definition normaliseRoom `{Runtime} (value : jstring) : jstring :=
  toLowerCase (trim value).

(** ** Pattern matcher *)

Definition isRecord (v : value) : bool :=
  match v with
  | VObj _ => true
  | _ => false
  end.

(** [v.k]: [None] is [undefined] *)
Definition get (k : string) (v : value) : option value :=
  match v with
  | VObj o => obj_get (js k) o
  | _ => None
  end.

(** [v === "s"] *)
Definition str_is (s : string) (v : value) : bool :=
  match v with
  | VStr t => jstr_eqb t (js s)
  | _ => false
  end.

Definition is_str (s : string) (v : option value) : bool :=
  match v with
  | Some v' => str_is s v'
  | None => false
  end.

Definition isBubblePopup (stack : value) : bool :=
  if negb (isRecord stack) then false
  else if negb (is_str "vertical-stack" (get "type" stack)) then false
  else
    match get "cards" stack with
    | Some (VArr (first :: _)) =>
        if negb (isRecord first) then false
        else is_str "custom:bubble-card" (get "type" first)
             && is_str "pop-up" (get "card_type" first)
    | _ => false
    end.

Fixpoint extractAreaFromNode (node : value) : option jstring :=
  match node with
  | VObj o =>
      let direct :=
        match obj_get (js "area") o with
        | Some (VStr a) => Some a
        | _ =>
            match obj_get (js "target") o with
            | Some (VObj t) =>
                match obj_get (js "area_id") t with
                | Some (VStr a) => Some a
                | _ => None
                end
            | _ => None
            end
        end in
      match direct with
      | Some a => Some a
      | None =>
          (fix values (l : list (jstring * value)) : option jstring :=
             match l with
             | [] => None
             | kv :: l' =>
                 match extractAreaFromNode (snd kv) with
                 | Some ((_ :: _) as extracted) => Some extracted
                 | _ => values l'
                 end
             end) o
      end
  | VArr items =>
      (fix each (l : list value) : option jstring :=
         match l with
         | [] => None
         | item :: l' =>
             match extractAreaFromNode item with
             | Some ((_ :: _) as extracted) => Some extracted
             | _ => each l'
             end
         end) items
  | _ => None
  end.

Definition anchor (areaId : jstring) : jstring :=
  ch "#" :: areaId ++ js "-popup".

(** The test made on one slot that passed [isBubblePopup]. *)
Definition strategy_match `{Runtime} (stack : value) (desiredName desiredHash
    areaId : jstring) (strategy : value) : result bool :=
  let head := match get "cards" stack with
              | Some (VArr (h :: _)) => h
              | _ => VNull
              end in
  if str_is "name" strategy then
    let name := match get "name" head with
                | Some (VStr n) => normaliseRoom n
                | _ => []
                end in
    Ok (jstr_eqb name desiredName)
  else if str_is "hash" strategy then
    Ok match get "hash" head with
       | Some (VStr h) => jstr_eqb h desiredHash
       | _ => false
       end
  else if str_is "area" strategy then
    Ok match extractAreaFromNode stack with
       | Some extracted => jstr_eqb extracted areaId
       | None => false
       end
  else Err (UnknownStrategy strategy).

(** [cards.forEach((stack, index) => ...)] with the two variables the
    callback closes over. *)
Fixpoint findExistingStack_loop `{Runtime} (cards : list value) (index : nat)
    (desiredName desiredHash areaId : jstring) (strategy : value)
    (foundIndex : option nat) (duplicates : list nat)
    : result (option nat * list nat) :=
  match cards with
  | [] => Ok (foundIndex, duplicates)
  | stack :: rest =>
      if negb (isBubblePopup stack) then
        findExistingStack_loop rest (S index) desiredName desiredHash areaId
          strategy foundIndex duplicates
      else
        m <- strategy_match stack desiredName desiredHash areaId strategy ;;
        if (m : bool) then
          match foundIndex with
          | None =>
              findExistingStack_loop rest (S index) desiredName desiredHash
                areaId strategy (Some index) duplicates
          | Some _ =>
              findExistingStack_loop rest (S index) desiredName desiredHash
                areaId strategy foundIndex (duplicates ++ [index])
          end
        else
          findExistingStack_loop rest (S index) desiredName desiredHash areaId
            strategy foundIndex duplicates
  end.

Definition findExistingStack `{Runtime} (grid : value) (room areaId : jstring)
    (strategy : value) : result (option nat * list nat) :=
  match grid with
  | VNull => Err TypeError
  | _ =>
      match get "cards" grid with
      | Some (VArr cards) =>
          findExistingStack_loop cards 0 (normaliseRoom room) (anchor areaId)
            areaId strategy None []
      | _ => Err GridCardsInvalid
      end
  end.

(** ** Template engine (value semantics)

    The functions of this part work on the clone made by [deepClone], a tree
    no other reference points into, so a mutation of a node is the
    replacement of that node in the tree.  The same functions over a store
    with references, where this is not taken for granted, are in module
    [Store] below. *)

(** [JSON.parse(JSON.stringify(v))]: non-finite numbers become [null] and
    the sign of zero is lost. *)
Fixpoint json_roundtrip (v : value) : value :=
  match v with
  | VNum n =>
      match n with
      | S754_zero _ => VNum (S754_zero false)
      | S754_finite _ _ _ => v
      | _ => VNull
      end
  | VArr items => VArr (map json_roundtrip items)
  | VObj props => VObj (map (fun kv => (fst kv, json_roundtrip (snd kv))) props)
  | _ => v
  end.

Definition deepClone `{Runtime} (v : value) : value :=
  if has_structuredClone then v else json_roundtrip v.

Inductive pkind := PArray | PRecord.

Inductive key :=
| KIndex (i : nat)
| KName (k : jstring).

(** A visitor is called as [visitor(value, parent, key)]; [None] stands for
    the [null] parent and key of the root.  It answers with the value it
    assigned to [parent[key]], if it assigned one, with the visited node as
    it left it, and with the variables it closes over. *)
Definition visitor (S : Type) : Type :=
  value -> option (pkind * key) -> S -> option value * value * S.

Fixpoint depth (v : value) : nat :=
  match v with
  | VArr items => S (fold_right (fun x d => Nat.max (depth x) d) 0%nat items)
  | VObj props => S (fold_right (fun kv d => Nat.max (depth (snd kv)) d) 0%nat props)
  | _ => 0%nat
  end.

(** [node.forEach((item, index) => traverse(item, visitor, node, index))],
    over the recursive call [rec] *)
Fixpoint each_item {S : Type}
    (rec : value -> option (pkind * key) -> S -> result (value * S))
    (l : list value) (index : nat) (st : S) : result (list value * S) :=
  match l with
  | [] => Ok ([], st)
  | item :: l' =>
      a <- rec item (Some (PArray, KIndex index)) st ;;
      b <- each_item rec l' (Datatypes.S index) (snd a) ;;
      Ok (fst a :: fst b, snd b)
  end.

(** [Object.entries(node).forEach(([childKey, childValue]) =>
    traverse(childValue, visitor, node, childKey))] *)
Fixpoint each_entry {S : Type}
    (rec : value -> option (pkind * key) -> S -> result (value * S))
    (l : list (jstring * value)) (st : S)
    : result (list (jstring * value) * S) :=
  match l with
  | [] => Ok ([], st)
  | kv :: l' =>
      a <- rec (snd kv) (Some (PRecord, KName (fst kv))) st ;;
      b <- each_entry rec l' (snd a) ;;
      Ok ((fst kv, fst a) :: fst b, snd b)
  end.

(** [traverse(node, visitor, parent, key)].  The result is the value held
    by [parent[key]] once the call is over: what the visitor assigned, or
    the node with its children traversed.  The children are read from the
    node after the visit ([Object.entries] is taken then); [fuel] bounds the
    depth of the recursion. *)
Fixpoint traverse {S : Type} (fuel : nat) (visit : visitor S) (node : value)
    (ctx : option (pkind * key)) (st : S) : result (value * S) :=
  match fuel with
  | O => Err OutOfFuel
  | Datatypes.S f =>
      let '(assigned, node1, st1) := visit node ctx st in
      r <-
        match node1 with
        | VArr items =>
            r <- each_item (traverse f visit) items 0%nat st1 ;;
            Ok (VArr (fst r), snd r)
        | VObj props =>
            r <- each_entry (traverse f visit) props st1 ;;
            Ok (VObj (fst r), snd r)
        | _ => Ok (node1, st1)
        end ;;
      Ok (match assigned with Some v => v | None => fst r end, snd r)
  end.

(** The members [Object.prototype] has by the language.  [replacements] and
    [iconMap] are ordinary objects: a lookup of one of these names in them,
    when they have no own property of that name, finds the member.
    [__proto__] gives [Object.prototype] itself, the other eleven names a
    function. *)
Definition inherited_function (s : jstring) : bool :=
  existsb (jstr_eqb s)
    [js "constructor"; js "hasOwnProperty"; js "isPrototypeOf";
     js "propertyIsEnumerable"; js "toLocaleString"; js "toString";
     js "valueOf"; js "__defineGetter__"; js "__defineSetter__";
     js "__lookupGetter__"; js "__lookupSetter__"].

Definition inherited_name (s : jstring) : bool :=
  jstr_eqb s (js "__proto__") || inherited_function s.

(** [replacements[value]], when truthy, for a [value] that is not the name
    of a member of [Object.prototype].  [replacements] has the three own
    properties below.  A text for which [inherited_name] holds finds the
    inherited member instead, a function or [Object.prototype], which no
    value of this tree model stands for: on such texts this definition
    does not follow the program, and a statement that the lookup decides
    carries the hypothesis that no text is such a name.  The store model
    below, where [Object.prototype] is a cell, follows the program
    there. *)
Definition replacements (room areaId : jstring) (value : jstring)
    : option jstring :=
  let r := if jstr_eqb value (js "__AREA_NAME__") then Some room
           else if jstr_eqb value (js "__AREA_ID__") then Some areaId
           else if jstr_eqb value (js "__HASH__") then Some (anchor areaId)
           else None in
  match r with
  | Some ((_ :: _) as text) => Some text
  | _ => None
  end.

Definition truthy (s : option jstring) : bool :=
  match s with
  | Some (_ :: _) => true
  | _ => false
  end.

Definition placeholder_visitor (room areaId : jstring)
    (iconValue : option jstring) : visitor (bool * bool) :=
  fun value ctx st =>
    match value with
    | VStr s =>
        match replacements room areaId s with
        | Some r =>
            match ctx with
            | Some _ => (Some (VStr r), value, (true, snd st))
            | None => (None, value, st)
            end
        | None =>
            match iconValue, ctx with
            | Some icon, Some _ =>
                if jstr_eqb s (js "__ICON__") && truthy iconValue
                then (Some (VStr icon), value, (fst st, true))
                else (None, value, st)
            | _, _ => (None, value, st)
            end
        end
    | _ => (None, value, st)
    end.

(** Returns the node after the pass and [{ replaced, iconApplied }]. *)
Definition replacePlaceholders (node : value) (room areaId : jstring)
    (iconValue : option jstring) : result (value * (bool * bool)) :=
  traverse (S (depth node)) (placeholder_visitor room areaId iconValue)
    node None (false, false).

Definition set_field (k : string) (v : value) (node : value) : value :=
  match node with
  | VObj o => VObj (obj_set (js k) v o)
  | _ => node
  end.

Definition heuristic_visitor (areaId : jstring) : visitor unit :=
  fun value ctx st =>
    match ctx with
    | Some (PRecord, KName key) =>
        (if jstr_eqb key (js "area") then Some (VStr areaId) else None,
         if jstr_eqb key (js "target") && isRecord value
         then set_field "area_id" (VStr areaId) value else value,
         st)
    | _ => (None, value, st)
    end.

(** [if ("k" in first) first.k = v] *)
Definition set_if_present (k : string) (v : value) (node : value) : value :=
  match get k node with
  | Some _ => set_field k v node
  | None => node
  end.

Definition applyHeuristics (stack : value) (room areaId : jstring)
    : result value :=
  r <- traverse (S (depth stack)) (heuristic_visitor areaId) stack None tt ;;
  let stack := fst r in
  match stack with
  | VNull => Err TypeError
  | _ =>
      match get "cards" stack with
      | Some (VArr (first :: rest)) =>
          if isRecord first then
            let first := set_if_present "name" (VStr room) first in
            let first := set_if_present "hash" (VStr (anchor areaId)) first in
            Ok (set_field "cards" (VArr (first :: rest)) stack)
          else Ok stack
      | _ => Ok stack
      end
  end.

Record application := {
  a_stack : value;
  a_replacedPlaceholders : bool;
  a_iconApplied : bool
}.

(** [iconMap] is the map of the own properties of the object passed;
    [iconMap[room]] for a [room] that names a member of [Object.prototype]
    is, like the lookup in [replacements], followed by module [Store]
    only. *)
Definition deepApplyTemplate `{Runtime} (template : value)
    (room areaId : jstring) (iconMap : option (gmap jstring jstring))
    : result application :=
  let stack := deepClone template in
  let iconValue := match iconMap with
                   | Some m => m !! room
                   | None => None
                   end in
  r <- replacePlaceholders stack room areaId iconValue ;;
  stack <- applyHeuristics (fst r) room areaId ;;
  Ok {| a_stack := stack; a_replacedPlaceholders := fst (snd r);
        a_iconApplied := snd (snd r) |}.

(** ** Template engine over a store

    The same functions with the references of the JavaScript program: an
    object or an array is a cell of a store, a value is a scalar or the
    address of a cell, and an assignment overwrites a cell.  A call is a
    function from the store before to an outcome and the store after, so
    that the store is still there when the call throws. *)

Module Store.

Inductive hval :=
| HNull
| HBool (b : bool)
| HNum (n : number)
| HStr (s : jstring)
| HRef (l : nat).

Inductive cell :=
| CArr (items : list hval)
| CObj (props : list (jstring * hval)).

Abbreviation store := (list cell).

Definition M (A : Type) : Type := store -> result A * store.

Definition ret {A} (a : A) : M A := fun h => (Ok a, h).

Definition throw {A} (e : error) : M A := fun h => (Err e, h).

Definition mbind {A B} (m : M A) (k : A -> M B) : M B :=
  fun h =>
    match m h with
    | (Ok a, h') => k a h'
    | (Err e, h') => (Err e, h')
    end.

Notation "x <~ m ;; k" := (mbind m (fun x => k))
  (at level 100, m at next level, right associativity).

(** A new object or array *)
Definition alloc (c : cell) : M nat := fun h => (Ok (length h), h ++ [c]).

Definition read (l : nat) : M cell :=
  fun h =>
    match h !! l with
    | Some c => (Ok c, h)
    | None => (Err TypeError, h)
    end.

Definition write (l : nat) (c : cell) : M unit := fun h => (Ok tt, <[l := c]> h).

Definition store_size : M nat := fun h => (Ok (length h), h).

(** *** deepClone *)

Fixpoint memo_get (memo : list (nat * nat)) (l : nat) : option nat :=
  match memo with
  | [] => None
  | (a, b) :: memo' => if Nat.eqb a l then Some b else memo_get memo' l
  end.

Fixpoint clone_items {K : Type}
    (rec : hval -> list (nat * nat) -> M (hval * list (nat * nat)))
    (items : list (K * hval)) (memo : list (nat * nat))
    : M (list (K * hval) * list (nat * nat)) :=
  match items with
  | [] => ret ([], memo)
  | (k, v) :: items' =>
      a <~ rec v memo ;;
      b <~ clone_items rec items' (snd a) ;;
      ret ((k, fst a) :: fst b, snd b)
  end.

(** [structuredClone(v)]: a copy of the cells reachable from [v] in which
    sharing and cycles are kept ([memo] maps the cells already copied to
    their copies).  [fuel] bounds the depth of the walk, which is at most
    the number of cells. *)
Fixpoint structuredClone_fuel (fuel : nat) (v : hval) (memo : list (nat * nat))
    : M (hval * list (nat * nat)) :=
  match v with
  | HRef l =>
      match memo_get memo l with
      | Some l' => ret (HRef l', memo)
      | None =>
          match fuel with
          | O => throw OutOfFuel
          | S f =>
              c <~ read l ;;
              match c with
              | CArr items =>
                  l' <~ alloc (CArr []) ;;
                  r <~ clone_items (structuredClone_fuel f)
                         (map (fun x => (tt, x)) items) ((l, l') :: memo) ;;
                  _ <~ write l' (CArr (map snd (fst r))) ;;
                  ret (HRef l', snd r)
              | CObj props =>
                  l' <~ alloc (CObj []) ;;
                  r <~ clone_items (structuredClone_fuel f) props ((l, l') :: memo) ;;
                  _ <~ write l' (CObj (fst r)) ;;
                  ret (HRef l', snd r)
              end
          end
      end
  | _ => ret (v, memo)
  end.

Fixpoint mapO {A B} (f : A -> option B) (l : list A) : option (list B) :=
  match l with
  | [] => Some []
  | x :: l' =>
      match f x, mapO f l' with
      | Some y, Some ys => Some (y :: ys)
      | _, _ => None
      end
  end.

(** The tree below [v], if it is at most [fuel] deep. *)
Fixpoint reify (fuel : nat) (h : store) (v : hval) : option value :=
  match v with
  | HNull => Some VNull
  | HBool b => Some (VBool b)
  | HNum n => Some (VNum n)
  | HStr s => Some (VStr s)
  | HRef l =>
      match fuel with
      | O => None
      | S f =>
          match h !! l with
          | Some (CArr items) => option_map VArr (mapO (reify f h) items)
          | Some (CObj props) =>
              option_map VObj
                (mapO (fun kv => option_map (pair (fst kv)) (reify f h (snd kv)))
                   props)
          | None => None
          end
      end
  end.

(** Fresh cells for a tree *)
Fixpoint alloc_value (v : value) : M hval :=
  match v with
  | VNull => ret HNull
  | VBool b => ret (HBool b)
  | VNum n => ret (HNum n)
  | VStr s => ret (HStr s)
  | VArr items =>
      items' <~
        (fix each (l : list value) : M (list hval) :=
           match l with
           | [] => ret []
           | x :: l' => a <~ alloc_value x ;; b <~ each l' ;; ret (a :: b)
           end) items ;;
      l <~ alloc (CArr items') ;;
      ret (HRef l)
  | VObj props =>
      props' <~
        (fix each (l : list (jstring * value)) : M (list (jstring * hval)) :=
           match l with
           | [] => ret []
           | kv :: l' =>
               a <~ alloc_value (snd kv) ;; b <~ each l' ;; ret ((fst kv, a) :: b)
           end) props ;;
      l <~ alloc (CObj props') ;;
      ret (HRef l)
  end.

(** [JSON.parse(JSON.stringify(v))]; a structure deeper than the store has
    cells is circular, and [JSON.stringify] throws a [TypeError] on it. *)
Definition json_clone (v : hval) : M hval :=
  fun h =>
    match reify (S (length h)) h v with
    | Some t => alloc_value (json_roundtrip t) h
    | None => (Err TypeError, h)
    end.

Definition deepClone `{Runtime} (v : hval) : M hval :=
  if has_structuredClone then
    n <~ store_size ;;
    r <~ structuredClone_fuel (S n) v [] ;;
    ret (fst r)
  else json_clone v.

(** *** traverse *)

(** [visitor(value, parent, key)], with the variables it closes over *)
Definition visitor (St : Type) : Type :=
  hval -> option (nat * key) -> St -> M St.

(** [node.forEach((item, index) => traverse(item, visitor, node, index))]:
    the length is taken once, the elements are read when their turn
    comes. *)
Fixpoint each_index {St : Type}
    (rec : hval -> option (nat * key) -> St -> M St)
    (l : nat) (remaining index : nat) (st : St) : M St :=
  match remaining with
  | O => ret st
  | S r =>
      c <~ read l ;;
      match c with
      | CArr items =>
          match items !! index with
          | Some item =>
              st' <~ rec item (Some (l, KIndex index)) st ;;
              each_index rec l r (S index) st'
          | None => each_index rec l r (S index) st
          end
      | CObj _ => ret st
      end
  end.

(** [Object.entries(node).forEach(([childKey, childValue]) => ...)]: the
    entries are taken once. *)
Fixpoint each_entry {St : Type}
    (rec : hval -> option (nat * key) -> St -> M St)
    (l : nat) (entries : list (jstring * hval)) (st : St) : M St :=
  match entries with
  | [] => ret st
  | (k, v) :: entries' =>
      st' <~ rec v (Some (l, KName k)) st ;;
      each_entry rec l entries' st'
  end.

(** [fuel] bounds the depth of the recursion; running out of it stands for
    the [RangeError] of a walk that does not end. *)
Fixpoint traverse {St : Type} (fuel : nat) (visit : visitor St) (node : hval)
    (parent : option (nat * key)) (st : St) : M St :=
  match fuel with
  | O => throw OutOfFuel
  | S f =>
      st1 <~ visit node parent st ;;
      match node with
      | HRef l =>
          c <~ read l ;;
          match c with
          | CArr items => each_index (traverse f visit) l (length items) 0 st1
          | CObj props => each_entry (traverse f visit) l props st1
          end
      | _ => ret st1
      end
  end.

(** [parent[key] = v] *)
Definition assign (parent : nat) (k : key) (v : hval) : M unit :=
  c <~ read parent ;;
  match c, k with
  | CArr items, KIndex i => write parent (CArr (<[i := v]> items))
  | CObj props, KName name => write parent (CObj (obj_set name v props))
  | _, _ => ret tt
  end.

(** *** Object.prototype

    Cell [proto] of a store is [Object.prototype], every object of the
    program inherits from it (arrays, strings, numbers and booleans do so
    through their own prototypes).  The cell holds its enumerable own
    properties, none in a program that has not added any; its members by
    the language are not enumerable and are given by [inherited_name]. *)
Definition proto : nat := 0.

(** The enumerable own properties of [Object.prototype].  A store whose
    cell [proto] is missing or is an array is not a store of the program. *)
Definition read_proto : M (list (jstring * hval)) :=
  fun h =>
    match h !! proto with
    | Some (CObj props) => (Ok props, h)
    | _ => (Err Unmodelled, h)
    end.

(** The property [s] as found through [Object.prototype] by an object that
    has no own property [s]; [None] is [undefined].  A function is a value
    the store has no place for: finding one is outside the model. *)
Definition inherited (s : jstring) : M (option hval) :=
  if jstr_eqb s (js "__proto__") then ret (Some (HRef proto))
  else
    props <~ read_proto ;;
    match obj_get s props with
    | Some v => ret (Some v)
    | None => if inherited_function s then throw Unmodelled else ret None
    end.

Definition truthy_hval (v : hval) : bool :=
  match v with
  | HNull => false
  | HBool b => b
  | HNum (S754_zero _) => false
  | HNum S754_nan => false
  | HNum _ => true
  | HStr s => negb (jstr_eqb s [])
  | HRef _ => true
  end.

(** [replacements[value]] when it is truthy: an own property of
    [replacements], or else what the lookup finds through
    [Object.prototype]. *)
Definition replacement (room areaId : jstring) (value : jstring)
    : M (option hval) :=
  let keep v := if truthy_hval v then Some v else None in
  if jstr_eqb value (js "__AREA_NAME__") then ret (keep (HStr room))
  else if jstr_eqb value (js "__AREA_ID__") then ret (keep (HStr areaId))
  else if jstr_eqb value (js "__HASH__") then ret (keep (HStr (anchor areaId)))
  else
    r <~ inherited value ;;
    ret match r with
        | Some v => keep v
        | None => None
        end.

(** [iconMap ? iconMap[room] ?? null : null] *)
Definition icon_value (iconMap : option (gmap jstring jstring))
    (room : jstring) : M (option hval) :=
  match iconMap with
  | Some m =>
      match m !! room with
      | Some icon => ret (Some (HStr icon))
      | None => inherited room
      end
  | None => ret None
  end.

Definition placeholder_visitor (room areaId : jstring)
    (iconValue : option hval) : visitor (bool * bool) :=
  fun value parent st =>
    match value with
    | HStr s =>
        r <~ replacement room areaId s ;;
        match r with
        | Some v =>
            match parent with
            | Some (p, k) => _ <~ assign p k v ;; ret (true, snd st)
            | None => ret st
            end
        | None =>
            match iconValue, parent with
            | Some icon, Some (p, k) =>
                if jstr_eqb s (js "__ICON__") && truthy_hval icon
                then _ <~ assign p k icon ;; ret (fst st, true)
                else ret st
            | _, _ => ret st
            end
        end
    | _ => ret st
    end.

Definition replacePlaceholders (node : hval) (room areaId : jstring)
    (iconValue : option hval) : M (bool * bool) :=
  n <~ store_size ;;
  traverse (S n) (placeholder_visitor room areaId iconValue) node None
    (false, false).

(** [node.k = v] on a mapping; nothing on anything else the program could
    hold there. *)
Definition set_field (l : nat) (k : string) (v : hval) : M unit :=
  c <~ read l ;;
  match c with
  | CObj props => write l (CObj (obj_set (js k) v props))
  | CArr _ => ret tt
  end.

Definition heuristic_visitor (areaId : jstring) : visitor unit :=
  fun value parent st =>
    match parent with
    | Some (p, KName k) =>
        c <~ read p ;;
        match c with
        | CObj _ =>
            _ <~ (if jstr_eqb k (js "area")
                  then assign p (KName k) (HStr areaId) else ret tt) ;;
            _ <~ (if jstr_eqb k (js "target") then
                    match value with
                    | HRef l =>
                        vc <~ read l ;;
                        match vc with
                        | CObj _ => set_field l "area_id" (HStr areaId)
                        | CArr _ => ret tt
                        end
                    | _ => ret tt
                    end
                  else ret tt) ;;
            ret st
        | CArr _ => ret st
        end
    | _ => ret st
    end.

(** [if ("k" in first) first.k = v]: [in] looks at the own properties and
    at those found through [Object.prototype]; the assignment makes an own
    property. *)
Definition set_if_present (l : nat) (k : string) (v : hval) : M unit :=
  c <~ read l ;;
  match c with
  | CObj props =>
      if obj_has (js k) props then set_field l k v
      else
        r <~ inherited (js k) ;;
        match r with
        | Some _ => set_field l k v
        | None => ret tt
        end
  | CArr _ => ret tt
  end.

(** [stack.cards] on a value that is not an object with an own property
    [cards]: an array, a string, a number or a boolean has no such
    property of its own and finds what [Object.prototype] has. *)
Definition get_cards (stack : hval) : M (option hval) :=
  match stack with
  | HNull => throw TypeError
  | HRef l =>
      c <~ read l ;;
      match c with
      | CObj props =>
          match obj_get (js "cards") props with
          | Some v => ret (Some v)
          | None => inherited (js "cards")
          end
      | CArr _ => inherited (js "cards")
      end
  | _ => inherited (js "cards")
  end.

Definition applyHeuristics (stack : hval) (room areaId : jstring) : M unit :=
  n <~ store_size ;;
  _ <~ traverse (S n) (heuristic_visitor areaId) stack None tt ;;
  cards <~ get_cards stack ;;
  match cards with
  | Some (HRef lc) =>
      cc <~ read lc ;;
      match cc with
      | CArr (HRef lf :: _) =>
          fc <~ read lf ;;
          match fc with
          | CObj _ =>
              _ <~ set_if_present lf "name" (HStr room) ;;
              set_if_present lf "hash" (HStr (anchor areaId))
          | CArr _ => ret tt
          end
      | _ => ret tt
      end
  | _ => ret tt
  end.

Record application := {
  a_stack : hval;
  a_replacedPlaceholders : bool;
  a_iconApplied : bool
}.

Definition deepApplyTemplate `{Runtime} (template : hval)
    (room areaId : jstring) (iconMap : option (gmap jstring jstring))
    : M application :=
  stack <~ deepClone template ;;
  iconValue <~ icon_value iconMap room ;;
  r <~ replacePlaceholders stack room areaId iconValue ;;
  _ <~ applyHeuristics stack room areaId ;;
  ret {| a_stack := stack; a_replacedPlaceholders := fst r;
         a_iconApplied := snd r |}.

End Store.

(** ** replaceOrAppend and processGrid *)

(** [grid.cards[index] = stack] inside the bounds, or at the end; an index
    further out leaves holes and is outside the model. *)
Definition set_card (index : nat) (stack : value) (cards : list value)
    : result (list value) :=
  if bool_decide (index < length cards)%nat then Ok (<[index := stack]> cards)
  else if bool_decide (index = length cards) then Ok (cards ++ [stack])
  else Err Unmodelled.

(** Returns the grid after the write and the index. *)
Definition replaceOrAppend (grid : value) (index : option nat) (stack : value)
    (insertMode : value) : result (value * nat) :=
  match grid with
  | VNull => Err TypeError
  | _ =>
      match get "cards" grid with
      | Some (VArr cards) =>
          match index with
          | Some i =>
              if str_is "keep-index" insertMode then
                cards' <- set_card i stack cards ;;
                Ok (set_field "cards" (VArr cards') grid, i)
              else
                cards' <- set_card i stack cards ;;
                Ok (set_field "cards" (VArr cards') grid, i)
          | None =>
              Ok (set_field "cards" (VArr (cards ++ [stack])) grid,
                  (length (cards ++ [stack]) - 1)%nat)
          end
      | _ => Err GridCardsNotArray
      end
  end.

Record options := {
  o_indent : option nat;
  o_detectBy : value;
  o_insertMode : value;
  o_iconMap : option (gmap jstring jstring)
}.

Inductive action := Created | Updated.

Record entry := {
  e_room : jstring;
  e_areaId : jstring;
  e_action : action;
  e_index : nat;
  e_duplicates : list nat;
  e_placeholdersUsed : bool
}.

(** [rooms.forEach((roomName) => ...)] over [gridCopy] and [report] *)
Fixpoint processGrid_loop `{Runtime} (rooms : list value) (templateCopy : value)
    (opts : options) (gridCopy : value) (report : list entry)
    : result (value * list entry) :=
  match rooms with
  | [] => Ok (gridCopy, report)
  | VStr roomName :: rooms' =>
      let areaId := slugifyArea roomName in
      m <- findExistingStack gridCopy roomName areaId (o_detectBy opts) ;;
      applied <- deepApplyTemplate templateCopy roomName areaId (o_iconMap opts) ;;
      w <- replaceOrAppend gridCopy (fst m) (a_stack applied) (o_insertMode opts) ;;
      processGrid_loop rooms' templateCopy opts (fst w)
        (report ++
         [{| e_room := roomName; e_areaId := areaId;
             e_action := match fst m with None => Created | Some _ => Updated end;
             e_index := snd w; e_duplicates := snd m;
             e_placeholdersUsed := a_replacedPlaceholders applied |}])
  | _ :: _ => Err RoomsNotStrings
  end.

Definition processGrid `{Runtime} (gridSource roomsSource templateSource : jstring)
    (opts : options) : result (jstring * list entry) :=
  grid <- parseYAML gridSource ;;
  template <- parseYAML templateSource ;;
  match JSON_parse roomsSource with
  | None => Err RoomsJSONUnparsable
  | Some (VArr rooms) =>
      if negb (isRecord grid) || negb (is_str "grid" (get "type" grid))
         || negb (match get "cards" grid with Some (VArr _) => true | _ => false end)
      then Err GridYAMLInvalid
      else if negb (isRecord template)
              || negb (is_str "vertical-stack" (get "type" template))
      then Err TemplateNotStack
      else
        match get "cards" template with
        | Some (VArr (firstCard :: _)) =>
            if negb (isRecord firstCard)
               || negb (is_str "custom:bubble-card" (get "type" firstCard))
               || negb (is_str "pop-up" (get "card_type" firstCard))
            then Err TemplateFirstCard
            else
              let gridCopy := deepClone grid in
              let templateCopy := deepClone template in
              r <- processGrid_loop rooms templateCopy opts gridCopy [] ;;
              Ok (stringifyYAML (fst r) (default 2%nat (o_indent opts)) 0,
                  snd r)
        | _ => Err TemplateNeedsCards
        end
  | Some _ => Err RoomsNotList
  end.

(** ** A runtime for closed examples

    [lower_latin1] is [toLowerCase] on code units below 256 (the letters of
    Basic Latin and Latin-1 Supplement) and leaves the others in place;
    [json_string_array] reads a JSON array of string literals without
    escapes and rejects any other text.  On such inputs they agree with the
    built-ins. *)

Definition lower_latin1 (s : jstring) : jstring :=
  map (fun c => if is_upper c || ((192 <=? c) && (c <=? 222) && negb (c =? 215))
                then c + 32 else c) s.

Inductive json_state :=
| JStart
| JOpen
| JString (cur : jstring)
| JAfterValue
| JAfterComma
| JDone.

Fixpoint json_scan (s : jstring) (st : json_state) (acc : list value)
    : option value :=
  match s with
  | [] => match st with JDone => Some (VArr acc) | _ => None end
  | c :: s' =>
      match st with
      | JString cur =>
          if c =? dquote then json_scan s' JAfterValue (acc ++ [VStr (rev cur)])
          else if (c =? 92) || (c <? 32) then None
          else json_scan s' (JString (c :: cur)) acc
      | _ =>
          if (c =? 32) || (c =? 9) || (c =? 10) || (c =? 13) then json_scan s' st acc
          else
            match st with
            | JStart => if c =? ch "[" then json_scan s' JOpen acc else None
            | JOpen =>
                if c =? ch "]" then json_scan s' JDone acc
                else if c =? dquote then json_scan s' (JString []) acc
                else None
            | JAfterComma =>
                if c =? dquote then json_scan s' (JString []) acc else None
            | JAfterValue =>
                if c =? ch "]" then json_scan s' JDone acc
                else if c =? ch "," then json_scan s' JAfterComma acc
                else None
            | _ => None
            end
      end
  end.

Definition json_string_array (s : jstring) : option value := json_scan s JStart [].

Definition example_runtime : Runtime :=
  {| toLowerCase := lower_latin1; JSON_parse := json_string_array;
     has_structuredClone := true |}.

(** * Facts *)

(** ** Scalars (C7) *)

(** The binary64 value written out in the boundary cases below is the
    number three: its mantissa is [3 * 2^51] and its exponent [-51]. *)
Lemma number_three :
  number_of_Z false 3 = S754_finite false 6755399441055744 (-51)
  /\ (6755399441055744 = 3 * 2 ^ 51)%Z.
Proof. split; reflexivity. Qed.

(** C7. [parseScalar] maps the empty string and ["~"] to [null], ["3.0"]
    and ["03"] to the number 3, and the double-quoted text [a\nb]
    (backslash, n) to the string a, line feed, b. *)
Theorem parseScalar_boundary_cases :
  parseScalar [] = Ok VNull
  /\ parseScalar (js "~") = Ok VNull
  /\ parseScalar (js "3.0") = Ok (VNum (number_of_Z false 3))
  /\ parseScalar (js "03") = Ok (VNum (number_of_Z false 3))
  /\ parseScalar ((dquote :: js "a\nb" ++ [dquote])) = Ok (VStr [ch "a"; 10; ch "b"]).
Proof. repeat split; vm_compute; reflexivity. Qed.

(** ** Slug derivation (C8) *)

(** What one character of the lowered, trimmed name contributes, in the
    words of the specification. *)
Definition slug_char (c : N) : jstring :=
  if c =? 228 then js "ae"
  else if c =? 246 then js "oe"
  else if c =? 252 then js "ue"
  else if c =? 223 then js "ss"
  else if is_lower c || is_digit c then [c]
  else if (c =? ch " ") || (c =? ch "/") then [ch "_"]
  else [].

Definition slug_ok (c : N) : bool := is_lower c || is_digit c || (c =? ch "_").

Lemma slugify_loop_flat_map lower result :
  slugify_loop lower result = result ++ flat_map slug_char lower.
Proof.
  revert result.
  induction lower as [|c rest IH]; intros result; cbn [slugify_loop flat_map].
  - now rewrite app_nil_r.
  - rewrite IH, (app_assoc result). f_equal.
    unfold translit, slug_char.
    repeat match goal with
           | |- context [if ?b then _ else _] => destruct b
           end; now rewrite ?app_nil_r.
Qed.

Lemma slug_char_ok c : forallb slug_ok (slug_char c) = true.
Proof.
  unfold slug_char.
  destruct (c =? 228); [reflexivity|].
  destruct (c =? 246); [reflexivity|].
  destruct (c =? 252); [reflexivity|].
  destruct (c =? 223); [reflexivity|].
  destruct (is_lower c || is_digit c) eqn:E.
  - cbn [forallb]. unfold slug_ok. now rewrite E.
  - now destruct ((c =? ch " ") || (c =? ch "/")).
Qed.

(** C8. [slugifyArea] trims and lowercases the name and then maps every
    character as the specification lists; every character of the result is
    in [a-z0-9_]; the hyphen is dropped; the result is a function of the
    input. *)
Theorem slugifyArea_spec `{Runtime} (name : jstring) :
  slugifyArea name = flat_map slug_char (toLowerCase (trim name))
  /\ forallb slug_ok (slugifyArea name) = true
  /\ slug_char (ch "-") = []
  /\ (forall name', name' = name -> slugifyArea name' = slugifyArea name).
Proof.
  assert (E : slugifyArea name = flat_map slug_char (toLowerCase (trim name))).
  { unfold slugifyArea. now rewrite slugify_loop_flat_map. }
  repeat split.
  - exact E.
  - rewrite E. clear E.
    induction (toLowerCase (trim name)) as [|c l IH]; cbn [flat_map].
    + reflexivity.
    + now rewrite forallb_app, slug_char_ok, IH.
  - now intros name' ->.
Qed.

(** ** Pending keys (C2) *)

(** C2, on the code.  A key with an empty value part followed by a line at
    the same indent is dropped ([a] is not bound at all), a pending key of
    the root frame at the end of the input is dropped as well, and a pending
    key of a nested frame at the end of the input is bound in the parent of
    its container. *)
Theorem pending_key_not_bound :
  parseYAML (js "a:" ++ 10 :: js "b: 1")
    = Ok (VObj [(js "b", VNum (number_of_Z false 1))])
  /\ parseYAML (js "a:") = Ok (VObj [])
  /\ parseYAML (js "a:" ++ 10 :: js "  b:")
    = Ok (VObj [(js "a", VObj []); (js "b", VObj [])]).
Proof. repeat split; vm_compute; reflexivity. Qed.

(** ** The matcher (C3, C6) *)

Definition valid_strategy (strategy : value) : bool :=
  str_is "name" strategy || str_is "hash" strategy || str_is "area" strategy.

(** A slot counts as a match when it is a pop-up stack and the strategy's
    test succeeds on it. *)
Definition slot_matches `{Runtime} (room areaId : jstring) (strategy : value)
    (stack : value) : bool :=
  isBubblePopup stack
  && match strategy_match stack (normaliseRoom room) (anchor areaId) areaId strategy with
     | Ok true => true
     | _ => false
     end.

Definition matching_positions `{Runtime} (cards : list value)
    (room areaId : jstring) (strategy : value) : list nat :=
  List.filter
    (fun i => match cards !! i with
              | Some stack => slot_matches room areaId strategy stack
              | None => false
              end)
    (seq 0 (length cards)).

(** The positions, counted from [index], of the matches in a suffix. *)
Fixpoint matches_from `{Runtime} (cards : list value) (index : nat)
    (room areaId : jstring) (strategy : value) : list nat :=
  match cards with
  | [] => []
  | stack :: rest =>
      if slot_matches room areaId strategy stack
      then index :: matches_from rest (S index) room areaId strategy
      else matches_from rest (S index) room areaId strategy
  end.

Lemma filter_seq_shift (P : nat -> bool) (a n : nat) :
  List.filter P (seq (S a) n) = map S (List.filter (fun i => P (S i)) (seq a n)).
Proof.
  revert a. induction n as [|n IH]; intros a; simpl; [reflexivity|].
  rewrite IH. now destruct (P (S a)).
Qed.

Lemma matches_from_shift `{Runtime} cards index room areaId strategy :
  matches_from cards (S index) room areaId strategy
  = map S (matches_from cards index room areaId strategy).
Proof.
  revert index. induction cards as [|c rest IH]; intros index; simpl; [reflexivity|].
  rewrite IH. now destruct (slot_matches room areaId strategy c).
Qed.

Lemma matching_positions_from `{Runtime} cards room areaId strategy :
  matching_positions cards room areaId strategy
  = matches_from cards 0 room areaId strategy.
Proof.
  unfold matching_positions.
  induction cards as [|c rest IH]; simpl; [reflexivity|].
  rewrite filter_seq_shift, matches_from_shift. simpl.
  rewrite IH. now destruct (slot_matches room areaId strategy c).
Qed.

Lemma strategy_match_valid `{Runtime} stack dn dh areaId strategy :
  valid_strategy strategy = true ->
  exists b, strategy_match stack dn dh areaId strategy = Ok b.
Proof.
  unfold valid_strategy, strategy_match. intros Hv.
  destruct (str_is "name" strategy); [eauto|].
  destruct (str_is "hash" strategy); [eauto|].
  destruct (str_is "area" strategy); [eauto|discriminate].
Qed.

Lemma strategy_match_invalid `{Runtime} stack dn dh areaId strategy :
  valid_strategy strategy = false ->
  strategy_match stack dn dh areaId strategy = Err (UnknownStrategy strategy).
Proof.
  unfold valid_strategy, strategy_match. intros Hv.
  destruct (str_is "name" strategy); [discriminate|].
  destruct (str_is "hash" strategy); [discriminate|].
  destruct (str_is "area" strategy); [discriminate|reflexivity].
Qed.

(** The loop under a valid strategy: the first match found so far stays,
    every other match is appended to the duplicates. *)
Lemma findExistingStack_loop_valid `{Runtime} cards index room areaId strategy
    foundIndex duplicates :
  valid_strategy strategy = true ->
  findExistingStack_loop cards index (normaliseRoom room) (anchor areaId) areaId
    strategy foundIndex duplicates
  = Ok match foundIndex with
       | Some i => (Some i, duplicates ++ matches_from cards index room areaId strategy)
       | None =>
           match matches_from cards index room areaId strategy with
           | [] => (None, duplicates)
           | i :: rest => (Some i, duplicates ++ rest)
           end
       end.
Proof.
  intros Hv. revert index foundIndex duplicates.
  induction cards as [|c rest IH]; intros index foundIndex duplicates; simpl.
  - destruct foundIndex; now rewrite ?app_nil_r.
  - unfold slot_matches.
    destruct (isBubblePopup c); simpl; [|apply IH].
    destruct (strategy_match_valid c (normaliseRoom room) (anchor areaId) areaId
                strategy Hv) as [b ->]. simpl.
    destruct b; [|apply IH].
    destruct foundIndex as [i|]; rewrite IH; simpl.
    + now rewrite <- app_assoc.
    + reflexivity.
Qed.

Lemma matches_from_lower `{Runtime} cards index room areaId strategy :
  Forall (fun i => index <= i)%nat (matches_from cards index room areaId strategy).
Proof.
  revert index. induction cards as [|c rest IH]; intros index; simpl; [constructor|].
  assert (Forall (fun i => index <= i)%nat
            (matches_from rest (S index) room areaId strategy)).
  { eapply Forall_impl; [apply IH|]. simpl. intros; lia. }
  destruct (slot_matches room areaId strategy c); [constructor; [lia|]|]; assumption.
Qed.

Lemma matches_from_sorted `{Runtime} cards index room areaId strategy :
  StronglySorted lt (matches_from cards index room areaId strategy).
Proof.
  revert index. induction cards as [|c rest IH]; intros index; simpl; [constructor|].
  destruct (slot_matches room areaId strategy c); [|apply IH].
  constructor; [apply IH|].
  eapply Forall_impl; [apply matches_from_lower|]. simpl. intros; lia.
Qed.

(** C6. With at least two matching slots under a valid strategy,
    [findExistingStack] returns the lowest matching position as [index] and
    the other matching positions, ascending, as [duplicates]. *)
Theorem findExistingStack_first_match_wins `{Runtime} (grid : value)
    (cards : list value) (room areaId : jstring) (strategy : value) :
  get "cards" grid = Some (VArr cards) ->
  valid_strategy strategy = true ->
  (2 <= length (matching_positions cards room areaId strategy))%nat ->
  exists i dups,
    findExistingStack grid room areaId strategy = Ok (Some i, dups)
    /\ i :: dups = matching_positions cards room areaId strategy
    /\ Forall (fun d => i < d)%nat dups
    /\ StronglySorted lt dups
    /\ length dups = (length (matching_positions cards room areaId strategy) - 1)%nat.
Proof.
  intros Hc Hv Hk.
  rewrite matching_positions_from in *.
  pose proof (matches_from_sorted cards 0 room areaId strategy) as Hs.
  destruct (matches_from cards 0 room areaId strategy) as [|i dups] eqn:E;
    [simpl in Hk; lia|].
  exists i, dups.
  assert (Hf : findExistingStack grid room areaId strategy = Ok (Some i, dups)).
  { unfold findExistingStack. rewrite Hc.
    destruct grid; try discriminate.
    rewrite findExistingStack_loop_valid by assumption. now rewrite E. }
  inversion Hs; subst.
  repeat split; auto. simpl. lia.
Qed.


(** A grid with pop-up stacks named Bath, Hall and bath. *)
Definition popup_named (name : string) : value :=
  VObj [(js "type", VStr (js "vertical-stack"));
        (js "cards",
         VArr [VObj [(js "type", VStr (js "custom:bubble-card"));
                     (js "card_type", VStr (js "pop-up"));
                     (js "name", VStr (js name))]])].

Definition three_popups : list value :=
  [popup_named "Bath"; popup_named "Hall"; popup_named "bath"].

Lemma findExistingStack_first_match_wins_witness :
  exists i dups,
    @findExistingStack example_runtime (VObj [(js "cards", VArr three_popups)])
      (js "bath") (js "bath") (VStr (js "name")) = Ok (Some i, dups)
    /\ i :: dups
       = @matching_positions example_runtime three_popups (js "bath") (js "bath")
           (VStr (js "name"))
    /\ Forall (fun d => i < d)%nat dups
    /\ StronglySorted lt dups
    /\ length dups
       = (length (@matching_positions example_runtime three_popups (js "bath")
                    (js "bath") (VStr (js "name"))) - 1)%nat.
Proof.
  apply (@findExistingStack_first_match_wins example_runtime
           (VObj [(js "cards", VArr three_popups)]) three_popups);
    [reflexivity | reflexivity | vm_compute; lia].
Defined.



(** ** Flow sequences (C10) *)

Lemma dropWhile_length p s : (length (dropWhile p s) <= length s)%nat.
Proof. induction s as [|c s IH]; simpl; [lia|]. destruct (p c); simpl; lia. Qed.

Lemma trim_length s : (length (trim s) <= length s)%nat.
Proof.
  unfold trim, trimEnd, trimStart. rewrite length_rev.
  etransitivity; [apply dropWhile_length|]. rewrite length_rev.
  apply dropWhile_length.
Qed.

Lemma slice_length a b s : (length (slice a b s) <= length s)%nat.
Proof. unfold slice. rewrite length_take, length_drop. lia. Qed.

(** The scanner of [splitTopLevel] on one fragment: the state it is in at
    the end of [frag], or [None] when it meets a comma at depth 0 outside
    quotes.  [seen] holds the characters of the fragment already read, last
    first, for the count of backslashes in front of a double quote. *)
Fixpoint scan (seen frag : jstring) (depth : nat) (inSingle inDouble : bool)
    : option (nat * bool * bool) :=
  match frag with
  | [] => Some (depth, inSingle, inDouble)
  | c :: frag' =>
      if (c =? ch "'") && negb inDouble then
        scan (c :: seen) frag' depth (negb inSingle) inDouble
      else if (c =? dquote) && negb inSingle then
        scan (c :: seen) frag' depth inSingle
          (if Nat.even (length (takeWhile (fun x => x =? 92) seen))
           then negb inDouble else inDouble)
      else if inSingle || inDouble then
        scan (c :: seen) frag' depth inSingle inDouble
      else if (c =? ch "{") || (c =? ch "[") then
        scan (c :: seen) frag' (S depth) inSingle inDouble
      else if (c =? ch "}") || (c =? ch "]") then
        scan (c :: seen) frag' (Nat.max 0 (depth - 1)) inSingle inDouble
      else if (c =? ch ",") && bool_decide (depth = 0%nat) then None
      else scan (c :: seen) frag' depth inSingle inDouble
  end.

(** A fragment without a top-level comma that ends at the top level: its
    quotes are closed and the depth is back at 0. *)
Definition closed_fragment (frag : jstring) : Prop :=
  scan [] frag 0 false false = Some (0%nat, false, false).

(** A fragment without a top-level comma, wherever it ends. *)
Definition open_fragment (frag : jstring) : Prop :=
  scan [] frag 0 false false <> None.

(** [pre] does not end in a backslash. *)
Definition no_backslash_end (pre : jstring) : Prop :=
  match rev pre with
  | [] => True
  | c :: _ => (c =? 92) = false
  end.

Lemma takeWhile_app_stop (f : N -> bool) a c b :
  f c = false -> takeWhile f (a ++ c :: b) = takeWhile f a.
Proof.
  intros Hc. induction a as [|x a IH]; simpl; [now rewrite Hc|].
  destruct (f x); [now rewrite IH|reflexivity].
Qed.

Lemma backslashes_before_seen pre seen tail :
  no_backslash_end pre ->
  backslashes_before (pre ++ rev seen ++ tail) (length pre + length seen)
  = length (takeWhile (fun x => x =? 92) seen).
Proof.
  intros Hpre. unfold backslashes_before. f_equal.
  rewrite app_assoc.
  replace (length pre + length seen)%nat with (length (pre ++ rev seen))
    by (rewrite length_app, length_rev; reflexivity).
  rewrite take_app_length, rev_app_distr, rev_involutive.
  unfold no_backslash_end in Hpre.
  destruct (rev pre) as [|c r]; [now rewrite app_nil_r|].
  now apply takeWhile_app_stop.
Qed.

(** On a fragment the loop of [splitTopLevel] moves as [scan] does. *)
Lemma splitTopLevel_loop_scan pre seen frag rest start result d s q d' s' q' :
  no_backslash_end pre ->
  scan seen frag d s q = Some (d', s', q') ->
  splitTopLevel_loop (pre ++ rev seen ++ frag ++ rest) (frag ++ rest) (ch ",")
    (length pre + length seen) d start s q result
  = splitTopLevel_loop (pre ++ rev seen ++ frag ++ rest) rest (ch ",")
      (length pre + length seen + length frag) d' start s' q' result.
Proof.
  intros Hpre. revert seen d s q.
  induction frag as [|c frag IH]; intros seen d s q Hscan.
  - cbn in Hscan. injection Hscan as <- <- <-.
    cbn [app length]. now rewrite Nat.add_0_r.
  - assert (Hnext : forall d1 s1 q1,
      scan (c :: seen) frag d1 s1 q1 = Some (d', s', q') ->
      splitTopLevel_loop (pre ++ rev seen ++ (c :: frag) ++ rest) (frag ++ rest)
        (ch ",") (S (length pre + length seen)) d1 start s1 q1 result
      = splitTopLevel_loop (pre ++ rev seen ++ (c :: frag) ++ rest) rest (ch ",")
          (length pre + length seen + length (c :: frag)) d' start s' q' result).
    { intros d1 s1 q1 H1. specialize (IH (c :: seen) d1 s1 q1 H1).
      cbn [rev length] in IH. rewrite <- !app_assoc in IH. cbn [app] in IH.
      replace (length pre + S (length seen))%nat
        with (S (length pre + length seen)) in IH by lia.
      cbn [length app].
      now replace (length pre + length seen + S (length frag))%nat
        with (S (length pre + length seen) + length frag)%nat by lia. }
    cbn [scan] in Hscan. cbn [app splitTopLevel_loop].
    change (pre ++ rev seen ++ c :: frag ++ rest)
      with (pre ++ rev seen ++ (c :: frag) ++ rest).
    rewrite backslashes_before_seen by assumption.
    repeat match goal with
           | H : (if ?b then _ else _) = Some _ |- _ =>
               destruct b; [now apply Hnext|]
           end.
    destruct ((c =? ch ",") && bool_decide (d = 0%nat)); [discriminate|].
    now apply Hnext.
Qed.

Lemma splitTopLevel_loop_comma text rest i start result :
  splitTopLevel_loop text (ch "," :: rest) (ch ",") i 0 start false false result
  = splitTopLevel_loop text rest (ch ",") (S i) 0 (S i) false false
      (result ++ [trim (slice start i text)]).
Proof. reflexivity. Qed.

Lemma no_backslash_end_comma pre : no_backslash_end (pre ++ [ch ","]).
Proof. unfold no_backslash_end. now rewrite rev_app_distr. Qed.

Lemma splitTopLevel_loop_fragments parts last pre result :
  no_backslash_end pre ->
  Forall closed_fragment parts -> open_fragment last ->
  splitTopLevel_loop
    (pre ++ flat_map (fun p => p ++ [ch ","]) parts ++ last)
    (flat_map (fun p => p ++ [ch ","]) parts ++ last)
    (ch ",") (length pre) 0 (length pre) false false result
  = result ++ map trim parts
    ++ (if jstr_eqb (trim last) [] then [] else [trim last]).
Proof.
  intros Hpre Hparts Hlast. revert pre Hpre result.
  induction Hparts as [|p parts Hp _ IH]; intros pre Hpre result.
  - cbn [flat_map map app].
    destruct (scan [] last 0 false false) as [[[d s] q]|] eqn:Hscan;
      [|now contradiction Hlast].
    pose proof (splitTopLevel_loop_scan pre [] last [] (length pre) result
                  0 false false d s q Hpre Hscan) as E.
    cbn [rev app length] in E. rewrite !app_nil_r, Nat.add_0_r in E.
    rewrite E. cbn [splitTopLevel_loop].
    rewrite drop_app_length.
    destruct (jstr_eqb (trim last) []); [now rewrite app_nil_r | reflexivity].
  - cbn [flat_map map].
    rewrite <- !app_assoc.
    pose proof (splitTopLevel_loop_scan pre [] p
                  ([ch ","] ++ flat_map (fun p => p ++ [ch ","]) parts ++ last)
                  (length pre) result 0 false false 0 false false Hpre Hp) as E.
    cbn [rev app length] in E. rewrite Nat.add_0_r in E.
    cbn [app]. rewrite E, splitTopLevel_loop_comma.
    assert (Hs : slice (length pre) (length pre + length p)
                   (pre ++ p ++ ch "," :: flat_map (fun p => p ++ [ch ","]) parts ++ last)
                 = p).
    { unfold slice. rewrite drop_app_length.
      replace (length pre + length p - length pre)%nat with (length p) by lia.
      apply take_app_length. }
    rewrite Hs.
    specialize (IH (pre ++ p ++ [ch ","])).
    rewrite app_assoc in IH.
    specialize (IH (no_backslash_end_comma _) (result ++ [trim p])).
    rewrite <- app_assoc in IH.
    rewrite !length_app in IH. cbn [length] in IH.
    replace (S (length pre + length p)) with (length pre + length p + 1)%nat by lia.
    rewrite <- !app_assoc in IH. cbn [app] in IH.
    exact IH.
Qed.

(** Up to its first top-level comma a text is a closed fragment. *)
Lemma scan_first_comma seen frag d s q :
  scan seen frag d s q = None ->
  exists p rest,
    frag = p ++ ch "," :: rest /\ scan seen p d s q = Some (0%nat, false, false).
Proof.
  revert seen d s q. induction frag as [|c frag IH]; intros seen d s q;
    [discriminate|].
  cbn [scan].
  assert (Hnext : forall d1 s1 q1,
    scan (c :: seen) frag d1 s1 q1 = None ->
    (forall p, scan seen (c :: p) d s q = scan (c :: seen) p d1 s1 q1) ->
    exists p rest,
      c :: frag = p ++ ch "," :: rest
      /\ scan seen p d s q = Some (0%nat, false, false)).
  { intros d1 s1 q1 H1 Hstep.
    destruct (IH _ _ _ _ H1) as (p & rest & -> & Hp).
    exists (c :: p), rest. split; [reflexivity|]. now rewrite Hstep. }
  destruct ((c =? ch "'") && negb q) eqn:E1.
  { intros H. apply (Hnext _ _ _ H). intros p. cbn [scan]. now rewrite E1. }
  destruct ((c =? dquote) && negb s) eqn:E2.
  { intros H. apply (Hnext _ _ _ H). intros p. cbn [scan]. now rewrite E1, E2. }
  destruct (s || q) eqn:E3.
  { intros H. apply (Hnext _ _ _ H). intros p. cbn [scan]. now rewrite E1, E2, E3. }
  destruct ((c =? ch "{") || (c =? ch "[")) eqn:E4.
  { intros H. apply (Hnext _ _ _ H). intros p. cbn [scan].
    now rewrite E1, E2, E3, E4. }
  destruct ((c =? ch "}") || (c =? ch "]")) eqn:E5.
  { intros H. apply (Hnext _ _ _ H). intros p. cbn [scan].
    now rewrite E1, E2, E3, E4, E5. }
  destruct ((c =? ch ",") && bool_decide (d = 0%nat)) eqn:E6.
  { intros _. apply andb_prop in E6 as [Ec Ed].
    apply N.eqb_eq in Ec. apply bool_decide_eq_true in Ed. subst c d.
    apply orb_false_elim in E3 as [-> ->].
    exists [], frag. split; reflexivity. }
  intros H. apply (Hnext _ _ _ H). intros p. cbn [scan].
  now rewrite E1, E2, E3, E4, E5, E6.
Qed.

(** Every text is a run of closed fragments, each followed by a comma, and
    a last fragment without a top-level comma. *)
Lemma fragments_exist body :
  exists parts last,
    body = flat_map (fun p => p ++ [ch ","]) parts ++ last
    /\ Forall closed_fragment parts /\ open_fragment last.
Proof.
  remember (length body) as n eqn:Hn. revert body Hn.
  induction n as [n IH] using lt_wf_ind. intros body Hn.
  destruct (scan [] body 0 false false) as [st|] eqn:Hscan.
  - exists [], body. split; [reflexivity|]. split; [constructor|].
    unfold open_fragment. now rewrite Hscan.
  - destruct (scan_first_comma _ _ _ _ _ Hscan) as (p & rest & -> & Hp).
    destruct (IH (length rest)) with (body := rest)
      as (parts & last & -> & Hparts & Hlast).
    { subst n. rewrite length_app. simpl. lia. }
    { reflexivity. }
    exists (p :: parts), last. split.
    + cbn [flat_map]. now rewrite <- !app_assoc.
    + split; [now constructor|assumption].
Qed.

(** C10.  Every body of a flow sequence is a run of fragments that end at a
    top-level comma, followed by a last fragment.  The fragments that end at
    a comma are all kept, empty or not, and the last fragment is kept unless
    it is empty; an empty fragment parses as [null].  So [1,,2] gives
    [[1, null, 2]] and [1,2,] gives [[1, 2]]. *)
Theorem parseInlineArray_fragments :
  (forall body, exists parts last,
      body = flat_map (fun p => p ++ [ch ","]) parts ++ last
      /\ Forall closed_fragment parts /\ open_fragment last)
  /\ (forall parts last,
        Forall closed_fragment parts -> open_fragment last ->
        let body := flat_map (fun p => p ++ [ch ","]) parts ++ last in
        splitTopLevel body (ch ",")
        = map trim parts ++ (if jstr_eqb (trim last) [] then [] else [trim last])
        /\ (isWhitespaceOnly body = false ->
            parseInlineArray body
            = (items <- mapM parseScalar
                          (map trim parts
                           ++ (if jstr_eqb (trim last) [] then []
                               else [trim last])) ;;
               Ok (VArr items))))
  /\ parseScalar [] = Ok VNull
  /\ parseInlineArray (js "1,,2")
     = Ok (VArr [VNum (number_of_Z false 1); VNull; VNum (number_of_Z false 2)])
  /\ parseInlineArray (js "1,2,")
     = Ok (VArr [VNum (number_of_Z false 1); VNum (number_of_Z false 2)]).
Proof.
  split; [exact fragments_exist|]. split; [|repeat split].
  intros parts last Hparts Hlast body.
  assert (E : splitTopLevel body (ch ",")
              = map trim parts ++ (if jstr_eqb (trim last) [] then [] else [trim last])).
  { unfold splitTopLevel.
    exact (splitTopLevel_loop_fragments parts last [] [] I Hparts Hlast). }
  split; [exact E|]. intros Hws.
  unfold parseInlineArray, parseInlineArray_with. now rewrite Hws, E.
Qed.

(** A body with quoted and bracketed fragments: the commas inside them do
    not split. *)
Lemma parseInlineArray_fragments_witness :
  splitTopLevel (js "[a, b], , 'x,y',") (ch ",") = [js "[a, b]"; []; js "'x,y'"]
  /\ parseInlineArray (js "[a, b], , 'x,y',")
     = Ok (VArr [VArr [VStr (js "a"); VStr (js "b")]; VNull; VStr (js "x,y")]).
Proof.
  destruct parseInlineArray_fragments as (_ & H & _).
  destruct (H [js "[a, b]"; js " "; js " 'x,y'"] [])
    as [Hsplit Hparse]; [repeat constructor|discriminate|].
  split; [exact Hsplit|]. exact (Hparse eq_refl).
Defined.

(** ** The fuel of [parseScalar] is enough *)

Lemma splitTopLevel_loop_lengths text rest sep i depth start inS inD result :
  Forall (fun p => (length p <= length text)%nat) result ->
  Forall (fun p => (length p <= length text)%nat)
    (splitTopLevel_loop text rest sep i depth start inS inD result).
Proof.
  revert i depth start inS inD result.
  induction rest as [|c rest IH]; intros i depth start inS inD result HF.
  - cbn [splitTopLevel_loop].
    destruct (jstr_eqb (trim (drop start text)) []); [assumption|].
    apply Forall_app. split; [assumption|]. repeat constructor.
    etransitivity; [apply trim_length|]. rewrite length_drop. lia.
  - cbn [splitTopLevel_loop].
    repeat match goal with
           | |- context [if ?b then _ else _] => destruct b
           end; try (apply IH; assumption).
    apply IH. apply Forall_app. split; [assumption|]. repeat constructor.
    etransitivity; [apply trim_length|]. apply slice_length.
Qed.

Lemma splitTopLevel_lengths text sep :
  Forall (fun p => (length p <= length text)%nat) (splitTopLevel text sep).
Proof. apply splitTopLevel_loop_lengths. constructor. Qed.

Lemma mapM_ext_Forall {A B} (P : A -> Prop) (f g : A -> result B) xs :
  (forall x, P x -> f x = g x) -> Forall P xs -> mapM f xs = mapM g xs.
Proof.
  intros Hfg. induction 1 as [|x xs Hx _ IH]; [reflexivity|].
  cbn [mapM]. now rewrite Hfg, IH.
Qed.

Lemma parseInlineObject_parts_ext (P : jstring -> Prop) f g parts obj :
  (forall x, P x -> f x = g x) ->
  Forall (fun part => forall i, P (trim (drop i part))) parts ->
  parseInlineObject_parts f parts obj = parseInlineObject_parts g parts obj.
Proof.
  intros Hfg HF. revert obj.
  induction HF as [|part parts Hp _ IH]; intros obj; [reflexivity|].
  cbn [parseInlineObject_parts].
  destruct (indexOf (ch ":") part) as [colonIdx|]; [|reflexivity].
  rewrite (Hfg _ (Hp (S colonIdx))).
  destruct (g (trim (drop (S colonIdx) part))); cbn [bind];
    [apply IH|reflexivity].
Qed.

Lemma slice_1_m1_length s : s <> [] -> (length (slice_1_m1 s) < length s)%nat.
Proof.
  intros Hne. unfold slice_1_m1, slice. rewrite length_take, length_drop.
  destruct s; [congruence|simpl; lia].
Qed.

Lemma startsWith_nonempty s c : startsWith s [c] = true -> s <> [].
Proof. now destruct s. Qed.

(** Any fuel from the length of the text on gives the same result. *)
Lemma parseScalar_fuel_irrelevant fuel1 fuel2 s :
  (length s <= fuel1)%nat -> (length s <= fuel2)%nat ->
  parseScalar_fuel fuel1 s = parseScalar_fuel fuel2 s.
Proof.
  revert fuel2 s. induction fuel1 as [|f1 IH]; intros fuel2 s H1 H2.
  - destruct s; [|simpl in H1; lia]. now destruct fuel2.
  - destruct fuel2 as [|f2].
    { destruct s; [reflexivity|simpl in H2; lia]. }
    cbn [parseScalar_fuel].
    pose proof (trim_length s) as Htrim.
    repeat match goal with
           | |- (if ?b then _ else _) = (if ?b then _ else _) =>
               destruct b eqn:?; [reflexivity|]
           end.
    assert (Hinner : forall inner p : jstring,
              (length inner < length (trim s))%nat ->
              (length p <= length inner)%nat ->
              parseScalar_fuel f1 p = parseScalar_fuel f2 p).
    { intros inner p Hi Hp. apply IH; lia. }
    destruct (startsWith (trim s) [ch "["] && endsWith (trim s) [ch "]"]) eqn:Ha.
    { apply andb_prop in Ha as [Ha _]. apply startsWith_nonempty in Ha.
      pose proof (slice_1_m1_length _ Ha) as Hlen.
      unfold parseInlineArray_with.
      destruct (isWhitespaceOnly (slice_1_m1 (trim s))); [reflexivity|].
      rewrite (mapM_ext_Forall _ _ (parseScalar_fuel f2) _
                 (fun p Hp => Hinner _ p Hlen Hp) (splitTopLevel_lengths _ _)).
      reflexivity. }
    destruct (startsWith (trim s) [ch "{"] && endsWith (trim s) [ch "}"]) eqn:Ho;
      [|reflexivity].
    apply andb_prop in Ho as [Ho _]. apply startsWith_nonempty in Ho.
    pose proof (slice_1_m1_length _ Ho) as Hlen.
    unfold parseInlineObject_with.
    destruct (isWhitespaceOnly (slice_1_m1 (trim s))); [reflexivity|].
    rewrite (parseInlineObject_parts_ext
               (fun p => (length p <= length (slice_1_m1 (trim s)))%nat)
               (parseScalar_fuel f1) (parseScalar_fuel f2)).
    + reflexivity.
    + intros p Hp. now apply (Hinner _ p Hlen).
    + eapply Forall_impl; [apply splitTopLevel_lengths|].
      intros part Hpart i. cbn beta in Hpart.
      etransitivity; [apply trim_length|]. rewrite length_drop. lia.
Qed.

Ltac same_error H :=
  let E := fresh "E" in intros E; apply H; inversion E; reflexivity.

Lemma mapM_not_error {A B} (e : error) (f : A -> result B) xs :
  Forall (fun x => f x <> Err e) xs -> mapM f xs <> Err e.
Proof.
  induction 1 as [|x xs Hx _ IH]; [discriminate|].
  cbn [mapM]. destruct (f x); cbn [bind]; [|same_error Hx].
  destruct (mapM f xs); cbn [bind]; [discriminate|same_error IH].
Qed.

(** [parseScalar] returns or throws one of the program's errors: it does not
    run out of fuel. *)
Lemma parseScalar_fuel_total fuel s :
  (length s <= fuel)%nat -> parseScalar_fuel fuel s <> Err OutOfFuel.
Proof.
  revert s. induction fuel as [|f IH]; intros s Hlen.
  - destruct s; [discriminate|simpl in Hlen; lia].
  - cbn [parseScalar_fuel].
    pose proof (trim_length s) as Htrim.
    repeat match goal with
           | |- (if ?b then _ else _) <> _ =>
               destruct b eqn:?; [discriminate|]
           end.
    destruct (startsWith (trim s) [ch "["] && endsWith (trim s) [ch "]"]) eqn:Ha.
    { apply andb_prop in Ha as [Ha _]. apply startsWith_nonempty in Ha.
      pose proof (slice_1_m1_length _ Ha) as Hl.
      unfold parseInlineArray_with.
      destruct (isWhitespaceOnly (slice_1_m1 (trim s))); [discriminate|].
      pose proof (mapM_not_error OutOfFuel (parseScalar_fuel f)
                    (splitTopLevel (slice_1_m1 (trim s)) (ch ","))) as Hm.
      assert (Hm' : mapM (parseScalar_fuel f)
                      (splitTopLevel (slice_1_m1 (trim s)) (ch ","))
                    <> Err OutOfFuel).
      { apply Hm. eapply Forall_impl; [apply splitTopLevel_lengths|].
        intros p Hp. apply IH. cbn beta in Hp. lia. }
      destruct (mapM (parseScalar_fuel f) _); cbn [bind];
        [discriminate|same_error Hm'].
    }
    destruct (startsWith (trim s) [ch "{"] && endsWith (trim s) [ch "}"]) eqn:Ho;
      [|discriminate].
    apply andb_prop in Ho as [Ho _]. apply startsWith_nonempty in Ho.
    pose proof (slice_1_m1_length _ Ho) as Hl.
    unfold parseInlineObject_with.
    destruct (isWhitespaceOnly (slice_1_m1 (trim s))); [discriminate|].
    assert (Hparts : forall parts obj,
      Forall (fun p => (length p <= length (slice_1_m1 (trim s)))%nat) parts ->
      parseInlineObject_parts (parseScalar_fuel f) parts obj <> Err OutOfFuel).
    { intros parts obj HF. revert obj.
      induction HF as [|part parts Hp _ IHp]; intros obj; [discriminate|].
      cbn [parseInlineObject_parts].
      destruct (indexOf (ch ":") part) as [colonIdx|]; [|discriminate].
      assert (Hv : parseScalar_fuel f (trim (drop (S colonIdx) part))
                   <> Err OutOfFuel).
      { apply IH. pose proof (trim_length (drop (S colonIdx) part)).
        rewrite length_drop in *. lia. }
      destruct (parseScalar_fuel f (trim (drop (S colonIdx) part)));
        cbn [bind]; [apply IHp|same_error Hv]. }
    specialize (Hparts _ [] (splitTopLevel_lengths (slice_1_m1 (trim s)) (ch ","))).
    destruct (parseInlineObject_parts _ _ _); cbn [bind];
      [discriminate|same_error Hparts].
Qed.

Lemma parseScalar_total s : parseScalar s <> Err OutOfFuel.
Proof. now apply parseScalar_fuel_total. Qed.

(** ** Objects *)

Lemma jstr_eqb_true a b : jstr_eqb a b = true <-> a = b.
Proof. unfold jstr_eqb. apply bool_decide_eq_true. Qed.

Lemma jstr_eqb_false a b : jstr_eqb a b = false <-> a <> b.
Proof. unfold jstr_eqb. apply bool_decide_eq_false. Qed.

Lemma jstr_eqb_refl a : jstr_eqb a a = true.
Proof. now apply jstr_eqb_true. Qed.

Lemma obj_get_In {V} k (v : V) o : obj_get k o = Some v -> In (k, v) o.
Proof.
  induction o as [|[k' v'] o IH]; simpl; [discriminate|].
  destruct (jstr_eqb k' k) eqn:E.
  - apply jstr_eqb_true in E. intros [= ->]. left. now subst.
  - intros Hg. right. now apply IH.
Qed.




Lemma obj_get_replace_same {V} k (v : V) o :
  obj_has k o = true -> obj_get k (obj_replace k v o) = Some v.
Proof.
  unfold obj_has. induction o as [|[k0 v0] o IH]; simpl; [discriminate|].
  destruct (jstr_eqb k0 k) eqn:E; simpl; rewrite E; auto.
Qed.

Lemma obj_get_replace_other {V} k (v : V) o k' :
  k' <> k -> obj_get k' (obj_replace k v o) = obj_get k' o.
Proof.
  intros Hne. induction o as [|[k0 v0] o IH]; simpl; [reflexivity|].
  destruct (jstr_eqb k0 k) eqn:E; simpl.
  - apply jstr_eqb_true in E. subst k0.
    now replace (jstr_eqb k k') with false
      by (symmetry; apply jstr_eqb_false; congruence).
  - now rewrite IH.
Qed.

Lemma obj_get_insert_index_same {V} n k (v : V) o :
  obj_get k o = None -> obj_get k (obj_insert_index n k v o) = Some v.
Proof.
  induction o as [|[k0 v0] o IH]; simpl.
  - now rewrite jstr_eqb_refl.
  - destruct (jstr_eqb k0 k) eqn:E; [discriminate|]. intros Hn.
    destruct (array_index k0) as [n'|]; [destruct (n' <? n)|]; simpl;
      rewrite ?E, ?jstr_eqb_refl; auto.
Qed.

Lemma obj_get_insert_index_other {V} n k (v : V) o k' :
  k' <> k -> obj_get k' (obj_insert_index n k v o) = obj_get k' o.
Proof.
  intros Hne.
  assert (Hk : jstr_eqb k k' = false) by (apply jstr_eqb_false; congruence).
  induction o as [|[k0 v0] o IH]; simpl.
  - now rewrite Hk.
  - destruct (array_index k0) as [n'|]; [destruct (n' <? n)|]; simpl;
      rewrite ?Hk, ?IH; reflexivity.
Qed.

Lemma obj_get_app {V} k (o o' : list (jstring * V)) :
  obj_get k (o ++ o') = match obj_get k o with
                        | Some v => Some v
                        | None => obj_get k o'
                        end.
Proof.
  induction o as [|[k0 v0] o IH]; simpl; [reflexivity|].
  now destruct (jstr_eqb k0 k).
Qed.

Lemma obj_get_set_same {V} k (v : V) o :
  k <> js "__proto__" -> obj_get k (obj_set k v o) = Some v.
Proof.
  intros Hp. unfold obj_set.
  replace (jstr_eqb k (js "__proto__")) with false
    by (symmetry; now apply jstr_eqb_false).
  destruct (obj_has k o) eqn:Hh; [now apply obj_get_replace_same|].
  unfold obj_has in Hh. destruct (obj_get k o) eqn:Hg; [discriminate|].
  destruct (array_index k); [now apply obj_get_insert_index_same|].
  rewrite obj_get_app, Hg. simpl. now rewrite jstr_eqb_refl.
Qed.

Lemma obj_get_set_other {V} k (v : V) o k' :
  k' <> k -> obj_get k' (obj_set k v o) = obj_get k' o.
Proof.
  intros Hne. unfold obj_set.
  destruct (jstr_eqb k (js "__proto__")); [reflexivity|].
  destruct (obj_has k o); [now apply obj_get_replace_other|].
  destruct (array_index k); [now apply obj_get_insert_index_other|].
  rewrite obj_get_app. destruct (obj_get k' o); [reflexivity|]. simpl.
  now replace (jstr_eqb k k') with false
    by (symmetry; apply jstr_eqb_false; congruence).
Qed.

(** ** The heuristic pass (C4) *)

(** [field_of v k x]: some mapping inside [v] ([v] included) has a field
    named [k] whose value is [x]. *)
Inductive field_of : value -> jstring -> value -> Prop :=
| field_here props k x :
    In (k, x) props -> field_of (VObj props) k x
| field_in_obj props k' c k x :
    In (k', c) props -> field_of c k x -> field_of (VObj props) k x
| field_in_arr items c k x :
    In c items -> field_of c k x -> field_of (VArr items) k x.


Lemma each_entry_keys {St} rec (l l' : list (jstring * value)) (st st' : St) :
  each_entry rec l st = Ok (l', st') ->
  Forall2 (fun kv kv' =>
             fst kv' = fst kv
             /\ exists st1 st2,
                 rec (snd kv) (Some (PRecord, KName (fst kv))) st1
                 = Ok (snd kv', st2)) l l'.
Proof.
  revert l' st st'. induction l as [|kv l IH]; intros l' st st'; simpl.
  - intros [= <- <-]. constructor.
  - destruct (rec (snd kv) _ st) as [[v1 s1]|] eqn:E1; [|discriminate]. simpl.
    destruct (each_entry rec l s1) as [[l1 s2]|] eqn:E2; [|discriminate]. simpl.
    intros [= <- <-]. constructor; [|eauto].
    split; [reflexivity|]. eauto.
Qed.



Lemma obj_get_Forall2 (R : jstring -> value -> value -> Prop) k
    (l l' : list (jstring * value)) :
  Forall2 (fun kv kv' => fst kv' = fst kv /\ R (fst kv) (snd kv) (snd kv')) l l' ->
  match obj_get k l, obj_get k l' with
  | Some v, Some v' => R k v v'
  | None, None => True
  | _, _ => False
  end.
Proof.
  induction 1 as [|[k0 v0] [k1 v1] l l' [Hk Hr] _ IH]; simpl; [trivial|].
  simpl in Hk, Hr. subst k1.
  destruct (jstr_eqb k0 k) eqn:E; [|exact IH].
  apply jstr_eqb_true in E. now subst.
Qed.


(** *** The traversal returns *)

Definition max_depth (props : list (jstring * value)) : nat :=
  fold_right (fun kv d => Nat.max (depth (snd kv)) d) 0%nat props.

Lemma depth_In_arr c items : In c items -> (depth c < depth (VArr items))%nat.
Proof.
  cbn [depth]. induction items as [|a items IH]; simpl; [tauto|].
  intros [->|Hi]; [lia|]. specialize (IH Hi). lia.
Qed.

Lemma depth_In_obj k c props : In (k, c) props -> (depth c < depth (VObj props))%nat.
Proof.
  cbn [depth]. induction props as [|a props IH]; simpl; [tauto|].
  intros [->|Hi]; [simpl; lia|]. specialize (IH Hi). lia.
Qed.

Lemma max_depth_replace k x o :
  depth x = 0%nat -> (max_depth (obj_replace k x o) <= max_depth o)%nat.
Proof.
  intros Hx. induction o as [|[k0 v0] o IH]; simpl; [lia|].
  destruct (jstr_eqb k0 k); simpl; lia.
Qed.

Lemma max_depth_insert_index n k x o :
  depth x = 0%nat -> (max_depth (obj_insert_index n k x o) <= max_depth o)%nat.
Proof.
  intros Hx. induction o as [|[k0 v0] o IH]; simpl; [lia|].
  destruct (array_index k0) as [n'|]; [destruct (n' <? n)|]; simpl; lia.
Qed.

Lemma max_depth_app o o' :
  max_depth (o ++ o') = Nat.max (max_depth o) (max_depth o').
Proof. induction o as [|kv o IH]; simpl; [reflexivity|]. rewrite IH. lia. Qed.

Lemma max_depth_set k x o :
  depth x = 0%nat -> (max_depth (obj_set k x o) <= max_depth o)%nat.
Proof.
  intros Hx. unfold obj_set.
  destruct (jstr_eqb k (js "__proto__")); [lia|].
  destruct (obj_has k o); [now apply max_depth_replace|].
  destruct (array_index k); [now apply max_depth_insert_index|].
  rewrite max_depth_app. simpl. lia.
Qed.

(** A visitor that does not deepen the node it visits. *)
Definition shallow {St} (visit : visitor St) : Prop :=
  forall v ctx st, (depth (snd (fst (visit v ctx st))) <= depth v)%nat.

Lemma heuristic_visitor_shallow areaId : shallow (heuristic_visitor areaId).
Proof.
  intros v ctx st. unfold heuristic_visitor.
  destruct ctx as [[[] []]|]; simpl; try lia.
  destruct (jstr_eqb k (js "target") && isRecord v); [|lia].
  destruct v; simpl; try lia.
  apply le_n_S. now apply max_depth_set.
Qed.

Lemma placeholder_visitor_shallow room areaId icon :
  shallow (placeholder_visitor room areaId icon).
Proof.
  intros v ctx st. unfold placeholder_visitor.
  destruct v; simpl; try lia.
  destruct (replacements room areaId s); [destruct ctx; simpl; lia|].
  destruct icon; [|simpl; lia]. destruct ctx; [|simpl; lia].
  destruct (jstr_eqb s (js "__ICON__") && truthy (Some l)); simpl; lia.
Qed.

Lemma each_item_total {St} (rec : value -> option (pkind * key) -> St -> result (value * St)) l :
  (forall c, In c l -> forall ctx st, exists r, rec c ctx st = Ok r) ->
  forall i st, exists r, each_item rec l i st = Ok r.
Proof.
  induction l as [|c l IH]; intros Hrec i st; simpl; [eauto|].
  destruct (Hrec c (or_introl eq_refl) (Some (PArray, KIndex i)) st) as [a ->].
  simpl. destruct (IH (fun c' Hc => Hrec c' (or_intror Hc)) (S i) (snd a)) as [b ->].
  simpl. eauto.
Qed.

Lemma each_entry_total {St} (rec : value -> option (pkind * key) -> St -> result (value * St)) l :
  (forall k c, In (k, c) l -> forall ctx st, exists r, rec c ctx st = Ok r) ->
  forall st, exists r, each_entry rec l st = Ok r.
Proof.
  induction l as [|[k c] l IH]; intros Hrec st; simpl; [eauto|].
  destruct (Hrec k c (or_introl eq_refl) (Some (PRecord, KName k)) st) as [a ->].
  simpl. destruct (IH (fun k' c' Hc => Hrec k' c' (or_intror Hc)) (snd a)) as [b ->].
  simpl. eauto.
Qed.

(** With more fuel than the node is deep the traversal returns. *)
Lemma traverse_total {St} (visit : visitor St) :
  shallow visit ->
  forall fuel node ctx st, (depth node < fuel)%nat ->
  exists r, traverse fuel visit node ctx st = Ok r.
Proof.
  intros Hs. induction fuel as [|f IH]; intros node ctx st Hd; [lia|].
  cbn [traverse]. specialize (Hs node ctx st).
  destruct (visit node ctx st) as [[assigned node1] st1]. simpl in Hs.
  destruct node1 as [| | | |items|props]; simpl; eauto.
  - destruct (each_item_total (traverse f visit) items) with (i := 0%nat) (st := st1)
      as [r ->]; [|simpl; eauto].
    intros c Hc ctx' st'. apply IH. apply depth_In_arr in Hc. lia.
  - destruct (each_entry_total (traverse f visit) props) with (st := st1)
      as [r ->]; [|simpl; eauto].
    intros k c Hc ctx' st'. apply IH. apply depth_In_obj in Hc. lia.
Qed.






Lemma get_set_if_present_other k v node k' :
  js k' <> js k -> get k' (set_if_present k v node) = get k' node.
Proof.
  intros Hne. unfold set_if_present. destruct (get k node); [|reflexivity].
  destruct node; try reflexivity. cbn [set_field get].
  now apply obj_get_set_other.
Qed.

Lemma isRecord_set_if_present k v node :
  isRecord (set_if_present k v node) = isRecord node.
Proof.
  unfold set_if_present. destruct (get k node); [|reflexivity].
  now destruct node.
Qed.









(** A template whose first card carries neither [name] nor [hash]. *)
Definition bare_template : value :=
  VObj [(js "type", VStr (js "vertical-stack"));
        (js "cards",
         VArr [VObj [(js "type", VStr (js "custom:bubble-card"));
                     (js "card_type", VStr (js "pop-up"))]])].


(** ** Induction on values *)

Lemma value_induction (P : value -> Prop) :
  P VNull -> (forall b, P (VBool b)) -> (forall n, P (VNum n)) ->
  (forall s, P (VStr s)) ->
  (forall items, Forall P items -> P (VArr items)) ->
  (forall props, Forall (fun kv => P (snd kv)) props -> P (VObj props)) ->
  forall v, P v.
Proof.
  intros Hnull Hbool Hnum Hstr Harr Hobj.
  fix IH 1. intros [| b | n | s | items | props].
  - exact Hnull.
  - apply Hbool.
  - apply Hnum.
  - apply Hstr.
  - apply Harr. induction items as [|c items IHi]; constructor.
    + apply IH.
    + exact IHi.
  - apply Hobj. induction props as [|kv props IHp]; constructor.
    + apply IH.
    + exact IHp.
Qed.

(** ** Clones match like their originals *)

Lemma obj_get_map_values (f : value -> value) k props :
  obj_get k (map (fun kv => (fst kv, f (snd kv))) props)
  = option_map f (obj_get k props).
Proof.
  induction props as [|[k0 v0] props IH]; simpl; [reflexivity|].
  now destruct (jstr_eqb k0 k).
Qed.

Lemma get_json_roundtrip k v :
  get k (json_roundtrip v) = option_map json_roundtrip (get k v).
Proof.
  destruct v as [| |n| | |props]; try reflexivity.
  - now destruct n.
  - apply obj_get_map_values.
Qed.

Lemma str_is_json_roundtrip s v : str_is s (json_roundtrip v) = str_is s v.
Proof. destruct v as [| |n| | |]; try reflexivity. now destruct n. Qed.

Lemma is_str_json_roundtrip s o :
  is_str s (option_map json_roundtrip o) = is_str s o.
Proof. destruct o; [apply str_is_json_roundtrip|reflexivity]. Qed.

Lemma isRecord_json_roundtrip v : isRecord (json_roundtrip v) = isRecord v.
Proof. destruct v as [| |n| | |]; try reflexivity. now destruct n. Qed.

Lemma isBubblePopup_json_roundtrip v :
  isBubblePopup (json_roundtrip v) = isBubblePopup v.
Proof.
  unfold isBubblePopup.
  rewrite isRecord_json_roundtrip, !get_json_roundtrip, is_str_json_roundtrip.
  destruct (negb (isRecord v)); [reflexivity|].
  destruct (negb (is_str "vertical-stack" (get "type" v))); [reflexivity|].
  destruct (get "cards" v) as [c|]; [|reflexivity].
  destruct c as [| |n| |items|]; try reflexivity; [now destruct n|].
  destruct items as [|first rest]; [reflexivity|]. cbn [option_map json_roundtrip map].
  now rewrite isRecord_json_roundtrip, !get_json_roundtrip, !is_str_json_roundtrip.
Qed.

Lemma extractAreaFromNode_json_roundtrip v :
  extractAreaFromNode (json_roundtrip v) = extractAreaFromNode v.
Proof.
  induction v as [| | n | | items IH | props IH] using value_induction;
    try reflexivity.
  - now destruct n.
  - cbn [json_roundtrip extractAreaFromNode].
    induction IH as [|c items Hc _ IHi]; [reflexivity|].
    cbn [map]. rewrite Hc. destruct (extractAreaFromNode c) as [[|]|]; auto.
  - cbn [json_roundtrip extractAreaFromNode].
    rewrite !obj_get_map_values.
    assert (Hloop :
      (fix values (l : list (jstring * value)) : option jstring :=
         match l with
         | [] => None
         | kv :: l' =>
             match extractAreaFromNode (snd kv) with
             | Some ((_ :: _) as extracted) => Some extracted
             | _ => values l'
             end
         end) (map (fun kv => (fst kv, json_roundtrip (snd kv))) props)
      = (fix values (l : list (jstring * value)) : option jstring :=
         match l with
         | [] => None
         | kv :: l' =>
             match extractAreaFromNode (snd kv) with
             | Some ((_ :: _) as extracted) => Some extracted
             | _ => values l'
             end
         end) props).
    { induction IH as [|kv props Hkv _ IHp]; [reflexivity|].
      cbn [map snd]. rewrite Hkv.
      destruct (extractAreaFromNode (snd kv)) as [[|]|]; auto. }
    rewrite Hloop. clear Hloop IH.
    repeat match goal with
           | |- context [option_map json_roundtrip ?o] =>
               destruct o as [?|]; cbn [option_map]
           | |- context [json_roundtrip ?v] =>
               is_var v; destruct v as [| |[]| | |]; cbn [json_roundtrip]
           | |- context [obj_get _ (map _ _)] => rewrite obj_get_map_values
           end; reflexivity.
Qed.

Lemma strategy_match_json_roundtrip `{Runtime} stack dn dh areaId strategy :
  strategy_match (json_roundtrip stack) dn dh areaId strategy
  = strategy_match stack dn dh areaId strategy.
Proof.
  unfold strategy_match.
  rewrite extractAreaFromNode_json_roundtrip, get_json_roundtrip.
  assert (Hh : forall k,
    get k match option_map json_roundtrip (get "cards" stack) with
          | Some (VArr (h :: _)) => h
          | _ => VNull
          end
    = option_map json_roundtrip
        (get k match get "cards" stack with
               | Some (VArr (h :: _)) => h
               | _ => VNull
               end)).
  { intros k. destruct (get "cards" stack) as [[| |[]| |[|h t]|]|];
      try reflexivity. cbn [option_map json_roundtrip map].
    apply get_json_roundtrip. }
  rewrite !Hh.
  destruct (str_is "name" strategy).
  { destruct (get "name" _) as [[| |[]| | |]|]; reflexivity. }
  destruct (str_is "hash" strategy).
  { destruct (get "hash" _) as [[| |[]| | |]|]; reflexivity. }
  reflexivity.
Qed.

Lemma slot_matches_deepClone `{Runtime} room areaId strategy stack :
  slot_matches room areaId strategy (deepClone stack)
  = slot_matches room areaId strategy stack.
Proof.
  unfold slot_matches, deepClone. destruct has_structuredClone; [reflexivity|].
  now rewrite isBubblePopup_json_roundtrip, strategy_match_json_roundtrip.
Qed.

Lemma matches_from_ext `{Runtime} cards cards' index room areaId strategy :
  Forall2 (fun c c' => slot_matches room areaId strategy c'
                       = slot_matches room areaId strategy c) cards cards' ->
  matches_from cards' index room areaId strategy
  = matches_from cards index room areaId strategy.
Proof.
  intros HF. revert index. induction HF as [|c c' l l' Hc _ IH]; intros index.
  - reflexivity.
  - cbn [matches_from]. now rewrite Hc, !IH.
Qed.

(** The cards of the working copy match as those of the document. *)
Lemma cards_deepClone `{Runtime} grid cards :
  get "cards" grid = Some (VArr cards) ->
  exists cards',
    get "cards" (deepClone grid) = Some (VArr cards')
    /\ length cards' = length cards
    /\ forall index room areaId strategy,
         matches_from cards' index room areaId strategy
         = matches_from cards index room areaId strategy.
Proof.
  intros Hc. unfold deepClone.
  destruct has_structuredClone eqn:Hs; [exists cards; auto|].
  exists (map json_roundtrip cards).
  rewrite get_json_roundtrip, Hc. split; [reflexivity|].
  split; [apply length_map|].
  intros. apply matches_from_ext.
  induction cards as [|c l IH] in |- *; constructor; [|exact IH].
  pose proof (slot_matches_deepClone room areaId strategy c) as E.
  unfold deepClone in E. now rewrite Hs in E.
Qed.


Lemma matches_from_bound `{Runtime} cards index room areaId strategy :
  Forall (fun i => i < index + length cards)%nat
    (matches_from cards index room areaId strategy).
Proof.
  induction cards as [|c l IH] in index |- *; cbn [matches_from length];
    [constructor|].
  assert (F : Forall (fun i => i < index + S (length l))%nat
                (matches_from l (S index) room areaId strategy)).
  { eapply Forall_impl; [apply IH|]. simpl. intros; lia. }
  destruct (slot_matches room areaId strategy c); [constructor; [lia|]|];
    assumption.
Qed.




(** A document with one pop-up stack, named Kitchen, and two templates. *)
Definition text (lines : list jstring) : jstring := join_lines lines.

(** The JSON text of an array of strings that need no escapes. *)
Fixpoint json_items (items : list jstring) : jstring :=
  match items with
  | [] => []
  | [s] => dquote :: s ++ [dquote]
  | s :: rest => dquote :: s ++ dquote :: ch "," :: json_items rest
  end.

Definition json_array (items : list jstring) : jstring :=
  ch "[" :: json_items items ++ [ch "]"].

Definition kitchen_grid : jstring :=
  text [js "type: grid";
        js "cards:";
        js "  - type: vertical-stack";
        js "    cards:";
        js "      - type: custom:bubble-card";
        js "        card_type: pop-up";
        js "        name: Kitchen";
        js "        hash: '#kitchen-popup'";
        js "      - type: entities";
        js "        area: kitchen"].

Definition named_template : jstring :=
  text [js "type: vertical-stack";
        js "cards:";
        js "  - type: custom:bubble-card";
        js "    card_type: pop-up";
        js "    name: __AREA_NAME__";
        js "    hash: __HASH__"].


Definition by_name : options :=
  {| o_indent := None; o_detectBy := VStr (js "name");
     o_insertMode := VStr (js "replace"); o_iconMap := None |}.


(** ** The store (C9)

    [h0] is the store when [deepApplyTemplate] is entered and [n] its size.
    The calls below keep two facts: the cells of [h0] stay where and what
    they were, and the cells added since hold addresses of added cells
    only.  They keep them on a store in which [Object.prototype] has no
    enumerable property and no text is the name of one of its members: a
    lookup in [replacements] or [iconMap] then finds own properties
    only. *)

(** None of the names [inherited_name] lists starts with [#]. *)
Lemma anchor_not_inherited areaId : inherited_name (anchor areaId) = false.
Proof.
  unfold inherited_name, inherited_function, anchor. cbn [existsb].
  repeat (apply orb_false_intro);
    try reflexivity; apply jstr_eqb_false; intros E;
    apply (f_equal (hd 0)) in E; vm_compute in E; discriminate E.
Qed.

(** No text of the tree is the name of a member of [Object.prototype]. *)
Fixpoint plain_tree (v : value) : bool :=
  match v with
  | VStr s => negb (inherited_name s)
  | VArr items => forallb plain_tree items
  | VObj props => forallb (fun kv => plain_tree (snd kv)) props
  | _ => true
  end.

Lemma plain_tree_json_roundtrip v :
  plain_tree v = true -> plain_tree (json_roundtrip v) = true.
Proof.
  induction v as [| b | n | s | items IH | props IH] using value_induction;
    try (intros; reflexivity); try (intros H; exact H).
  - now destruct n.
  - cbn [json_roundtrip plain_tree]. intros Hp.
    induction IH as [|c items Hc _ IHi]; [reflexivity|].
    cbn [map forallb] in Hp |- *. apply andb_prop in Hp as [H1 H2].
    now rewrite Hc, IHi.
  - cbn [json_roundtrip plain_tree]. intros Hp.
    induction IH as [|kv props Hc _ IHp]; [reflexivity|].
    cbn [map forallb snd] in Hp |- *. apply andb_prop in Hp as [H1 H2].
    now rewrite Hc, IHp.
Qed.

Section StoreFacts.

Import Store.

Definition plain (v : hval) : Prop :=
  match v with
  | HStr s => inherited_name s = false
  | _ => True
  end.

Definition cell_plain (c : cell) : Prop :=
  match c with
  | CArr items => Forall plain items
  | CObj props => Forall (fun kv => plain (snd kv)) props
  end.

(** [Object.prototype] is there and has no enumerable property. *)
Definition unpolluted (h : store) : Prop := h !! proto = Some (CObj []).

Definition fresh (n : nat) (v : hval) : Prop :=
  match v with
  | HRef l => (n <= l)%nat
  | _ => True
  end.

(** What a cell added by the call holds. *)
Definition clean (n : nat) (v : hval) : Prop := fresh n v /\ plain v.

Definition cell_clean (n : nat) (c : cell) : Prop :=
  match c with
  | CArr items => Forall (clean n) items
  | CObj props => Forall (fun kv => clean n (snd kv)) props
  end.

Definition closed_above (n : nat) (h : store) : Prop :=
  forall l c, (n <= l)%nat -> h !! l = Some c -> cell_clean n c.

Definition inv (h0 h : store) : Prop :=
  h0 `prefix_of` h /\ closed_above (length h0) h.

(** A call that keeps the invariant, and whose result satisfies [Q] when
    it returns. *)
Definition keeps {A} (h0 : store) (m : M A) (Q : A -> Prop) : Prop :=
  forall h, inv h0 h ->
    inv h0 (snd (m h)) /\ forall a, fst (m h) = Ok a -> Q a.

Lemma cell_clean_plain n c : cell_clean n c -> cell_plain c.
Proof.
  destruct c as [items|props]; simpl; intros Hc;
    (eapply Forall_impl; [exact Hc|]); now intros ? [_ ?].
Qed.

Lemma keeps_ret {A} h0 (a : A) (Q : A -> Prop) : Q a -> keeps h0 (ret a) Q.
Proof. intros HQ h Hi. split; [exact Hi|]. now intros a' [= <-]. Qed.

Lemma keeps_throw {A} h0 e (Q : A -> Prop) : keeps h0 (throw e) Q.
Proof. intros h Hi. split; [exact Hi|]. discriminate. Qed.

Lemma keeps_bind {A B} h0 (m : M A) (k : A -> M B) (Q : A -> Prop) (R : B -> Prop) :
  keeps h0 m Q -> (forall a, Q a -> keeps h0 (k a) R) ->
  keeps h0 (mbind m k) R.
Proof.
  intros Hm Hk h Hi. unfold mbind.
  destruct (Hm h Hi) as [Hi' HQ]. destruct (m h) as [[a|e] h']; simpl in *.
  - apply (Hk a (HQ a eq_refl) h' Hi').
  - split; [exact Hi'|]. discriminate.
Qed.

Lemma keeps_weaken {A} h0 (m : M A) (Q R : A -> Prop) :
  keeps h0 m Q -> (forall a, Q a -> R a) -> keeps h0 m R.
Proof.
  intros Hm HQR h Hi. destruct (Hm h Hi) as [Hi' HQ]. split; [exact Hi'|].
  intros a Ha. auto.
Qed.

Lemma keeps_store_size h0 : keeps h0 store_size (fun _ => True).
Proof. intros h Hi. split; [exact Hi|]. trivial. Qed.

Lemma keeps_alloc h0 c :
  cell_clean (length h0) c ->
  keeps h0 (alloc c) (fun l => (length h0 <= l)%nat).
Proof.
  intros Hc h [Hp Hcl]. unfold alloc. cbn [fst snd]. split; [split|].
  - etransitivity; [exact Hp|]. now apply prefix_app_r.
  - intros l c' Hl Hlk.
    destruct (decide (l < length h)%nat) as [Hlt|Hge].
    + rewrite lookup_app_l in Hlk by assumption. eauto.
    + rewrite lookup_app_r in Hlk by lia.
      destruct (l - length h)%nat; [|now destruct n].
      simpl in Hlk. now injection Hlk as <-.
  - intros a [= <-]. now apply prefix_length.
Qed.

Lemma keeps_write h0 l c :
  (length h0 <= l)%nat -> cell_clean (length h0) c ->
  keeps h0 (write l c) (fun _ => True).
Proof.
  intros Hl Hc h [Hp Hcl]. unfold write. cbn [fst snd]. split; [split|trivial].
  - destruct Hp as [k ->]. rewrite insert_app_r_alt by assumption.
    now apply prefix_app_r.
  - intros l' c' Hl' Hlk.
    destruct (decide (l' = l)) as [->|Hne].
    + destruct (decide (l < length h)%nat) as [Hlt|Hge].
      * rewrite list_lookup_insert_eq in Hlk by assumption. now injection Hlk as <-.
      * rewrite list_insert_ge in Hlk by lia. eauto.
    + rewrite list_lookup_insert_ne in Hlk by congruence. eauto.
Qed.

Lemma Forall_obj_replace {V} (P : jstring * V -> Prop) k v o :
  Forall P o -> (forall k', P (k', v)) -> Forall P (obj_replace k v o).
Proof.
  intros Ho Hv. induction Ho as [|[k0 v0] o H0 Ho IH]; simpl; [constructor|].
  destruct (jstr_eqb k0 k); constructor; auto.
Qed.

Lemma Forall_obj_insert_index {V} (P : jstring * V -> Prop) n k v o :
  Forall P o -> P (k, v) -> Forall P (obj_insert_index n k v o).
Proof.
  intros Ho Hv. induction Ho as [|[k0 v0] o H0 Ho IH]; simpl.
  - now constructor.
  - destruct (array_index k0) as [n'|]; [destruct (n' <? n)|];
      repeat constructor; auto.
Qed.

Lemma Forall_obj_set {V} (P : jstring * V -> Prop) k v o :
  Forall P o -> (forall k', P (k', v)) -> Forall P (obj_set k v o).
Proof.
  intros Ho Hv. unfold obj_set.
  destruct (jstr_eqb k (js "__proto__")); [assumption|].
  destruct (obj_has k o); [now apply Forall_obj_replace|].
  destruct (array_index k); [now apply Forall_obj_insert_index|].
  apply Forall_app. split; [assumption|]. now repeat constructor.
Qed.

(** *** On a store without inherited names *)

Variable h0 : store.
Hypothesis Hplain : Forall cell_plain h0.
Hypothesis Hproto : unpolluted h0.

(** A cell read is plain, and it is clean when it is new. *)
Lemma keeps_read l :
  keeps h0 (read l)
    (fun c => cell_plain c
              /\ ((length h0 <= l)%nat -> cell_clean (length h0) c)).
Proof.
  intros h Hi. unfold read. destruct (h !! l) as [c|] eqn:E; simpl.
  - split; [exact Hi|]. intros a [= <-]. destruct Hi as [[k ->] Hc].
    split.
    + destruct (decide (l < length h0)%nat) as [Hlt|Hge].
      * rewrite lookup_app_l in E by assumption.
        rewrite Forall_lookup in Hplain. eauto.
      * eapply cell_clean_plain, Hc; [|exact E]. lia.
    + intros Hl. eauto.
  - split; [exact Hi|]. discriminate.
Qed.

Lemma keeps_assign p k v :
  (length h0 <= p)%nat -> clean (length h0) v ->
  keeps h0 (assign p k v) (fun _ => True).
Proof.
  intros Hp Hv. unfold assign.
  eapply keeps_bind; [apply keeps_read|]. intros c [_ Hc].
  specialize (Hc Hp).
  destruct c as [items|props]; destruct k as [i|name];
    try (now apply keeps_ret); apply keeps_write; try assumption.
  - simpl in *. now apply Forall_insert.
  - simpl in *. now apply Forall_obj_set.
Qed.

Lemma keeps_set_field l k v :
  (length h0 <= l)%nat -> clean (length h0) v ->
  keeps h0 (Store.set_field l k v) (fun _ => True).
Proof.
  intros Hl Hv. unfold Store.set_field.
  eapply keeps_bind; [apply keeps_read|]. intros c [_ Hc].
  specialize (Hc Hl).
  destruct c as [items|props]; [now apply keeps_ret|].
  apply keeps_write; [assumption|]. simpl in *. now apply Forall_obj_set.
Qed.

Lemma keeps_read_proto : keeps h0 read_proto (fun props => props = []).
Proof.
  intros h Hi. unfold read_proto. destruct Hi as [[k ->] Hc].
  unfold unpolluted in Hproto.
  rewrite (lookup_app_l_Some _ _ _ _ Hproto). cbn [fst snd].
  split; [split; [now exists k|exact Hc]|]. now intros a [= <-].
Qed.

(** A name that is not a member's finds nothing through
    [Object.prototype]. *)
Lemma keeps_inherited s :
  inherited_name s = false ->
  keeps h0 (inherited s) (fun r => r = None).
Proof.
  unfold inherited_name. intros Hs. apply orb_false_elim in Hs as [H1 H2].
  unfold inherited. rewrite H1.
  eapply keeps_bind; [apply keeps_read_proto|]. intros props ->.
  cbn [obj_get]. rewrite H2. now apply keeps_ret.
Qed.

Lemma keeps_set_if_present l (k : string) v :
  (length h0 <= l)%nat -> clean (length h0) v ->
  inherited_name (js k) = false ->
  keeps h0 (Store.set_if_present l k v) (fun _ => True).
Proof.
  intros Hl Hv Hk. unfold Store.set_if_present.
  eapply keeps_bind; [apply keeps_read|]. intros c _.
  destruct c as [items|props]; [now apply keeps_ret|].
  destruct (obj_has (js k) props); [now apply keeps_set_field|].
  eapply keeps_bind; [now apply keeps_inherited|]. intros r ->.
  now apply keeps_ret.
Qed.

(** *** The clone is made of new cells *)

Definition memo_fresh (n : nat) (memo : list (nat * nat)) : Prop :=
  Forall (fun ab => n <= snd ab)%nat memo.

Lemma memo_get_fresh n memo l l' :
  memo_fresh n memo -> memo_get memo l = Some l' -> (n <= l')%nat.
Proof.
  induction 1 as [|[a b] memo Hab _ IH]; simpl; [discriminate|].
  destruct (a =? l)%nat; [now intros [= <-]|exact IH].
Qed.

Lemma keeps_clone_items {K} rec (items : list (K * hval)) memo :
  (forall v memo, plain v -> memo_fresh (length h0) memo ->
     keeps h0 (rec v memo)
       (fun r => clean (length h0) (fst r) /\ memo_fresh (length h0) (snd r))) ->
  Forall (fun kv => plain (snd kv)) items ->
  memo_fresh (length h0) memo ->
  keeps h0 (clone_items rec items memo)
    (fun r => Forall (fun kv => clean (length h0) (snd kv)) (fst r)
              /\ memo_fresh (length h0) (snd r)).
Proof.
  intros Hrec Hitems. revert memo.
  induction Hitems as [|[k v] items Hv _ IH]; intros memo Hm; simpl.
  - apply keeps_ret. split; [constructor|assumption].
  - eapply keeps_bind; [now apply Hrec|]. intros a [Ha Hma].
    eapply keeps_bind; [now apply IH|]. intros b [Hb Hmb].
    apply keeps_ret. split; [now constructor|assumption].
Qed.

Lemma keeps_structuredClone fuel v memo :
  plain v -> memo_fresh (length h0) memo ->
  keeps h0 (structuredClone_fuel fuel v memo)
    (fun r => clean (length h0) (fst r) /\ memo_fresh (length h0) (snd r)).
Proof.
  revert v memo. induction fuel as [|f IH]; intros v memo Hv Hm;
    destruct v as [| | | |l]; simpl;
    try (apply keeps_ret; split; [split; [exact I|exact Hv]|assumption]).
  - destruct (memo_get memo l) as [l'|] eqn:E; [|apply keeps_throw].
    apply keeps_ret. split; [|assumption]. split; [|exact I].
    simpl. eapply memo_get_fresh; eauto.
  - destruct (memo_get memo l) as [l'|] eqn:E.
    { apply keeps_ret. split; [|assumption]. split; [|exact I].
      simpl. eapply memo_get_fresh; eauto. }
    eapply keeps_bind; [apply keeps_read|]. intros c [Hc _].
    destruct c as [items|props].
    + eapply keeps_bind; [apply keeps_alloc; constructor|]. intros l' Hl'.
      eapply keeps_bind.
      { apply keeps_clone_items; [intros; now apply IH| |now constructor].
        simpl in Hc. apply Forall_map. exact Hc. }
      intros r [Hr Hmr].
      eapply keeps_bind.
      { apply keeps_write; [assumption|]. simpl.
        apply Forall_map. exact Hr. }
      intros _ _. apply keeps_ret. split; [|assumption]. now split.
    + eapply keeps_bind; [apply keeps_alloc; constructor|]. intros l' Hl'.
      eapply keeps_bind.
      { apply keeps_clone_items; [intros; now apply IH|exact Hc|now constructor]. }
      intros r [Hr Hmr].
      eapply keeps_bind; [now apply keeps_write|].
      intros _ _. apply keeps_ret. split; [|assumption]. now split.
Qed.

Lemma keeps_alloc_value t :
  plain_tree t = true ->
  keeps h0 (alloc_value t) (clean (length h0)).
Proof.
  induction t as [| | |s| items IH | props IH] using value_induction;
    intros Ht; try (apply keeps_ret; now split).
  - apply keeps_ret. split; [exact I|]. simpl. simpl in Ht.
    now apply negb_true_iff in Ht.
  - cbn [alloc_value plain_tree] in Ht |- *.
    eapply keeps_bind with (Q := Forall (clean (length h0))).
    + induction IH as [|c items Hc _ IHi]; [apply keeps_ret; constructor|].
      cbn [forallb] in Ht. apply andb_prop in Ht as [Ht1 Ht2].
      eapply keeps_bind; [now apply Hc|]. intros a Ha.
      eapply keeps_bind; [now apply IHi|]. intros b Hb.
      apply keeps_ret. now constructor.
    + intros items' Hi. eapply keeps_bind; [now apply keeps_alloc|].
      intros l Hl. apply keeps_ret. now split.
  - cbn [alloc_value plain_tree] in Ht |- *.
    eapply keeps_bind with (Q := Forall (fun kv => clean (length h0) (snd kv))).
    + induction IH as [|kv props Hkv _ IHp]; [apply keeps_ret; constructor|].
      cbn [forallb] in Ht. apply andb_prop in Ht as [Ht1 Ht2].
      eapply keeps_bind; [now apply Hkv|]. intros a Ha.
      eapply keeps_bind; [now apply IHp|]. intros b Hb.
      apply keeps_ret. now constructor.
    + intros props' Hp. eapply keeps_bind; [now apply keeps_alloc|].
      intros l Hl. apply keeps_ret. now split.
Qed.

Lemma inv_plain h : inv h0 h -> Forall cell_plain h.
Proof.
  intros [[k ->] Hc]. apply Forall_lookup. intros l c E.
  destruct (decide (l < length h0)%nat) as [Hlt|Hge].
  - rewrite lookup_app_l in E by assumption.
    rewrite Forall_lookup in Hplain. eauto.
  - eapply cell_clean_plain, Hc; [|exact E]. lia.
Qed.

(** A tree read off a store of plain cells is plain. *)
Lemma reify_plain h fuel v t :
  Forall cell_plain h -> plain v -> reify fuel h v = Some t ->
  plain_tree t = true.
Proof.
  intros Hh. revert v t. induction fuel as [|f IH]; intros v t Hv;
    destruct v as [| | |s|l]; simpl; try (now intros [= <-]);
    try (intros [= <-]; simpl in *; now rewrite Hv); try discriminate.
  destruct (h !! l) as [c|] eqn:E; [|discriminate].
  rewrite Forall_lookup in Hh. specialize (Hh _ _ E).
  destruct c as [items|props]; simpl in Hh.
  - destruct (mapO (reify f h) items) as [ys|] eqn:Em; [|discriminate].
    intros [= <-]. cbn [plain_tree].
    clear E. revert ys Em. induction Hh as [|x items Hx _ IHi]; intros ys; simpl.
    + now intros [= <-].
    + destruct (reify f h x) as [y|] eqn:Ex; [|discriminate].
      destruct (mapO (reify f h) items) as [ys'|]; [|discriminate].
      intros [= <-]. cbn [forallb]. rewrite (IH _ _ Hx Ex). cbn [andb].
      now apply IHi.
  - destruct (mapO _ props) as [ys|] eqn:Em; [|discriminate].
    intros [= <-]. cbn [plain_tree].
    clear E. revert ys Em. induction Hh as [|[k x] props Hx _ IHp]; intros ys; simpl.
    + now intros [= <-].
    + destruct (reify f h x) as [y|] eqn:Ex; [|discriminate]. simpl.
      destruct (mapO _ props) as [ys'|]; [|discriminate].
      intros [= <-]. cbn [forallb snd]. simpl in Hx.
      rewrite (IH _ _ Hx Ex). cbn [andb]. now apply IHp.
Qed.

Lemma keeps_deepClone `{Runtime} v :
  plain v -> keeps h0 (Store.deepClone v) (clean (length h0)).
Proof.
  intros Hv. unfold Store.deepClone. destruct has_structuredClone.
  - eapply keeps_bind; [apply keeps_store_size|]. intros n _.
    eapply keeps_bind; [apply keeps_structuredClone; [exact Hv|constructor]|].
    intros r [Hr _]. now apply keeps_ret.
  - intros h Hi. unfold json_clone.
    destruct (reify (S (length h)) h v) as [t|] eqn:Er.
    + apply keeps_alloc_value; [|exact Hi].
      apply plain_tree_json_roundtrip.
      exact (reify_plain h _ v t (inv_plain h Hi) Hv Er).
    + split; [exact Hi|]. discriminate.
Qed.

(** *** The passes write into new cells only *)

Definition parent_fresh (n : nat) (parent : option (nat * key)) : Prop :=
  match parent with
  | Some (p, _) => (n <= p)%nat
  | None => True
  end.

Definition visitor_keeps {St} (visit : Store.visitor St) : Prop :=
  forall value parent st,
    clean (length h0) value -> parent_fresh (length h0) parent ->
    keeps h0 (visit value parent st) (fun _ => True).

Lemma keeps_each_index {St} (rec : hval -> option (nat * key) -> St -> M St) l :
  (length h0 <= l)%nat ->
  (forall item parent st, clean (length h0) item ->
     parent_fresh (length h0) parent ->
     keeps h0 (rec item parent st) (fun _ => True)) ->
  forall remaining index st,
    keeps h0 (Store.each_index rec l remaining index st) (fun _ => True).
Proof.
  intros Hl Hrec. induction remaining as [|r IH]; intros index st; simpl.
  - now apply keeps_ret.
  - eapply keeps_bind; [apply keeps_read|]. intros c [_ Hc].
    specialize (Hc Hl).
    destruct c as [items|props]; [|now apply keeps_ret].
    destruct (items !! index) as [item|] eqn:E; [|apply IH].
    eapply keeps_bind; [|intros; apply IH].
    apply Hrec; [|exact Hl]. simpl in Hc.
    rewrite Forall_lookup in Hc. eauto.
Qed.

Lemma keeps_each_entry {St} (rec : hval -> option (nat * key) -> St -> M St) l :
  (length h0 <= l)%nat ->
  (forall item parent st, clean (length h0) item ->
     parent_fresh (length h0) parent ->
     keeps h0 (rec item parent st) (fun _ => True)) ->
  forall entries st,
    Forall (fun kv => clean (length h0) (snd kv)) entries ->
    keeps h0 (Store.each_entry rec l entries st) (fun _ => True).
Proof.
  intros Hl Hrec. induction entries as [|[k v] entries IH]; intros st Hf; simpl.
  - now apply keeps_ret.
  - inversion Hf; subst. eapply keeps_bind; [|intros; now apply IH].
    now apply Hrec.
Qed.

Lemma keeps_traverse {St} (visit : Store.visitor St) :
  visitor_keeps visit ->
  forall fuel node parent st,
    clean (length h0) node -> parent_fresh (length h0) parent ->
    keeps h0 (Store.traverse fuel visit node parent st) (fun _ => True).
Proof.
  intros Hv. induction fuel as [|f IH]; intros node parent st Hn Hp; simpl.
  - apply keeps_throw.
  - eapply keeps_bind; [now apply Hv|]. intros st1 _.
    destruct node as [| | | |l]; try (now apply keeps_ret).
    destruct Hn as [Hn _].
    eapply keeps_bind; [apply keeps_read|]. intros c [_ Hc].
    specialize (Hc Hn).
    destruct c as [items|props].
    + apply keeps_each_index; [exact Hn|]. intros; now apply IH.
    + apply keeps_each_entry; [exact Hn| |exact Hc]. intros; now apply IH.
Qed.

Section Names.

Variables room areaId : jstring.
Hypothesis Hroom : inherited_name room = false.
Hypothesis HareaId : inherited_name areaId = false.

Lemma keeps_replacement s :
  inherited_name s = false ->
  keeps h0 (replacement room areaId s)
    (fun r => forall v, r = Some v -> clean (length h0) v).
Proof.
  intros Hs. unfold replacement.
  assert (Hkeep : forall t, inherited_name t = false ->
            forall v, (if truthy_hval (HStr t) then Some (HStr t) else None)
                      = Some v -> clean (length h0) v).
  { intros t Ht v. destruct (truthy_hval (HStr t)); [|discriminate].
    intros [= <-]. now split. }
  destruct (jstr_eqb s (js "__AREA_NAME__")); [apply keeps_ret; now apply Hkeep|].
  destruct (jstr_eqb s (js "__AREA_ID__")); [apply keeps_ret; now apply Hkeep|].
  destruct (jstr_eqb s (js "__HASH__")).
  { apply keeps_ret. apply Hkeep. apply anchor_not_inherited. }
  eapply keeps_bind; [now apply keeps_inherited|]. intros r ->.
  apply keeps_ret. discriminate.
Qed.

Lemma keeps_icon_value iconMap :
  (forall m icon, iconMap = Some m -> m !! room = Some icon ->
                  inherited_name icon = false) ->
  keeps h0 (icon_value iconMap room)
    (fun r => forall v, r = Some v -> clean (length h0) v).
Proof.
  intros Hicon. unfold icon_value.
  destruct iconMap as [m|]; [|apply keeps_ret; discriminate].
  destruct (m !! room) as [icon|] eqn:E.
  - apply keeps_ret. intros v [= <-]. split; [exact I|]. simpl. eauto.
  - eapply keeps_weaken; [now apply keeps_inherited|]. now intros r ->.
Qed.

Lemma placeholder_visitor_keeps icon :
  (forall v, icon = Some v -> clean (length h0) v) ->
  visitor_keeps (Store.placeholder_visitor room areaId icon).
Proof.
  intros Hicon value parent st [_ Hv] Hp. unfold Store.placeholder_visitor.
  destruct value as [| | |s|]; try (now apply keeps_ret).
  eapply keeps_bind; [now apply keeps_replacement|]. intros r Hr.
  destruct r as [v|].
  - destruct parent as [[p k]|]; [|now apply keeps_ret].
    eapply keeps_bind; [apply keeps_assign; [exact Hp|now apply Hr]|].
    intros; now apply keeps_ret.
  - destruct icon as [i|]; [|now apply keeps_ret].
    destruct parent as [[p k]|]; [|now apply keeps_ret].
    destruct (jstr_eqb s (js "__ICON__") && truthy_hval i);
      [|now apply keeps_ret].
    eapply keeps_bind; [apply keeps_assign; [exact Hp|now apply Hicon]|].
    intros; now apply keeps_ret.
Qed.

Lemma heuristic_visitor_keeps :
  visitor_keeps (Store.heuristic_visitor areaId).
Proof.
  assert (Ha : clean (length h0) (HStr areaId)) by (now split).
  intros value parent st [Hv _] Hp. unfold Store.heuristic_visitor.
  destruct parent as [[p [i|k]]|]; try (now apply keeps_ret).
  eapply keeps_bind; [apply keeps_read|]. intros c _.
  destruct c as [items|props]; [now apply keeps_ret|].
  eapply keeps_bind with (Q := fun _ => True).
  { destruct (jstr_eqb k (js "area")); [now apply keeps_assign|now apply keeps_ret]. }
  intros _ _. eapply keeps_bind with (Q := fun _ => True);
    [|intros; now apply keeps_ret].
  destruct (jstr_eqb k (js "target")); [|now apply keeps_ret].
  destruct value as [| | | |l]; try (now apply keeps_ret).
  eapply keeps_bind; [apply keeps_read|]. intros vc _.
  destruct vc; [now apply keeps_ret|]. now apply keeps_set_field.
Qed.

Lemma keeps_replacePlaceholders node icon :
  (forall v, icon = Some v -> clean (length h0) v) ->
  clean (length h0) node ->
  keeps h0 (Store.replacePlaceholders node room areaId icon) (fun _ => True).
Proof.
  intros Hicon Hn. unfold Store.replacePlaceholders.
  eapply keeps_bind; [apply keeps_store_size|]. intros n _.
  apply keeps_traverse; [now apply placeholder_visitor_keeps|exact Hn|exact I].
Qed.

Lemma keeps_get_cards stack :
  clean (length h0) stack ->
  keeps h0 (get_cards stack)
    (fun r => forall v, r = Some v -> clean (length h0) v).
Proof.
  intros [Hs _]. unfold get_cards.
  assert (Hin : keeps h0 (inherited (js "cards"))
                  (fun r => forall v, r = Some v -> clean (length h0) v)).
  { eapply keeps_weaken; [now apply keeps_inherited|]. now intros r ->. }
  destruct stack as [| | | |l]; try exact Hin; [apply keeps_throw|].
  eapply keeps_bind; [apply keeps_read|]. intros c [_ Hc].
  specialize (Hc Hs).
  destruct c as [items|props]; [exact Hin|].
  destruct (obj_get (js "cards") props) as [cards|] eqn:Eg; [|exact Hin].
  apply keeps_ret. intros v [= <-].
  apply obj_get_In in Eg. simpl in Hc. rewrite List.Forall_forall in Hc.
  apply (Hc _ Eg).
Qed.

Lemma keeps_applyHeuristics stack :
  clean (length h0) stack ->
  keeps h0 (Store.applyHeuristics stack room areaId) (fun _ => True).
Proof.
  intros Hs. unfold Store.applyHeuristics.
  eapply keeps_bind; [apply keeps_store_size|]. intros n _.
  eapply keeps_bind.
  { apply keeps_traverse; [apply heuristic_visitor_keeps|exact Hs|exact I]. }
  intros _ _.
  eapply keeps_bind; [now apply keeps_get_cards|]. intros cards Hcards.
  destruct cards as [[| | | |lc]|]; try (now apply keeps_ret).
  destruct (Hcards _ eq_refl) as [Hlc _]. simpl in Hlc.
  eapply keeps_bind; [apply keeps_read|]. intros cc [_ Hcc].
  specialize (Hcc Hlc).
  destruct cc as [[|first rest]|]; try (now apply keeps_ret).
  destruct first as [| | | |lf]; try (now apply keeps_ret).
  assert (Hlf : (length h0 <= lf)%nat).
  { simpl in Hcc. inversion Hcc as [|? ? [Hf _] _]. exact Hf. }
  eapply keeps_bind; [apply keeps_read|]. intros fc _.
  destruct fc; [now apply keeps_ret|].
  eapply keeps_bind.
  { apply keeps_set_if_present; [exact Hlf|now split|reflexivity]. }
  intros _ _. apply keeps_set_if_present; [exact Hlf| |reflexivity].
  split; [exact I|]. apply anchor_not_inherited.
Qed.

Lemma keeps_deepApplyTemplate `{Runtime} template iconMap :
  plain template ->
  (forall m icon, iconMap = Some m -> m !! room = Some icon ->
                  inherited_name icon = false) ->
  keeps h0 (Store.deepApplyTemplate template room areaId iconMap)
    (fun app => fresh (length h0) (Store.a_stack app)).
Proof.
  intros Ht Hicon. unfold Store.deepApplyTemplate.
  eapply keeps_bind; [now apply keeps_deepClone|]. intros stack Hs.
  eapply keeps_bind; [now apply keeps_icon_value|]. intros icon Hi.
  eapply keeps_bind; [now apply keeps_replacePlaceholders|]. intros r _.
  eapply keeps_bind; [now apply keeps_applyHeuristics|]. intros _ _.
  apply keeps_ret. now destruct Hs.
Qed.

End Names.

Lemma inv_start : inv h0 h0.
Proof.
  split; [reflexivity|]. intros l c Hl Hlk.
  apply lookup_lt_Some in Hlk. lia.
Qed.

End StoreFacts.

Lemma mapO_ext {A B} (f g : A -> option B) l ys :
  (forall x y, In x l -> f x = Some y -> g x = Some y) ->
  Store.mapO f l = Some ys -> Store.mapO g l = Some ys.
Proof.
  revert ys. induction l as [|x l IH]; intros ys Hfg; simpl; [auto|].
  destruct (f x) as [y|] eqn:Ef; [|discriminate].
  destruct (Store.mapO f l) as [ys'|] eqn:Em; [|discriminate].
  intros [= <-]. rewrite (Hfg x y (or_introl eq_refl) Ef).
  now rewrite (IH ys' (fun x' y' Hx => Hfg x' y' (or_intror Hx)) eq_refl).
Qed.

(** A tree read off the store is read off any extension of it. *)
Lemma reify_prefix h h' fuel v t :
  h `prefix_of` h' -> Store.reify fuel h v = Some t -> Store.reify fuel h' v = Some t.
Proof.
  intros [k ->]. revert v t. induction fuel as [|f IH]; intros v t;
    destruct v as [| | | |l]; simpl; auto.
  destruct (h !! l) as [c|] eqn:E; [|discriminate].
  rewrite (lookup_app_l_Some _ _ _ _ E).
  destruct c as [items|props].
  - destruct (Store.mapO (Store.reify f h) items) as [ys|] eqn:Em; [|discriminate].
    now rewrite (mapO_ext _ (Store.reify f (h ++ k)) _ _ (fun x y _ => IH x y) Em).
  - destruct (Store.mapO _ props) as [ys|] eqn:Em; [|discriminate].
    erewrite mapO_ext; [eauto| |exact Em].
    intros [k0 v0] y _. simpl.
    destruct (Store.reify f h v0) as [t0|] eqn:Er; [|discriminate].
    now rewrite (IH _ _ Er).
Qed.


(** On a store in which [Object.prototype] has no enumerable property and
    no text is the name of one of its members, and for a room, an area and
    an icon that are no such names either: whatever the outcome of
    [deepApplyTemplate], returned or thrown, the store after the call
    starts with the store before it, cell by cell, so that the template and
    every subtree produced by an earlier call read as the same trees.  When
    the call returns, the produced subtree is made of cells added by the
    call, and the added cells point to added cells only. *)
Lemma deepApplyTemplate_leaves_store `{Runtime} (h : Store.store)
    (template : Store.hval) (room areaId : jstring)
    (iconMap : option (gmap jstring jstring)) :
  Forall cell_plain h -> unpolluted h -> plain template ->
  inherited_name room = false -> inherited_name areaId = false ->
  (forall m icon, iconMap = Some m -> m !! room = Some icon ->
                  inherited_name icon = false) ->
  let out := Store.deepApplyTemplate template room areaId iconMap h in
  h `prefix_of` snd out
  /\ (forall l c, h !! l = Some c -> snd out !! l = Some c)
  /\ (forall fuel v t, Store.reify fuel h v = Some t ->
                       Store.reify fuel (snd out) v = Some t)
  /\ closed_above (length h) (snd out)
  /\ (forall app, fst out = Ok app -> fresh (length h) (Store.a_stack app)).
Proof.
  intros Hplain Hproto Ht Hroom Harea Hicon out.
  destruct (keeps_deepApplyTemplate h Hplain Hproto room areaId Hroom Harea
              template iconMap Ht Hicon h (inv_start h))
    as [[Hp Hc] Hq].
  fold out in Hp, Hc, Hq.
  split; [exact Hp|]. split.
  { intros l c Hl. destruct Hp as [k ->]. now apply lookup_app_l_Some. }
  split; [intros; now apply reify_prefix with (h := h)|].
  split; assumption.
Qed.

(** The store model runs.  The store starts with an empty
    [Object.prototype]; two applications of one template, allocated as
    [popup_named "__AREA_NAME__"], return; afterwards the template still
    reads as it was allocated, and each result reads as the tree that
    [deepApplyTemplate] on trees returns.  Applied to [null] the call throws
    and the store is the one it started from. *)
Lemma deepApplyTemplate_store_example :
  exists tpl h1 app1 h2 app2 h3,
    Store.alloc_value (popup_named "__AREA_NAME__") [Store.CObj []] = (Ok tpl, h1)
    /\ Forall cell_plain h1 /\ unpolluted h1
    /\ @Store.deepApplyTemplate example_runtime tpl (js "Bath") (js "bath") None h1
       = (Ok app1, h2)
    /\ @Store.deepApplyTemplate example_runtime tpl (js "Hall") (js "hall") None h2
       = (Ok app2, h3)
    /\ Store.reify 4 h3 tpl = Some (popup_named "__AREA_NAME__")
    /\ Ok (Store.reify 4 h3 (Store.a_stack app1))
       = (a <- @deepApplyTemplate example_runtime (popup_named "__AREA_NAME__")
                 (js "Bath") (js "bath") None ;;
          Ok (Some (a_stack a)))
    /\ Ok (Store.reify 4 h3 (Store.a_stack app2))
       = (a <- @deepApplyTemplate example_runtime (popup_named "__AREA_NAME__")
                 (js "Hall") (js "hall") None ;;
          Ok (Some (a_stack a)))
    /\ Store.reify 4 h3 (Store.a_stack app1) = Some (popup_named "Bath")
    /\ Store.reify 4 h3 (Store.a_stack app2) = Some (popup_named "Hall")
    /\ @Store.deepApplyTemplate example_runtime Store.HNull (js "Hall") (js "hall")
         None h3
       = (Err TypeError, h3).
Proof.
  do 6 eexists.
  split; [vm_compute; reflexivity|].
  split; [repeat constructor|].
  split; [reflexivity|].
  split; [vm_compute; reflexivity|].
  split; [vm_compute; reflexivity|].
  repeat split; vm_compute; reflexivity.
Qed.

(** ** A template that names [Object.prototype] (C9) *)

(** A pop-up template whose first card has the text [__proto__] under the
    key [target]. *)
Definition proto_target_template : value :=
  VObj [(js "type", VStr (js "vertical-stack"));
        (js "cards",
         VArr [VObj [(js "type", VStr (js "custom:bubble-card"));
                     (js "card_type", VStr (js "pop-up"));
                     (js "name", VStr (js "__AREA_NAME__"));
                     (js "target", VStr (js "__proto__"))]])].

(** What a result made from it reads as, while [Object.prototype] has
    [area_id] equal to [area]. *)
Definition proto_target_result (room area : string) : value :=
  VObj [(js "type", VStr (js "vertical-stack"));
        (js "cards",
         VArr [VObj [(js "type", VStr (js "custom:bubble-card"));
                     (js "card_type", VStr (js "pop-up"));
                     (js "name", VStr (js room));
                     (js "target", VObj [(js "area_id", VStr (js area))])]])].

(** C9, on the code.  The store starts with an empty [Object.prototype] and
    the template above.  [deepApplyTemplate] for Bath returns, and
    [Object.prototype], a cell that was there before the call, now has
    [area_id] equal to [bath]: the [target] of the result is that cell.
    [deepApplyTemplate] for Hall returns, [Object.prototype] has [area_id]
    equal to [hall], and the first result, which shares the cell with the
    second, now reads with [hall] where it read with [bath].  The template
    still reads as it was allocated.  This holds with and without
    [structuredClone]. *)
Theorem deepApplyTemplate_writes_prototype (R : Runtime) :
  exists tpl h1 app1 h2 app2 h3,
    Store.alloc_value proto_target_template [Store.CObj []] = (Ok tpl, h1)
    /\ @Store.deepApplyTemplate R tpl (js "Bath") (js "bath") None h1
       = (Ok app1, h2)
    /\ @Store.deepApplyTemplate R tpl (js "Hall") (js "hall") None h2
       = (Ok app2, h3)
    /\ h1 !! Store.proto = Some (Store.CObj [])
    /\ h2 !! Store.proto
       = Some (Store.CObj [(js "area_id", Store.HStr (js "bath"))])
    /\ h3 !! Store.proto
       = Some (Store.CObj [(js "area_id", Store.HStr (js "hall"))])
    /\ Store.reify 4 h2 (Store.a_stack app1)
       = Some (proto_target_result "Bath" "bath")
    /\ Store.reify 4 h3 (Store.a_stack app1)
       = Some (proto_target_result "Bath" "hall")
    /\ Store.reify 4 h3 (Store.a_stack app2)
       = Some (proto_target_result "Hall" "hall")
    /\ Store.reify 4 h3 tpl = Some proto_target_template.
Proof.
  destruct R as [lower parse [|]];
    do 6 eexists;
    (split; [vm_compute; reflexivity|]);
    (split; [vm_compute; reflexivity|]);
    (split; [vm_compute; reflexivity|]);
    repeat split; vm_compute; reflexivity.
Qed.

(** ** Round trip (C1)

    The class of trees on which [parseYAML (stringifyYAML t)] is [t]. *)

Definition scalar_eqb (a b : value) : bool :=
  match a, b with
  | VNull, VNull => true
  | VBool x, VBool y => Bool.eqb x y
  | VNum x, VNum y => bool_decide (x = y)
  | VStr x, VStr y => jstr_eqb x y
  | _, _ => false
  end.

(** No line feed, carriage return or tab *)
Definition no_break (s : jstring) : bool :=
  forallb (fun c => negb ((c =? 10) || (c =? 13) || (c =? 9))) s.

(** A scalar whose text survives the line filters of the parser and reads
    back as the scalar. *)
Definition leaf_ok (v : value) : bool :=
  let t := serializeScalar v in
  negb (is_object_like v)
  && no_break t
  && jstr_eqb (stripComments t) t
  && jstr_eqb (trim t) t
  && negb (jstr_eqb t [])
  && match parseScalar t with
     | Ok v' => scalar_eqb v' v
     | Err _ => false
     end.






(** The lines the serializer writes for such a tree at indent [L]. *)
Definition entry_lines (rec : value -> nat -> list jstring) (L : nat)
    (kv : jstring * value) : list jstring :=
  if is_object_like (snd kv) then
    (spaces L ++ fst kv ++ [ch ":"]) :: rec (snd kv) (L + 2)%nat
  else [spaces L ++ fst kv ++ ch ":" :: 32 :: serializeScalar (snd kv)].

Fixpoint lines_of (v : value) (L : nat) : list jstring :=
  match v with
  | VObj props =>
      match props with
      | [] => [spaces L ++ js "{}"]
      | _ :: _ => flat_map (entry_lines lines_of L) props
      end
  | VArr items =>
      match items with
      | [] => [spaces L ++ js "[]"]
      | _ :: _ =>
          flat_map
            (fun x =>
               match x with
               | VObj (kv :: rest) =>
                   (spaces L ++ js "- " ++ fst kv ++ ch ":" :: 32
                    :: serializeScalar (snd kv))
                   :: flat_map (entry_lines lines_of (L + 2)) rest
               | VObj [] => [spaces L ++ js "- {}"]
               | VArr _ => [spaces L ++ js "- []"]
               | _ => [spaces L ++ js "- " ++ serializeScalar x]
               end)
            items
      end
  | _ => [spaces L ++ serializeScalar v]
  end.

(** *** Text lemmas *)

Lemma N_eqb_true a b : (a =? b) = true <-> a = b.
Proof. apply N.eqb_eq. Qed.

Lemma dropWhile_all p s : forallb p s = true -> dropWhile p s = [].
Proof.
  induction s as [|c s IH]; simpl; [reflexivity|].
  destruct (p c); [exact IH|discriminate].
Qed.

Lemma dropWhile_app_all p a b :
  forallb p a = true -> dropWhile p (a ++ b) = dropWhile p b.
Proof.
  induction a as [|c a IH]; simpl; [reflexivity|].
  destruct (p c); [exact IH|discriminate].
Qed.


Lemma dropWhile_id_length p s : length (dropWhile p s) = length s -> dropWhile p s = s.
Proof.
  destruct s as [|c s]; simpl; [reflexivity|].
  destruct (p c); [|reflexivity].
  pose proof (dropWhile_length p s). lia.
Qed.

Lemma spaces_ws L : forallb is_ws (spaces L) = true.
Proof. induction L; simpl; auto. Qed.


(** [s] does not start with white space. *)
Definition starts_tight (s : jstring) : bool :=
  match s with
  | [] => true
  | c :: _ => negb (is_ws c)
  end.

Lemma starts_tight_dropWhile s : starts_tight s = true -> dropWhile is_ws s = s.
Proof. destruct s as [|c s]; simpl; [reflexivity|]. now destruct (is_ws c). Qed.

Lemma dropWhile_starts_tight s : dropWhile is_ws s = s -> starts_tight s = true.
Proof.
  destruct s as [|c s]; simpl; [reflexivity|].
  destruct (is_ws c) eqn:E; [|reflexivity].
  intros H. pose proof (dropWhile_length is_ws s) as Hl. rewrite H in Hl.
  simpl in Hl. lia.
Qed.

Lemma trimStart_spaces L body :
  starts_tight body = true -> trimStart (spaces L ++ body) = body.
Proof.
  intros Hb. unfold trimStart.
  rewrite dropWhile_app_all by apply spaces_ws.
  now apply starts_tight_dropWhile.
Qed.

Lemma takeWhile_tight s : starts_tight s = true -> takeWhile is_ws s = [].
Proof. destruct s as [|c s]; simpl; [reflexivity|]. now destruct (is_ws c). Qed.


(** [s] does not end with white space. *)
Definition ends_tight (s : jstring) : bool := starts_tight (rev s).

Lemma trimEnd_tight s : ends_tight s = true -> trimEnd s = s.
Proof.
  unfold ends_tight, trimEnd. intros H.
  now rewrite starts_tight_dropWhile, rev_involutive.
Qed.

Lemma ends_tight_app a b :
  ends_tight b = true -> b <> [] -> ends_tight (a ++ b) = true.
Proof.
  unfold ends_tight. rewrite rev_app_distr. intros Hb Hne.
  destruct (rev b) as [|c r] eqn:E; [|exact Hb].
  apply (f_equal (@rev N)) in E. rewrite rev_involutive in E. now subst.
Qed.

Lemma trim_tight s : trim s = s -> starts_tight s = true /\ ends_tight s = true.
Proof.
  unfold trim, trimEnd, trimStart. intros H.
  assert (Hl : length (dropWhile is_ws s) = length s).
  { pose proof (dropWhile_length is_ws s).
    pose proof (dropWhile_length is_ws (rev (dropWhile is_ws s))) as H2.
    rewrite length_rev in H2.
    apply (f_equal (@length N)) in H. rewrite length_rev in H. lia. }
  apply dropWhile_id_length in Hl. rewrite Hl in H.
  split; [now apply dropWhile_starts_tight|].
  unfold ends_tight. apply dropWhile_starts_tight.
  apply (f_equal (@rev N)) in H. now rewrite rev_involutive in H.
Qed.

Lemma tight_trim s :
  starts_tight s = true -> ends_tight s = true -> trim s = s.
Proof.
  intros Hs He. unfold trim, trimStart.
  rewrite starts_tight_dropWhile by assumption. now apply trimEnd_tight.
Qed.

Lemma trim_spaces_body L body :
  starts_tight body = true -> ends_tight body = true ->
  trim (spaces L ++ body) = body.
Proof.
  intros Hs He. unfold trim. rewrite trimStart_spaces by assumption.
  now apply trimEnd_tight.
Qed.

Lemma trim_space_text t : trim t = t -> trim (32 :: t) = t.
Proof.
  intros H. destruct (trim_tight t H) as [Hs He].
  apply (trim_spaces_body 1 t Hs He).
Qed.

(** *** Lines the comment stripper and the other filters leave alone *)

(** No quote, hash, backslash or control character *)
Definition quiet_char (c : N) : bool :=
  is_bare_char c || (c =? ch ":") || (c =? 32) || (c =? ch "{") || (c =? ch "}")
  || (c =? ch "[") || (c =? ch "]").

Lemma quiet_char_plain c :
  quiet_char c = true ->
  (c =? ch "'") = false /\ (c =? dquote) = false /\ (c =? ch "#") = false
  /\ (c =? 92) = false /\ (c =? 9) = false /\ (c =? 10) = false
  /\ (c =? 13) = false.
Proof.
  unfold quiet_char, is_bare_char, is_upper, is_lower, is_digit, dquote.
  intros H. repeat split; apply N.eqb_neq; intros ->; vm_compute in H;
    discriminate.
Qed.

Lemma stripComments_loop_quiet line q rest i :
  forallb quiet_char q = true ->
  stripComments_loop line (q ++ rest) i false false
  = stripComments_loop line rest (i + length q) false false.
Proof.
  revert i. induction q as [|c q IH]; intros i Hq.
  - simpl. now rewrite Nat.add_0_r.
  - cbn [forallb] in Hq. apply andb_prop in Hq as [Hc Hq].
    destruct (quiet_char_plain c Hc) as (H1 & H2 & H3 & _).
    cbn [app stripComments_loop length]. rewrite H1, H2, H3. cbn [andb].
    rewrite IH by assumption. f_equal. lia.
Qed.

Lemma backslashes_before_prefix p c t j :
  (c =? 92) = false ->
  backslashes_before ((p ++ [c]) ++ t) (length (p ++ [c]) + j)
  = backslashes_before t j.
Proof.
  intros Hc. unfold backslashes_before. f_equal.
  rewrite take_app_add.
  rewrite !rev_app_distr. cbn [rev app].
  now rewrite takeWhile_app_stop.
Qed.

(** After a prefix that ends in a character other than a backslash, the
    loop runs on the rest as it would on the rest alone. *)
Lemma stripComments_loop_shift p c t rest j s d :
  (c =? 92) = false ->
  stripComments_loop ((p ++ [c]) ++ t) rest (length (p ++ [c]) + j) s d
  = if bool_decide (stripComments_loop t rest j s d = t)
    then (p ++ [c]) ++ t
    else (p ++ [c]) ++ stripComments_loop t rest j s d.
Proof.
  intros Hc. revert j s d. induction rest as [|x rest IH]; intros j s d.
  - cbn [stripComments_loop]. now rewrite bool_decide_eq_true_2.
  - cbn [stripComments_loop].
    rewrite backslashes_before_prefix by assumption.
    replace (S (length (p ++ [c]) + j)) with (length (p ++ [c]) + S j)%nat by lia.
    destruct ((x =? ch "'") && negb d); [apply IH|].
    destruct ((x =? dquote) && negb s); [apply IH|].
    destruct ((x =? ch "#") && negb s && negb d); [|apply IH].
    unfold slice. rewrite !Nat.sub_0_r, !drop_0.
    rewrite take_app_add.
    now destruct (bool_decide (take j t = t)) eqn:E;
      [apply bool_decide_eq_true in E; rewrite E|].
Qed.

Lemma stripComments_quiet q : forallb quiet_char q = true -> stripComments q = q.
Proof.
  intros Hq. unfold stripComments.
  rewrite <- (app_nil_r q) at 2. now rewrite stripComments_loop_quiet.
Qed.



Lemma replace1_none a r s :
  forallb (fun c => negb (c =? a)) s = true -> replace1 a r s = s.
Proof.
  unfold replace1. induction s as [|c s IH]; simpl; [reflexivity|].
  intros H. apply andb_prop in H as [Hc Hs].
  destruct (c =? a); [discriminate|]. simpl. now rewrite IH.
Qed.

Lemma normalize_newlines_none s :
  forallb (fun c => negb (c =? 13)) s = true -> normalize_newlines s = s.
Proof.
  induction s as [|c s IH]; simpl; [reflexivity|].
  intros H. apply andb_prop in H as [Hc Hs].
  destruct (c =? 13); [discriminate|]. now rewrite IH.
Qed.


Lemma split_on_last sep cur line :
  forallb (fun c => negb (c =? sep)) line = true ->
  split_on sep cur line = [rev cur ++ line].
Proof.
  revert cur. induction line as [|c line IH]; intros cur H; simpl.
  - now rewrite app_nil_r.
  - simpl in H. apply andb_prop in H as [Hc Hl].
    destruct (c =? sep); [discriminate|].
    rewrite IH by assumption. simpl. now rewrite <- app_assoc.
Qed.


(** A text the filters of [filteredLines] leave alone. *)
Definition good_text (t : jstring) : Prop :=
  no_break t = true /\ stripComments t = t /\ trim t = t.




Lemma no_break_app a b : no_break (a ++ b) = no_break a && no_break b.
Proof. apply forallb_app. Qed.

Lemma no_break_no c s :
  (c = 10 \/ c = 13 \/ c = 9) -> no_break s = true ->
  forallb (fun x => negb (x =? c)) s = true.
Proof.
  intros Hc. unfold no_break. induction s as [|x s IH]; simpl; [reflexivity|].
  intros H. apply andb_prop in H as [Hx Hs]. rewrite IH by assumption.
  apply negb_true_iff in Hx. apply orb_false_elim in Hx as [Hx H9].
  apply orb_false_elim in Hx as [H10 H13].
  destruct Hc as [->|[->| ->]]; now rewrite ?H10, ?H13, ?H9.
Qed.








(** *** One line of the parser on a line of the serializer *)



(** *** Keys and leaves *)

Ltac eval_chars :=
  repeat match goal with
         | |- context [ch ?a] =>
             let v := eval vm_compute in (ch a) in change (ch a) with v
         | H : context [ch ?a] |- _ =>
             let v := eval vm_compute in (ch a) in change (ch a) with v in H
         end.

Ltac bool_to_prop H :=
  repeat rewrite ?orb_true_iff, ?andb_true_iff, ?N.eqb_eq, ?N.leb_le in H.

Lemma bare_char_range c :
  is_bare_char c = true ->
  c = 45 \/ (65 <= c <= 90) \/ (97 <= c <= 122) \/ (48 <= c <= 57)
  \/ c = 95 \/ c = 46.
Proof.
  unfold is_bare_char, is_upper, is_lower, is_digit. eval_chars.
  intros H. bool_to_prop H. lia.
Qed.

Lemma bare_char_facts c :
  is_bare_char c = true ->
  quiet_char c = true /\ is_ws c = false /\ (c =? ch ":") = false.
Proof.
  intros H. unfold quiet_char. rewrite H. split; [reflexivity|].
  apply bare_char_range in H. split.
  - apply not_true_is_false. intros Hw. unfold is_ws in Hw.
    bool_to_prop Hw. lia.
  - apply N.eqb_neq. eval_chars. lia.
Qed.


Lemma forallb_rev {A} (f : A -> bool) l : forallb f (rev l) = forallb f l.
Proof.
  induction l as [|x l IH]; simpl; [reflexivity|].
  rewrite forallb_app, IH. simpl. now rewrite andb_true_r, andb_comm.
Qed.




Lemma indexOf_key k r :
  forallb (fun c => negb (c =? ch ":")) k = true ->
  indexOf (ch ":") (k ++ ch ":" :: r) = Some (length k).
Proof.
  induction k as [|c k IH]; simpl; [reflexivity|].
  intros H. apply andb_prop in H as [Hc Hk]. apply negb_true_iff in Hc.
  rewrite Hc, IH by assumption. reflexivity.
Qed.

Lemma startsWith_nil s : startsWith s [] = true.
Proof. now destruct s. Qed.


Lemma scalar_eqb_eq a b : scalar_eqb a b = true -> a = b.
Proof.
  destruct a, b; simpl; try discriminate; intros H; f_equal.
  - now apply Bool.eqb_prop.
  - now apply bool_decide_eq_true in H.
  - now apply jstr_eqb_true.
Qed.

Record leaf_facts (v : value) : Prop := {
  lf_scalar : is_object_like v = false;
  lf_good : good_text (serializeScalar v);
  lf_nonempty : serializeScalar v <> [];
  lf_parse : parseScalar (serializeScalar v) = Ok v
}.

Lemma leaf_ok_facts v : leaf_ok v = true -> leaf_facts v.
Proof.
  unfold leaf_ok. intros H.
  repeat (apply andb_prop in H as [H ?]).
  apply negb_true_iff in H.
  repeat match goal with
         | H : negb _ = true |- _ => apply negb_true_iff in H
         | H : jstr_eqb _ _ = true |- _ => apply jstr_eqb_true in H
         | H : jstr_eqb _ _ = false |- _ => apply jstr_eqb_false in H
         end.
  split; try assumption.
  - repeat split; assumption.
  - destruct (parseScalar (serializeScalar v)) as [v'|]; [|discriminate].
    f_equal. now apply scalar_eqb_eq.
Qed.

(** *** Frames *)




(** [popto i s]: the stack after the dedent loop of a line at indent [i]. *)
Definition popto (i : Z) (s : list frame) : list frame :=
  pop_while (length s) i s.

Lemma length_pop top parent rest :
  length (pop (top :: parent :: rest)) = S (length rest).
Proof. reflexivity. Qed.

Lemma pop_while_fuels n m i s :
  (length s <= n)%nat -> (length s <= m)%nat ->
  pop_while n i s = pop_while m i s.
Proof.
  revert m s. induction n as [|n IH]; intros m s Hn Hm.
  - destruct s; [now destruct m|simpl in Hn; lia].
  - destruct m as [|m]; [destruct s; [reflexivity|simpl in Hm; lia]|].
    destruct s as [|top [|parent rest]]; try reflexivity.
    cbn [pop_while].
    destruct (i <=? f_indent top)%Z; [|reflexivity].
    apply IH; cbn [pop length] in *; lia.
Qed.

Lemma pop_while_fuel n i s :
  (length s <= n)%nat -> pop_while n i s = pop_while (length s) i s.
Proof. intros H. now apply pop_while_fuels. Qed.


Lemma popto_single i f : popto i [f] = [f].
Proof. reflexivity. Qed.








(** *** Steps *)


Lemma slice_key k r : slice 0 (length k) (k ++ r) = k.
Proof. unfold slice. rewrite Nat.sub_0_r. cbn [drop]. apply take_app_length. Qed.

Lemma drop_key (k : jstring) c r : drop (S (length k)) (k ++ c :: r) = r.
Proof.
  replace (S (length k)) with (length (k ++ [c]))
    by (rewrite length_app; simpl; lia).
  change (k ++ c :: r) with (k ++ [c] ++ r).
  rewrite (app_assoc k [c] r). apply drop_app_length.
Qed.






Lemma obj_set_nil {V} k (v : V) :
  jstr_eqb k (js "__proto__") = false -> obj_set k v [] = [(k, v)].
Proof.
  intros Hp. unfold obj_set. rewrite Hp. cbn.
  now destruct (array_index k).
Qed.


(** *** Property order *)





(** *** The lines of the serializer, one form at a time *)

Definition item_lines (L : nat) (x : value) : list jstring :=
  match x with
  | VObj (kv :: rest) =>
      (spaces L ++ js "- " ++ fst kv ++ ch ":" :: 32 :: serializeScalar (snd kv))
      :: flat_map (entry_lines lines_of (L + 2)) rest
  | VObj [] => [spaces L ++ js "- {}"]
  | VArr _ => [spaces L ++ js "- []"]
  | _ => [spaces L ++ js "- " ++ serializeScalar x]
  end.

Lemma lines_of_arr x items L :
  lines_of (VArr (x :: items)) L = flat_map (item_lines L) (x :: items).
Proof. reflexivity. Qed.












Lemma process_lines_app index l1 l2 s :
  process_lines index (l1 ++ l2) s
  = bind (process_lines index l1 s)
      (process_lines (index + length l1) l2).
Proof.
  revert index s. induction l1 as [|l l1 IH]; intros index s.
  - cbn. now rewrite Nat.add_0_r.
  - cbn [app process_lines length].
    destruct (process_line index l s) as [s1|e]; [|reflexivity].
    cbn [bind]. rewrite IH. now rewrite Nat.add_succ_r.
Qed.


(** *** The parser on the lines of a tree *)

















(** *** The shape of the lines *)






(** *** The serializer writes these lines *)

















(** *** End of input *)


(** *** Round trip *)








(** * Further properties of the program

    The rest of the file states what the source shows about the functions
    the claims above leave aside, and about how the functions compose. *)

(** ** White space *)

Lemma dropWhile_suffix p s : exists k, s = k ++ dropWhile p s.
Proof.
  induction s as [|c s [k IH]]; [now exists []|]. simpl.
  destruct (p c); [|now exists []].
  exists (c :: k). simpl. now f_equal.
Qed.

Lemma trimEnd_prefix s : exists k, s = trimEnd s ++ k.
Proof.
  unfold trimEnd. destruct (dropWhile_suffix is_ws (rev s)) as [k Hk].
  exists (rev k). rewrite <- rev_app_distr, <- Hk. now rewrite rev_involutive.
Qed.

Lemma dropWhile_tight s : starts_tight (dropWhile is_ws s) = true.
Proof.
  induction s as [|c s IH]; [reflexivity|]. simpl.
  destruct (is_ws c) eqn:E; [exact IH|]. simpl. now rewrite E.
Qed.

Lemma trim_is_tight s :
  starts_tight (trim s) = true /\ ends_tight (trim s) = true.
Proof.
  split.
  - unfold trim. pose proof (dropWhile_tight s) as Hs. fold (trimStart s) in Hs.
    destruct (trimEnd_prefix (trimStart s)) as [k Hk].
    destruct (trimEnd (trimStart s)) as [|c t]; [reflexivity|].
    rewrite Hk in Hs. exact Hs.
  - unfold ends_tight, trim, trimEnd. rewrite rev_involutive.
    apply dropWhile_tight.
Qed.

Lemma trim_idempotent s : trim (trim s) = trim s.
Proof. apply tight_trim; apply trim_is_tight. Qed.

(** ** stripComments *)

Lemma backslashes_before_app pre tail :
  backslashes_before (pre ++ tail) (length pre)
  = length (takeWhile (fun c => c =? 92) (rev pre)).
Proof. unfold backslashes_before. now rewrite take_app_length. Qed.

(** What the loop returns from position [length pre] on is [pre] and a
    part [p] of the rest, and the loop run again on that result keeps all of
    it. *)
Lemma stripComments_loop_fixed rest pre s d :
  exists p r,
    rest = p ++ r
    /\ stripComments_loop (pre ++ rest) rest (length pre) s d = pre ++ p
    /\ stripComments_loop (pre ++ p) p (length pre) s d = pre ++ p.
Proof.
  revert pre s d. induction rest as [|c rest IH]; intros pre s d.
  - exists [], []. now rewrite !app_nil_r.
  - assert (Hnext : forall s' d',
      (forall tail,
         stripComments_loop (pre ++ c :: tail) (c :: tail) (length pre) s d
         = stripComments_loop (pre ++ c :: tail) tail (S (length pre)) s' d') ->
      exists p r,
        c :: rest = p ++ r
        /\ stripComments_loop (pre ++ c :: rest) (c :: rest) (length pre) s d
           = pre ++ p
        /\ stripComments_loop (pre ++ p) p (length pre) s d = pre ++ p).
    { intros s' d' Hstep.
      destruct (IH (pre ++ [c]) s' d') as (p & r & -> & E1 & E2).
      rewrite <- !app_assoc, length_app in E1, E2. cbn [app length] in E1, E2.
      rewrite Nat.add_1_r in E1, E2.
      exists (c :: p), r. split; [reflexivity|].
      rewrite !Hstep, E1, E2. now rewrite <- app_assoc. }
    destruct ((c =? ch "'") && negb d) eqn:E1.
    { apply (Hnext (negb s) d). intros tail. cbn [stripComments_loop].
      now rewrite E1. }
    destruct ((c =? dquote) && negb s) eqn:E2.
    { apply (Hnext s (if Nat.even (length (takeWhile (fun c => c =? 92) (rev pre)))
                      then negb d else d)).
      intros tail. cbn [stripComments_loop].
      now rewrite E1, E2, backslashes_before_app. }
    destruct ((c =? ch "#") && negb s && negb d) eqn:E3.
    { exists [], (c :: rest). split; [reflexivity|]. split.
      - cbn [stripComments_loop]. rewrite E1, E2, E3.
        now rewrite slice_key, app_nil_r.
      - now rewrite app_nil_r. }
    apply (Hnext s d). intros tail. cbn [stripComments_loop].
    now rewrite E1, E2, E3.
Qed.

(** X1.  [stripComments] cuts a line and adds nothing: the result is a
    prefix of the line, and stripping it again changes nothing. *)
Theorem stripComments_idempotent line :
  (exists r, line = stripComments line ++ r)
  /\ stripComments (stripComments line) = stripComments line.
Proof.
  destruct (stripComments_loop_fixed line [] false false) as (p & r & -> & E1 & E2).
  cbn [app length] in E1, E2. unfold stripComments.
  rewrite E1. split; [now exists r|exact E2].
Qed.

(** ** parseScalar *)

(** [parseScalar] as the source writes it: the flow parsers are called on
    the text between the brackets, with no trace of the fuel. *)
Lemma parseScalar_unfold rawValue :
  parseScalar rawValue
  = let trimmed := trim rawValue in
    if jstr_eqb trimmed [] || jstr_eqb trimmed (js "null")
       || jstr_eqb trimmed (js "~") then Ok VNull
    else if jstr_eqb trimmed (js "true") || jstr_eqb trimmed (js "True") then
      Ok (VBool true)
    else if jstr_eqb trimmed (js "false") || jstr_eqb trimmed (js "False") then
      Ok (VBool false)
    else if is_int_literal trimmed then Ok (VNum (parseInt10 trimmed))
    else if is_float_literal trimmed then Ok (VNum (parseFloat trimmed))
    else if is_quoted trimmed then Ok (VStr (parseQuotedString trimmed))
    else if startsWith trimmed [ch "["] && endsWith trimmed [ch "]"] then
      parseInlineArray (slice_1_m1 trimmed)
    else if startsWith trimmed [ch "{"] && endsWith trimmed [ch "}"] then
      parseInlineObject (slice_1_m1 trimmed)
    else Ok (VStr trimmed).
Proof.
  cbv zeta. unfold parseScalar.
  pose proof (trim_length rawValue) as Htrim.
  destruct (length rawValue) as [|f] eqn:Hlen.
  { destruct rawValue; [reflexivity|discriminate]. }
  cbn [parseScalar_fuel].
  repeat match goal with
         | |- (if ?b then _ else _) = (if ?b then _ else _) =>
             destruct b eqn:?; [reflexivity|]
         end.
  assert (Hinner : forall p : jstring,
            trim rawValue <> [] ->
            (length p <= length (slice_1_m1 (trim rawValue)))%nat ->
            parseScalar_fuel f p = parseScalar_fuel (length p) p).
  { intros p Hne Hp. pose proof (slice_1_m1_length _ Hne).
    apply parseScalar_fuel_irrelevant; lia. }
  destruct (startsWith (trim rawValue) [ch "["] && endsWith (trim rawValue) [ch "]"])
    eqn:Ha.
  { apply andb_prop in Ha as [Ha _]. apply startsWith_nonempty in Ha.
    unfold parseInlineArray, parseInlineArray_with.
    destruct (isWhitespaceOnly (slice_1_m1 (trim rawValue))); [reflexivity|].
    now rewrite (mapM_ext_Forall _ _ parseScalar _
                   (fun p Hp => Hinner p Ha Hp) (splitTopLevel_lengths _ _)). }
  destruct (startsWith (trim rawValue) [ch "{"] && endsWith (trim rawValue) [ch "}"])
    eqn:Ho; [|reflexivity].
  apply andb_prop in Ho as [Ho _]. apply startsWith_nonempty in Ho.
  unfold parseInlineObject, parseInlineObject_with.
  destruct (isWhitespaceOnly (slice_1_m1 (trim rawValue))); [reflexivity|].
  rewrite (parseInlineObject_parts_ext
             (fun p => (length p <= length (slice_1_m1 (trim rawValue)))%nat)
             (parseScalar_fuel f) parseScalar).
  - reflexivity.
  - intros p Hp. now apply Hinner.
  - eapply Forall_impl; [apply splitTopLevel_lengths|].
    intros part Hpart i. cbn beta in Hpart.
    etransitivity; [apply trim_length|]. rewrite length_drop. lia.
Qed.

(** X2.  White space around a scalar does not count: [parseScalar] gives
    the same result on a text and on the text trimmed. *)
Theorem parseScalar_trim rawValue :
  parseScalar (trim rawValue) = parseScalar rawValue.
Proof.
  rewrite (parseScalar_unfold (trim rawValue)), (parseScalar_unfold rawValue).
  cbv zeta. rewrite trim_idempotent. reflexivity.
Qed.

Lemma endsWith_last (s : jstring) c : endsWith (s ++ [c]) [c] = true.
Proof.
  unfold endsWith. rewrite rev_app_distr. cbn [rev app startsWith].
  now rewrite N.eqb_refl, startsWith_nil.
Qed.

Lemma slice_1_m1_wrap a (s : jstring) b : slice_1_m1 (a :: s ++ [b]) = s.
Proof.
  unfold slice_1_m1, slice. cbn [length drop].
  rewrite length_app. cbn [length].
  replace (S (length s + 1) - 1 - 1)%nat with (length s) by lia.
  apply take_app_length.
Qed.

Lemma wrapped_tight a (s : jstring) b :
  is_ws a = false -> is_ws b = false -> trim (a :: s ++ [b]) = a :: s ++ [b].
Proof.
  intros Ha Hb. apply tight_trim.
  - cbn. now rewrite Ha.
  - unfold ends_tight. change (a :: s ++ [b]) with ((a :: s) ++ [b]).
    rewrite rev_app_distr. cbn. now rewrite Hb.
Qed.

(** A text is none of the keywords when its first character says so. *)
Ltac head_differs :=
  apply jstr_eqb_false;
  let E := fresh "E" in
  intros E; apply (f_equal (hd 0)) in E; vm_compute in E; discriminate E.

Ltac no_keyword :=
  repeat match goal with
         | |- context [jstr_eqb (?c :: ?s) ?t] =>
             replace (jstr_eqb (c :: s) t) with false
               by (symmetry; head_differs)
         end;
  cbn [orb].

(** X3.  The text between square brackets goes to [parseInlineArray] and
    the text between braces to [parseInlineObject], whatever it is. *)
Theorem parseScalar_brackets body :
  parseScalar (ch "[" :: body ++ [ch "]"]) = parseInlineArray body
  /\ parseScalar (ch "{" :: body ++ [ch "}"]) = parseInlineObject body.
Proof.
  split; rewrite parseScalar_unfold; cbv zeta;
    rewrite wrapped_tight by reflexivity; no_keyword.
  - replace (is_int_literal (ch "[" :: body ++ [ch "]"])) with false by reflexivity.
    replace (is_float_literal (ch "[" :: body ++ [ch "]"])) with false
      by reflexivity.
    replace (is_quoted (ch "[" :: body ++ [ch "]"])) with false by reflexivity.
    change (ch "[" :: body ++ [ch "]"]) with ((ch "[" :: body) ++ [ch "]"]).
    rewrite endsWith_last.
    change ((ch "[" :: body) ++ [ch "]"]) with (ch "[" :: body ++ [ch "]"]).
    rewrite slice_1_m1_wrap. cbn [startsWith].
    now rewrite N.eqb_refl, startsWith_nil.
  - replace (is_int_literal (ch "{" :: body ++ [ch "}"])) with false by reflexivity.
    replace (is_float_literal (ch "{" :: body ++ [ch "}"])) with false
      by reflexivity.
    replace (is_quoted (ch "{" :: body ++ [ch "}"])) with false by reflexivity.
    change (ch "{" :: body ++ [ch "}"]) with ((ch "{" :: body) ++ [ch "}"]).
    rewrite endsWith_last.
    change ((ch "{" :: body) ++ [ch "}"]) with (ch "{" :: body ++ [ch "}"]).
    rewrite slice_1_m1_wrap. cbn [startsWith].
    replace (ch "[" =? ch "{") with false by reflexivity.
    now rewrite N.eqb_refl, startsWith_nil.
Qed.

(** ** Strings through serializeScalar and parseScalar *)

Lemma replace2_cons_other a b r c t :
  (c =? a) = false -> replace2 a b r (c :: t) = c :: replace2 a b r t.
Proof. intros Hc. cbn [replace2]. destruct t; [reflexivity|]. now rewrite Hc. Qed.

Lemma replace2_pair a b r d t :
  replace2 a b r (a :: d :: t)
  = if d =? b then r ++ replace2 a b r t else a :: replace2 a b r (d :: t).
Proof.
  change (replace2 a b r (a :: d :: t))
    with (if (a =? a) && (d =? b) then r ++ replace2 a b r t
          else a :: replace2 a b r (d :: t)).
  now rewrite N.eqb_refl.
Qed.

Lemma replace2_none a b r s :
  forallb (fun c => negb (c =? a)) s = true -> replace2 a b r s = s.
Proof.
  induction s as [|c s IH]; [reflexivity|]. cbn [forallb].
  intros H. apply andb_prop in H as [Hc Hs]. apply negb_true_iff in Hc.
  now rewrite replace2_cons_other, IH.
Qed.

(** The text [quoteString] puts between the quotes for a string without
    backslashes. *)
Definition escape_quotes (s : jstring) : jstring :=
  replace1 dquote [92; dquote] s.

Lemma escape_quotes_cons c s :
  escape_quotes (c :: s)
  = (if c =? dquote then [92; dquote] else [c]) ++ escape_quotes s.
Proof. reflexivity. Qed.

Lemma unescape_newline s :
  forallb (fun c => negb (c =? 92)) s = true ->
  replace2 92 (ch "n") [10] (escape_quotes s) = escape_quotes s.
Proof.
  induction s as [|c s IH]; [reflexivity|]. cbn [forallb].
  intros H. apply andb_prop in H as [Hc Hs]. apply negb_true_iff in Hc.
  rewrite escape_quotes_cons. destruct (c =? dquote) eqn:Eq.
  - cbn [app]. rewrite replace2_pair.
    replace (dquote =? ch "n") with false by reflexivity.
    rewrite replace2_cons_other by reflexivity. now rewrite IH.
  - cbn [app]. now rewrite replace2_cons_other, IH.
Qed.

Lemma unescape_quotes s :
  forallb (fun c => negb (c =? 92)) s = true ->
  replace2 92 dquote [dquote] (escape_quotes s) = s.
Proof.
  induction s as [|c s IH]; [reflexivity|]. cbn [forallb].
  intros H. apply andb_prop in H as [Hc Hs]. apply negb_true_iff in Hc.
  rewrite escape_quotes_cons. destruct (c =? dquote) eqn:Eq.
  - apply N.eqb_eq in Eq. subst c. cbn [app]. rewrite replace2_pair.
    rewrite N.eqb_refl. cbn [app]. now rewrite IH.
  - cbn [app]. now rewrite replace2_cons_other, IH.
Qed.

Lemma quoteString_plain s :
  forallb (fun c => negb (c =? 92)) s = true ->
  quoteString s = dquote :: escape_quotes s ++ [dquote].
Proof.
  intros H. unfold quoteString. now rewrite (replace1_none 92) by assumption.
Qed.

Lemma parseQuotedString_quoteString s :
  forallb (fun c => negb (c =? 92)) s = true ->
  parseQuotedString (quoteString s) = s.
Proof.
  intros H. rewrite quoteString_plain by assumption. unfold parseQuotedString.
  change (dquote :: escape_quotes s ++ [dquote])
    with ((dquote :: escape_quotes s) ++ [dquote]).
  rewrite endsWith_last.
  change ((dquote :: escape_quotes s) ++ [dquote])
    with (dquote :: escape_quotes s ++ [dquote]).
  cbn [startsWith]. rewrite N.eqb_refl, startsWith_nil. cbn [andb].
  rewrite slice_1_m1_wrap, unescape_newline, unescape_quotes by assumption.
  now apply replace2_none.
Qed.

(** A string that is written bare and read as something else: a keyword or
    a number literal. *)
Definition reads_as_other (s : jstring) : bool :=
  jstr_eqb s (js "null") || jstr_eqb s (js "true") || jstr_eqb s (js "True")
  || jstr_eqb s (js "false") || jstr_eqb s (js "False")
  || is_int_literal s || is_float_literal s.

Lemma bare_text_facts s :
  needsQuoting s = false ->
  s <> [] /\ forallb is_bare_char s = true /\ trim s = s.
Proof.
  unfold needsQuoting. intros H.
  apply orb_false_elim in H as [H He]. apply orb_false_elim in H as [H _].
  apply negb_false_iff in H. apply andb_prop in H as [_ Hb].
  apply jstr_eqb_false in He. split; [exact He|]. split; [exact Hb|].
  apply tight_trim.
  - destruct s as [|c s]; [reflexivity|]. cbn [forallb] in Hb.
    apply andb_prop in Hb as [Hc _]. apply bare_char_facts in Hc as (_ & Hw & _).
    cbn. now rewrite Hw.
  - unfold ends_tight. rewrite <- forallb_rev in Hb.
    destruct (rev s) as [|c r]; [reflexivity|]. cbn [forallb] in Hb.
    apply andb_prop in Hb as [Hc _]. apply bare_char_facts in Hc as (_ & Hw & _).
    cbn. now rewrite Hw.
Qed.

(** X4.  A string without backslashes comes back from [parseScalar] as it
    went into [serializeScalar], unless it is written bare and is a keyword
    or a number literal. *)
Theorem parseScalar_serializeScalar_string s :
  forallb (fun c => negb (c =? 92)) s = true ->
  needsQuoting s || negb (reads_as_other s) = true ->
  parseScalar (serializeScalar (VStr s)) = Ok (VStr s).
Proof.
  intros Hb Hq. cbn [serializeScalar]. rewrite parseScalar_unfold. cbv zeta.
  destruct (needsQuoting s) eqn:Hn.
  - pose proof (parseQuotedString_quoteString s Hb) as Hp.
    rewrite quoteString_plain in * by assumption.
    rewrite wrapped_tight by reflexivity. no_keyword.
    replace (is_int_literal (dquote :: escape_quotes s ++ [dquote])) with false
      by reflexivity.
    replace (is_float_literal (dquote :: escape_quotes s ++ [dquote])) with false
      by reflexivity.
    unfold is_quoted.
    change (dquote :: escape_quotes s ++ [dquote])
      with ((dquote :: escape_quotes s) ++ [dquote]) at 2.
    rewrite endsWith_last. cbn [startsWith].
    rewrite N.eqb_refl, startsWith_nil. cbn [andb orb]. now rewrite Hp.
  - cbn [orb] in Hq. apply negb_true_iff in Hq. unfold reads_as_other in Hq.
    repeat (apply orb_false_elim in Hq as [Hq ?]).
    destruct (bare_text_facts s Hn) as (Hne & Hbare & ->).
    destruct s as [|c s]; [congruence|]. cbn [forallb] in Hbare.
    apply andb_prop in Hbare as [Hc _]. apply bare_char_range in Hc.
    replace (jstr_eqb (c :: s) []) with false by reflexivity.
    replace (jstr_eqb (c :: s) (js "~")) with false.
    2:{ symmetry. apply jstr_eqb_false. intros E.
        apply (f_equal (hd 0)) in E. vm_compute in E. subst c. lia. }
    repeat match goal with H : _ = false |- _ => rewrite H; clear H end.
    cbn [orb].
    assert (Hhead : forall d, (d < 45 \/ d = 91 \/ d = 123) ->
              startsWith (c :: s) [d] = false).
    { intros d Hd. cbn [startsWith]. replace (d =? c) with false; [reflexivity|].
      symmetry. apply N.eqb_neq. clear - Hc Hd. lia. }
    unfold is_quoted.
    rewrite (Hhead dquote), (Hhead (ch "'")), (Hhead (ch "[")), (Hhead (ch "{"))
      by (first [left; reflexivity | right; left; reflexivity
                 | right; right; reflexivity]).
    reflexivity.
Qed.

Lemma parseScalar_serializeScalar_string_witness :
  parseScalar (serializeScalar (VStr (js "living room: 1")))
  = Ok (VStr (js "living room: 1"))
  /\ parseScalar (serializeScalar (VStr (js "kitchen")))
     = Ok (VStr (js "kitchen")).
Proof.
  split.
  - apply (parseScalar_serializeScalar_string (js "living room: 1")); reflexivity.
  - apply (parseScalar_serializeScalar_string (js "kitchen")); reflexivity.
Defined.

(** ** parseInlineObject *)

(** X5.  A flow mapping is read fragment by fragment; the first fragment
    without a colon stops it with an error that names the fragment, once
    the fragments before it have been read. *)
Theorem parseInlineObject_fragment_without_colon body good bad rest :
  isWhitespaceOnly body = false ->
  splitTopLevel body (ch ",") = good ++ bad :: rest ->
  Forall (fun p => exists i v,
            indexOf (ch ":") p = Some i
            /\ parseScalar (trim (drop (S i) p)) = Ok v) good ->
  indexOf (ch ":") bad = None ->
  parseInlineObject body = Err (InvalidInlineFragment bad).
Proof.
  intros Hws Hsplit Hgood Hbad.
  unfold parseInlineObject, parseInlineObject_with. rewrite Hws, Hsplit.
  clear Hsplit. generalize (@nil (jstring * value)).
  induction Hgood as [|p good (i & v & Hi & Hv) _ IH]; intros obj.
  - cbn [app parseInlineObject_parts]. now rewrite Hbad.
  - cbn [app parseInlineObject_parts]. rewrite Hi, Hv. cbn [bind]. apply IH.
Qed.

Lemma parseInlineObject_fragment_without_colon_witness :
  parseInlineObject (js "a: 1, b, c: 2") = Err (InvalidInlineFragment (js "b")).
Proof.
  apply (parseInlineObject_fragment_without_colon (js "a: 1, b, c: 2")
           [js "a: 1"] (js "b") [js "c: 2"]).
  - reflexivity.
  - reflexivity.
  - repeat constructor. exists 1%nat, (VNum (number_of_Z false 1)).
    split; reflexivity.
  - reflexivity.
Defined.

(** ** parseYAML: blank documents and first lines *)

Lemma process_lines_blank index lines stack :
  Forall (fun l => isWhitespaceOnly l = true) lines ->
  process_lines index lines stack = Ok stack.
Proof.
  intros H. revert index. induction H as [|l lines Hl _ IH]; intros index.
  - reflexivity.
  - cbn [process_lines]. unfold process_line. rewrite Hl. cbn [bind]. apply IH.
Qed.

(** X6.  A document that has only blank lines and comments, the empty
    document included, parses to the empty mapping. *)
Theorem parseYAML_blank text :
  Forall (fun l => isWhitespaceOnly l = true) (filteredLines text) ->
  parseYAML text = Ok (VObj []).
Proof.
  intros H. unfold parseYAML. now rewrite process_lines_blank.
Qed.

Lemma parseYAML_blank_witness :
  parseYAML [] = Ok (VObj [])
  /\ parseYAML (text [js "# rooms"; []; js "   # none yet"; [9]]) = Ok (VObj []).
Proof.
  split.
  - apply (parseYAML_blank []). repeat constructor.
  - apply (parseYAML_blank (text [js "# rooms"; []; js "   # none yet"; [9]])).
    vm_compute. repeat constructor.
Defined.

Lemma process_lines_error index lines stack e :
  (exists blanks line rest,
      lines = blanks ++ line :: rest
      /\ Forall (fun l => isWhitespaceOnly l = true) blanks
      /\ process_line (index + length blanks) line stack = Err e) ->
  process_lines index lines stack = Err e.
Proof.
  intros (blanks & line & rest & -> & Hb & He).
  rewrite process_lines_app, process_lines_blank by assumption.
  cbn [bind process_lines]. now rewrite He.
Qed.

(** X7.  The first line that is not blank has to be a mapping entry: a
    list item there is rejected as unexpected, and a line without a colon
    as not parsable, each with the number of the line. *)
Theorem parseYAML_first_line text blanks line rest :
  filteredLines text = blanks ++ line :: rest ->
  Forall (fun l => isWhitespaceOnly l = true) blanks ->
  isWhitespaceOnly line = false ->
  (startsWith (trim line) [ch "-"] = true ->
   parseYAML text = Err (UnexpectedListItem (length blanks + 1)))
  /\ (startsWith (trim line) [ch "-"] = false ->
      indexOf (ch ":") (trim line) = None ->
      parseYAML text = Err (UnableToParseLine (length blanks + 1) (trim line))).
Proof.
  intros Hlines Hblanks Hline.
  assert (Herr : forall e,
            process_line (0 + length blanks) line [root_frame] = Err e ->
            parseYAML text = Err e).
  { intros e He. unfold parseYAML.
    rewrite (process_lines_error 0 (filteredLines text) [root_frame] e);
      [reflexivity|]. exists blanks, line, rest. auto. }
  split.
  - intros Hdash. apply Herr. unfold process_line. rewrite Hline.
    cbn [length pop_while resolve_pending root_frame f_pending bind].
    rewrite Hdash. reflexivity.
  - intros Hdash Hcolon. apply Herr. unfold process_line. rewrite Hline.
    cbn [length pop_while resolve_pending root_frame f_pending bind].
    rewrite Hdash. unfold mapping_entry. now rewrite Hcolon.
Qed.

Lemma parseYAML_first_line_witness :
  parseYAML (text [js "# cards"; js "- type: grid"]) = Err (UnexpectedListItem 2)
  /\ parseYAML (text [js "grid"]) = Err (UnableToParseLine 1 (js "grid")).
Proof.
  split.
  - destruct (parseYAML_first_line (text [js "# cards"; js "- type: grid"])
                [[]] (js "- type: grid") []) as [H _];
      [reflexivity|repeat constructor|reflexivity|].
    apply H. reflexivity.
  - destruct (parseYAML_first_line (text [js "grid"]) [] (js "grid") [])
      as [_ H]; [reflexivity|constructor|reflexivity|].
    apply H; reflexivity.
Defined.

(** ** parseYAML: line ends and the kind of the result *)

Lemma normalize_newlines_no_cr s :
  forallb (fun c => negb (c =? 13)) (normalize_newlines s) = true.
Proof.
  remember (length s) as n eqn:Hn. revert s Hn.
  induction n as [n IH] using lt_wf_ind. intros s Hn.
  destruct s as [|c s]; [reflexivity|]. cbn [normalize_newlines].
  destruct (c =? 13) eqn:Ec.
  - destruct s as [|d s]; [reflexivity|].
    destruct (d =? 10); cbn [forallb]; replace (10 =? 13) with false by reflexivity;
      cbn [negb andb]; eapply IH; try reflexivity; subst n; simpl; lia.
  - cbn [forallb]. rewrite Ec. cbn [negb andb].
    eapply IH; [|reflexivity]. subst n. simpl. lia.
Qed.

(** X8.  Lines may end in CR LF, CR or LF: a text and the same text with
    its line ends normalised parse alike. *)
Theorem parseYAML_line_ends text :
  filteredLines (normalize_newlines text) = filteredLines text
  /\ parseYAML (normalize_newlines text) = parseYAML text.
Proof.
  assert (E : filteredLines (normalize_newlines text) = filteredLines text).
  { unfold filteredLines.
    now rewrite (normalize_newlines_none (normalize_newlines text))
      by apply normalize_newlines_no_cr. }
  split; [exact E|]. unfold parseYAML. now rewrite E.
Qed.

(** A frame holds a container of its own kind. *)
Definition frame_ok (f : frame) : Prop :=
  match f_type f, f_container f with
  | TObject, VObj _ | TArray, VArr _ => True
  | _, _ => False
  end.

(** Every frame is of its kind and the frame at the bottom is a mapping. *)
Definition stack_ok (s : list frame) : Prop :=
  Forall frame_ok s /\ f_type (List.last s root_frame) = TObject.

Lemma write_back_type child parent :
  f_type (write_back child parent) = f_type parent.
Proof.
  unfold write_back.
  destruct (f_slot child), (f_container parent); try reflexivity.
  now destruct (array_index k).
Qed.

Lemma write_back_ok child parent :
  frame_ok parent -> frame_ok (write_back child parent).
Proof.
  unfold write_back, frame_ok.
  destruct (f_slot child), (f_container parent) eqn:Ec; try (now rewrite Ec);
    try (destruct (array_index k); [|now rewrite Ec]); cbn; now destruct (f_type parent).
Qed.

Lemma container_set_ok key v f c :
  frame_ok f -> container_set key v (f_container f) = Ok c ->
  frame_ok (set_container c f).
Proof.
  unfold frame_ok, container_set. cbn [set_container f_type f_container].
  destruct (f_type f), (f_container f); try contradiction; intros _.
  - now intros [= <-].
  - destruct (array_index key).
    + destruct (bool_decide _); [now intros [= <-]|discriminate].
    + destruct (jstr_eqb key (js "length")); [discriminate|now intros [= <-]].
Qed.

Lemma last_top (top top' : frame) rest :
  f_type top' = f_type top ->
  f_type (List.last (top' :: rest) root_frame)
  = f_type (List.last (top :: rest) root_frame).
Proof. intros H. destruct rest; [exact H|reflexivity]. Qed.

Lemma stack_ok_top top top' rest :
  frame_ok top' -> f_type top' = f_type top ->
  stack_ok (top :: rest) -> stack_ok (top' :: rest).
Proof.
  intros Hok Hty [HF Hl]. split.
  - inversion HF; now constructor.
  - now rewrite (last_top top top').
Qed.

Lemma stack_ok_push child top rest :
  frame_ok child -> stack_ok (top :: rest) -> stack_ok (child :: top :: rest).
Proof. intros Hc [HF Hl]. split; [now constructor|exact Hl]. Qed.

Lemma stack_ok_pop s : stack_ok s -> stack_ok (pop s).
Proof.
  destruct s as [|top [|parent rest]]; try (intros H; exact H).
  intros [HF Hl]. inversion HF as [|? ? _ HF']. subst. cbn [pop].
  apply (stack_ok_top parent).
  - apply write_back_ok. now inversion HF'.
  - apply write_back_type.
  - split; assumption.
Qed.

Lemma stack_ok_pop_while fuel indent s :
  stack_ok s -> stack_ok (pop_while fuel indent s).
Proof.
  revert s. induction fuel as [|f IH]; intros s H; [exact H|].
  cbn [pop_while]. destruct s as [|top [|parent rest]]; try exact H.
  destruct (indent <=? f_indent top)%Z; [|exact H].
  apply IH. now apply stack_ok_pop.
Qed.

Lemma stack_ok_open_child ty key indent top rest s :
  stack_ok (top :: rest) -> open_child ty key indent top rest = Ok s ->
  stack_ok s.
Proof.
  intros H. unfold open_child.
  destruct (container_set key _ (f_container top)) as [c|] eqn:Ec; [|discriminate].
  cbn [bind]. intros [= <-].
  apply stack_ok_push; [now destruct ty|].
  apply (stack_ok_top top); [|reflexivity|exact H].
  destruct H as [HF _]. inversion HF as [|? ? Htop _]. subst.
  apply (container_set_ok _ _ _ _ Htop) in Ec. exact Ec.
Qed.

Lemma stack_ok_push_item v child top rest s :
  (child <> None -> isRecord v = true) ->
  stack_ok (top :: rest) -> push_item v child top rest = Ok s -> stack_ok s.
Proof.
  intros Hv H. unfold push_item.
  destruct (f_container top) as [| | | |l|] eqn:Ec; try discriminate.
  assert (Htop : stack_ok (set_container (VArr (l ++ [v])) top :: rest)).
  { apply (stack_ok_top top); [|reflexivity|exact H].
    destruct H as [HF _]. inversion HF as [|? ? Htop _]. subst.
    unfold frame_ok in *. cbn [set_container f_type f_container].
    rewrite Ec in Htop. now destruct (f_type top). }
  destruct child as [[indent p]|]; intros [= <-]; [|exact Htop].
  apply stack_ok_push; [|exact Htop].
  unfold frame_ok. cbn [f_type f_container].
  specialize (Hv ltac:(discriminate)). now destruct v.
Qed.

Lemma stack_ok_process_line index rawLine s s' :
  stack_ok s -> process_line index rawLine s = Ok s' -> stack_ok s'.
Proof.
  intros H. unfold process_line.
  destruct (isWhitespaceOnly rawLine); [now intros [= <-]|].
  set (indent := Z.of_nat (length (takeWhile is_ws rawLine))).
  pose proof (stack_ok_pop_while (length s) indent s H) as H1.
  destruct (resolve_pending indent (trim rawLine) (pop_while (length s) indent s))
    as [s2|] eqn:Er; [|discriminate].
  cbn [bind].
  assert (H2 : stack_ok s2).
  { unfold resolve_pending in Er.
    destruct (pop_while (length s) indent s) as [|top rest]; [discriminate|].
    destruct (f_pending top) as [p|]; [|now injection Er as <-].
    destruct (pindent p <? indent)%Z.
    - destruct (startsWith (trim rawLine) [ch "-"]);
        eapply stack_ok_open_child; eassumption.
    - injection Er as <-. apply (stack_ok_top top); [|reflexivity|exact H1].
      destruct H1 as [HF _]. now inversion HF. }
  clear Er H1 H. destruct (startsWith (trim rawLine) [ch "-"]).
  - unfold list_item. destruct s2 as [|frame0 rest0]; [discriminate|].
    destruct (match f_type frame0 with
              | TObject => _
              | TArray => _
              end) as [s3|] eqn:E3; [|discriminate].
    cbn [bind].
    assert (H3 : stack_ok s3).
    { destruct (f_type frame0); [|now injection E3 as <-].
      destruct (f_pending frame0) as [p|]; [|discriminate].
      eapply stack_ok_open_child; eassumption. }
    clear E3 H2. destruct s3 as [|frame rest]; [discriminate|].
    destruct (f_type frame); [discriminate|].
    destruct (jstr_eqb (trim (drop 1 (trim rawLine))) []).
    { apply stack_ok_push_item; [reflexivity|exact H3]. }
    destruct (includes [ch ":"] (trim (drop 1 (trim rawLine)))).
    + destruct (indexOf (ch ":") (trim (drop 1 (trim rawLine)))) as [colonIndex|];
        [|discriminate].
      destruct (jstr_eqb (trim (drop (S colonIndex) (trim (drop 1 (trim rawLine))))) []).
      { apply stack_ok_push_item; [reflexivity|exact H3]. }
      destruct (parseScalar _) as [v|]; [|discriminate]. cbn [bind].
      apply stack_ok_push_item; [reflexivity|exact H3].
    + destruct (parseScalar _) as [v|]; [|discriminate]. cbn [bind].
      apply stack_ok_push_item; [intros Hn; now contradiction Hn|exact H3].
  - unfold mapping_entry. destruct s2 as [|frame rest]; [discriminate|].
    destruct (indexOf (ch ":") (trim rawLine)) as [colonIndex|]; [|discriminate].
    destruct (jstr_eqb (trim (drop (S colonIndex) (trim rawLine))) []).
    + intros [= <-]. apply (stack_ok_top frame); [|reflexivity|exact H2].
      destruct H2 as [HF _]. now inversion HF.
    + destruct (parseScalar _) as [v|]; [|discriminate]. cbn [bind].
      destruct (container_set _ v (f_container frame)) as [c|] eqn:Ec;
        [|discriminate].
      cbn [bind]. intros [= <-].
      apply (stack_ok_top frame); [|reflexivity|exact H2].
      destruct H2 as [HF _]. inversion HF as [|? ? Hf _]. subst.
      exact (container_set_ok _ _ _ _ Hf Ec).
Qed.

Lemma stack_ok_process_lines lines index s s' :
  stack_ok s -> process_lines index lines s = Ok s' -> stack_ok s'.
Proof.
  revert index s. induction lines as [|l lines IH]; intros index s H.
  - now intros [= <-].
  - cbn [process_lines].
    destruct (process_line index l s) as [s1|] eqn:E; [|discriminate].
    cbn [bind]. apply IH. eapply stack_ok_process_line; eassumption.
Qed.

Lemma stack_ok_unwind fuel s s' :
  stack_ok s -> unwind fuel s = Ok s' -> stack_ok s'.
Proof.
  revert s. induction fuel as [|f IH]; intros s H; [now intros [= <-]|].
  cbn [unwind]. destruct s as [|top [|parent rest]]; try (now intros [= <-]).
  pose proof (stack_ok_pop _ H) as Hp. cbn [pop] in Hp.
  destruct (f_pending top) as [p|]; [|now apply IH].
  destruct (container_set (pkey p) (VObj []) (f_container (write_back top parent)))
    as [c|] eqn:Ec; [|discriminate].
  cbn [bind]. apply IH.
  apply (stack_ok_top (write_back top parent)); [|reflexivity|exact Hp].
  destruct Hp as [HF _]. inversion HF as [|? ? Hf _]. subst.
  exact (container_set_ok _ _ _ _ Hf Ec).
Qed.

(** X9.  Whatever the document, a tree that [parseYAML] returns is a
    mapping: never a sequence, never a scalar. *)
Theorem parseYAML_returns_mapping text v :
  parseYAML text = Ok v -> isRecord v = true.
Proof.
  unfold parseYAML.
  destruct (process_lines 0 (filteredLines text) [root_frame]) as [s|] eqn:E1;
    [|discriminate].
  cbn [bind]. destruct (unwind (length s) s) as [s'|] eqn:E2; [|discriminate].
  cbn [bind]. destruct s' as [|root [|? ?]]; try discriminate.
  intros [= <-].
  assert (H : stack_ok [root]).
  { eapply stack_ok_unwind; [|exact E2].
    eapply stack_ok_process_lines; [|exact E1].
    split; [repeat constructor|reflexivity]. }
  destruct H as [HF Hl]. inversion HF as [|? ? Hroot _]. subst.
  cbn [List.last] in Hl. unfold frame_ok in Hroot. rewrite Hl in Hroot.
  now destruct (f_container root).
Qed.

Lemma parseYAML_returns_mapping_witness :
  isRecord (VObj [(js "cards", VArr [VStr (js "a")])]) = true.
Proof.
  apply (parseYAML_returns_mapping (text [js "cards:"; js "  - a"])).
  vm_compute. reflexivity.
Defined.

(** ** The matcher *)

(** X10.  Under one of the three strategies [findExistingStack] does not
    throw; the index is [null] exactly when no slot matches, and then there
    are no duplicates; otherwise index and duplicates are the matching
    positions, all of them inside the cards sequence. *)
Theorem findExistingStack_positions `{Runtime} (grid : value)
    (cards : list value) (room areaId : jstring) (strategy : value) :
  get "cards" grid = Some (VArr cards) ->
  valid_strategy strategy = true ->
  exists index dups,
    findExistingStack grid room areaId strategy = Ok (index, dups)
    /\ (index = None <-> matching_positions cards room areaId strategy = [])
    /\ (index = None -> dups = [])
    /\ (forall i, index = Some i ->
        matching_positions cards room areaId strategy = i :: dups)
    /\ Forall (fun i => i < length cards)%nat
         (matching_positions cards room areaId strategy).
Proof.
  intros Hc Hv. rewrite matching_positions_from.
  pose proof (matches_from_bound cards 0 room areaId strategy) as Hb.
  unfold findExistingStack. rewrite Hc.
  destruct grid; try discriminate.
  rewrite findExistingStack_loop_valid by assumption.
  destruct (matches_from cards 0 room areaId strategy) as [|i rest].
  - exists None, []. repeat split; auto; discriminate.
  - exists (Some i), rest. cbn [app]. repeat split; auto; try discriminate.
    now intros ? [= <-].
Qed.

Lemma findExistingStack_positions_witness :
  exists index dups,
    @findExistingStack example_runtime (VObj [(js "cards", VArr three_popups)])
      (js "Attic") (js "attic") (VStr (js "name")) = Ok (index, dups)
    /\ (index = None <->
        @matching_positions example_runtime three_popups (js "Attic") (js "attic")
          (VStr (js "name")) = [])
    /\ (index = None -> dups = [])
    /\ (forall i, index = Some i ->
        @matching_positions example_runtime three_popups (js "Attic") (js "attic")
          (VStr (js "name")) = i :: dups)
    /\ Forall (fun i => i < length three_popups)%nat
         (@matching_positions example_runtime three_popups (js "Attic")
            (js "attic") (VStr (js "name"))).
Proof.
  apply (@findExistingStack_positions example_runtime
           (VObj [(js "cards", VArr three_popups)]) three_popups);
    reflexivity.
Defined.

Lemma findExistingStack_loop_json `{Runtime} cards index dn dh areaId strategy
    found dups :
  findExistingStack_loop (map json_roundtrip cards) index dn dh areaId strategy
    found dups
  = findExistingStack_loop cards index dn dh areaId strategy found dups.
Proof.
  revert index found dups.
  induction cards as [|c cards IH]; intros index found dups; [reflexivity|].
  cbn [map findExistingStack_loop].
  rewrite isBubblePopup_json_roundtrip, strategy_match_json_roundtrip.
  destruct (negb (isBubblePopup c)); [apply IH|].
  destruct (strategy_match c dn dh areaId strategy) as [[|]|]; cbn [bind];
    [destruct found| |]; auto.
Qed.

(** X11.  Matching on the deep clone of a grid gives what matching on
    the grid gives, the thrown error included. *)
Theorem findExistingStack_deepClone `{Runtime} (grid : value)
    (room areaId : jstring) (strategy : value) :
  isRecord grid = true ->
  findExistingStack (deepClone grid) room areaId strategy
  = findExistingStack grid room areaId strategy.
Proof.
  intros Hrec. unfold deepClone.
  destruct has_structuredClone; [reflexivity|].
  destruct grid as [| | | | |props]; try discriminate.
  unfold findExistingStack.
  change (json_roundtrip (VObj props))
    with (VObj (map (fun kv => (fst kv, json_roundtrip (snd kv))) props)).
  cbn [get]. rewrite obj_get_map_values.
  destruct (obj_get (js "cards") props) as [[| |n| |cards|]|];
    try reflexivity.
  - now destruct n.
  - cbn [option_map json_roundtrip]. apply findExistingStack_loop_json.
Qed.

Lemma findExistingStack_deepClone_witness :
  @findExistingStack example_runtime
    (@deepClone example_runtime (VObj [(js "cards", VArr three_popups)]))
    (js "bath") (js "bath") (VStr (js "name"))
  = @findExistingStack example_runtime (VObj [(js "cards", VArr three_popups)])
      (js "bath") (js "bath") (VStr (js "name")).
Proof.
  apply (@findExistingStack_deepClone example_runtime
           (VObj [(js "cards", VArr three_popups)])).
  reflexivity.
Defined.

(** X12.  An area that [extractAreaFromNode] finds is in the node: it is
    the text of a field [area], or of the field [area_id] of a field
    [target], of some mapping inside the node. *)
Theorem extractAreaFromNode_sound (node : value) (a : jstring) :
  extractAreaFromNode node = Some a ->
  exists k x,
    field_of node k x
    /\ ((k = js "area" /\ x = VStr a)
        \/ (k = js "target" /\ get "area_id" x = Some (VStr a))).
Proof.
  revert a.
  induction node as [| b | n | s | items IH | props IH] using value_induction;
    intros a; try discriminate.
  - cbn [extractAreaFromNode].
    induction IH as [|c items Hc _ IHitems]; [discriminate|].
    destruct (extractAreaFromNode c) as [[|x0 e]|] eqn:Ec.
    + intros Hrest. destruct (IHitems Hrest) as (k & x & Hf & Hk).
      exists k, x. split; [|exact Hk].
      inversion Hf as [| |? c' ? ? Hin Hc']; subst.
      eapply field_in_arr; [right; exact Hin|exact Hc'].
    + intros [= <-]. destruct (Hc _ eq_refl) as (k & x & Hf & Hk).
      exists k, x. split; [|exact Hk].
      eapply field_in_arr; [left; reflexivity|exact Hf].
    + intros Hrest. destruct (IHitems Hrest) as (k & x & Hf & Hk).
      exists k, x. split; [|exact Hk].
      inversion Hf as [| |? c' ? ? Hin Hc']; subst.
      eapply field_in_arr; [right; exact Hin|exact Hc'].
  - cbn [extractAreaFromNode].
    set (direct := match obj_get (js "area") props with
                   | Some (VStr a0) => Some a0
                   | _ => match obj_get (js "target") props with
                          | Some (VObj t) =>
                              match obj_get (js "area_id") t with
                              | Some (VStr a0) => Some a0
                              | _ => None
                              end
                          | _ => None
                          end
                   end).
    assert (Hdirect : forall a0, direct = Some a0 ->
      exists k x, field_of (VObj props) k x
                  /\ ((k = js "area" /\ x = VStr a0)
                      \/ (k = js "target" /\ get "area_id" x = Some (VStr a0)))).
    { subst direct. intros a0 H0.
      assert (Hwhere :
        obj_get (js "area") props = Some (VStr a0)
        \/ exists t, obj_get (js "target") props = Some (VObj t)
                     /\ obj_get (js "area_id") t = Some (VStr a0)).
      { repeat match type of H0 with
               | match ?x with _ => _ end = Some _ => destruct x eqn:?
               end; try discriminate; injection H0 as <-; eauto. }
      destruct Hwhere as [Ha|(t & Ht & Hid)].
      - exists (js "area"), (VStr a0).
        split; [constructor; now apply obj_get_In|now left].
      - exists (js "target"), (VObj t).
        split; [constructor; now apply obj_get_In|right; now split]. }
    destruct direct as [a0|]; [intros [= <-]; now apply Hdirect|].
    clear Hdirect.
    assert (Hsub : forall l,
      (forall kv, In kv l -> In kv props) ->
      Forall (fun kv => forall a0, extractAreaFromNode (snd kv) = Some a0 ->
                exists k x, field_of (snd kv) k x
                  /\ ((k = js "area" /\ x = VStr a0)
                      \/ (k = js "target" /\ get "area_id" x = Some (VStr a0)))) l ->
      (fix values (l : list (jstring * value)) : option jstring :=
         match l with
         | [] => None
         | kv :: l' =>
             match extractAreaFromNode (snd kv) with
             | Some ((_ :: _) as extracted) => Some extracted
             | _ => values l'
             end
         end) l = Some a ->
      exists k x, field_of (VObj props) k x
                  /\ ((k = js "area" /\ x = VStr a)
                      \/ (k = js "target" /\ get "area_id" x = Some (VStr a)))).
    { intros l Hin HF. induction HF as [|kv l Hkv _ IHl]; [discriminate|].
      assert (Hrest : forall kv', In kv' l -> In kv' props)
        by (intros; apply Hin; now right).
      destruct (extractAreaFromNode (snd kv)) as [[|x0 e]|] eqn:Ec;
        try (intros Hr; now apply IHl).
      intros [= <-]. destruct (Hkv _ eq_refl) as (k & x & Hf & Hk).
      exists k, x. split; [|exact Hk].
      apply (field_in_obj props (fst kv) (snd kv)); [|exact Hf].
      apply Hin. left. now destruct kv. }
    apply (Hsub props); [auto|exact IH].
Qed.

Lemma extractAreaFromNode_sound_witness :
  exists k x,
    field_of (VArr [VObj [(js "target", VObj [(js "area_id", VStr (js "bath"))])]])
      k x
    /\ ((k = js "area" /\ x = VStr (js "bath"))
        \/ (k = js "target" /\ get "area_id" x = Some (VStr (js "bath")))).
Proof.
  apply (extractAreaFromNode_sound
           (VArr [VObj [(js "target", VObj [(js "area_id", VStr (js "bath"))])]])).
  reflexivity.
Defined.

(** ** The placeholder pass *)

(** The four texts the placeholder pass looks for. *)
Definition token (s : jstring) : bool :=
  jstr_eqb s (js "__AREA_NAME__") || jstr_eqb s (js "__AREA_ID__")
  || jstr_eqb s (js "__HASH__") || jstr_eqb s (js "__ICON__").

Fixpoint token_free (v : value) : bool :=
  match v with
  | VStr s => negb (token s)
  | VArr items => forallb token_free items
  | VObj props => forallb (fun kv => token_free (snd kv)) props
  | _ => true
  end.

Lemma placeholder_visitor_idle room areaId icon v ctx st :
  token_free v = true ->
  placeholder_visitor room areaId icon v ctx st = (None, v, st).
Proof.
  destruct v as [| | |s| |]; try reflexivity. cbn [token_free].
  intros H. apply negb_true_iff in H. unfold token in H.
  repeat (apply orb_false_elim in H as [H ?]).
  unfold placeholder_visitor, replacements.
  repeat match goal with H : _ = false |- _ => rewrite H; clear H end.
  cbn [andb]. now destruct icon, ctx.
Qed.

Lemma traverse_token_free room areaId icon fuel node ctx st :
  (depth node < fuel)%nat -> token_free node = true ->
  traverse fuel (placeholder_visitor room areaId icon) node ctx st
  = Ok (node, st).
Proof.
  revert node ctx st. induction fuel as [|f IH]; intros node ctx st Hd Ht; [lia|].
  cbn [traverse]. rewrite placeholder_visitor_idle by assumption.
  destruct node as [| | | |items|props]; try reflexivity.
  - assert (E : forall i, each_item (traverse f (placeholder_visitor room areaId icon))
                            items i st = Ok (items, st)).
    { cbn [token_free] in Ht.
      assert (Hdi : forall c, In c items -> (depth c < f)%nat)
        by (intros c Hc; apply depth_In_arr in Hc; lia).
      clear Hd. induction items as [|c items IHi]; intros i; [reflexivity|].
      cbn [forallb] in Ht. apply andb_prop in Ht as [Hc Hi].
      cbn [each_item]. rewrite IH by (auto; apply Hdi; now left).
      cbn [bind snd fst]. rewrite IHi by (auto; intros; apply Hdi; now right).
      reflexivity. }
    now rewrite E.
  - assert (E : each_entry (traverse f (placeholder_visitor room areaId icon))
                  props st = Ok (props, st)).
    { cbn [token_free] in Ht.
      assert (Hdi : forall k c, In (k, c) props -> (depth c < f)%nat)
        by (intros k c Hc; apply depth_In_obj in Hc; lia).
      clear Hd. induction props as [|[k c] props IHp]; [reflexivity|].
      cbn [forallb snd] in Ht. apply andb_prop in Ht as [Hc Hp].
      cbn [each_entry snd fst].
      rewrite IH by (auto; apply (Hdi k); now left).
      cbn [bind snd fst]. rewrite IHp by (auto; intros; eapply Hdi; right; eauto).
      reflexivity. }
    now rewrite E.
Qed.

Lemma token_free_json_roundtrip v :
  token_free (json_roundtrip v) = token_free v.
Proof.
  induction v as [| b | n | s | items IH | props IH] using value_induction;
    try reflexivity.
  - now destruct n.
  - cbn [json_roundtrip token_free].
    induction IH as [|c items Hc _ IHi]; [reflexivity|].
    cbn [map forallb]. now rewrite Hc, IHi.
  - cbn [json_roundtrip token_free].
    induction IH as [|kv props Hc _ IHp]; [reflexivity|].
    cbn [map forallb snd]. now rewrite Hc, IHp.
Qed.

(** X13.  On a tree that holds none of the four placeholder texts, and no
    text that names a member of [Object.prototype] (such a text finds the
    member in [replacements] and is replaced by it), the placeholder pass
    changes nothing and reports nothing, whatever the room, the area and
    the icon; [deepApplyTemplate] is then the heuristic pass on the clone.
    [Object.prototype] is taken to have no enumerable property, as it
    has when the program starts. *)
Theorem replacePlaceholders_token_free `{Runtime} (template : value)
    (room areaId : jstring) (iconMap : option (gmap jstring jstring)) :
  token_free template = true ->
  plain_tree template = true ->
  (forall icon,
      replacePlaceholders template room areaId icon
      = Ok (template, (false, false)))
  /\ deepApplyTemplate template room areaId iconMap
     = (stack <- applyHeuristics (deepClone template) room areaId ;;
        Ok {| a_stack := stack; a_replacedPlaceholders := false;
              a_iconApplied := false |}).
Proof.
  intros Ht _. split.
  - intros icon. unfold replacePlaceholders.
    now apply traverse_token_free; [lia|].
  - unfold deepApplyTemplate, replacePlaceholders.
    rewrite traverse_token_free; [reflexivity|lia|].
    unfold deepClone. destruct has_structuredClone; [exact Ht|].
    now rewrite token_free_json_roundtrip.
Qed.

Lemma replacePlaceholders_token_free_witness :
  (forall icon,
      replacePlaceholders bare_template (js "Bath") (js "bath") icon
      = Ok (bare_template, (false, false)))
  /\ @deepApplyTemplate example_runtime bare_template (js "Bath") (js "bath") None
     = (stack <- applyHeuristics (@deepClone example_runtime bare_template)
                   (js "Bath") (js "bath") ;;
        Ok {| a_stack := stack; a_replacedPlaceholders := false;
              a_iconApplied := false |}).
Proof.
  apply (@replacePlaceholders_token_free example_runtime bare_template);
    reflexivity.
Defined.

(** ** replaceOrAppend *)

Lemma replaceOrAppend_spec (grid : value) (cards : list value)
    (index : option nat) (stack insertMode : value) :
  get "cards" grid = Some (VArr cards) ->
  (forall i, index = Some i -> (i < length cards)%nat) ->
  exists grid' cards',
    let j := match index with Some i => i | None => length cards end in
    replaceOrAppend grid index stack insertMode = Ok (grid', j)
    /\ get "cards" grid' = Some (VArr cards')
    /\ cards' !! j = Some stack
    /\ (forall k, k <> j -> cards' !! k = cards !! k)
    /\ length cards'
       = match index with Some _ => length cards | None => S (length cards) end
    /\ (forall key, js key <> js "cards" -> get key grid' = get key grid).
Proof.
  intros Hc Hi. destruct grid as [| | | | |props]; try discriminate.
  assert (Hfield : forall cards' (key : string),
            get "cards" (set_field "cards" (VArr cards') (VObj props))
            = Some (VArr cards')
            /\ (js key <> js "cards" ->
                get key (set_field "cards" (VArr cards') (VObj props))
                = get key (VObj props))).
  { intros cards' key. cbn [set_field get]. split.
    - apply obj_get_set_same. discriminate.
    - intros Hk. now apply obj_get_set_other. }
  unfold replaceOrAppend. rewrite Hc.
  destruct index as [i|].
  - specialize (Hi i eq_refl). exists (set_field "cards" (VArr (<[i := stack]> cards)) (VObj props)),
      (<[i := stack]> cards).
    cbv zeta. unfold set_card.
    rewrite (bool_decide_eq_true_2 _ Hi). cbn [bind].
    split; [now destruct (str_is "keep-index" insertMode)|].
    split; [apply (Hfield _ "cards"%string)|].
    split; [now apply list_lookup_insert_eq|].
    split; [intros k Hk; apply list_lookup_insert_ne; congruence|].
    split; [apply length_insert|]. intros key. apply Hfield.
  - exists (set_field "cards" (VArr (cards ++ [stack])) (VObj props)),
      (cards ++ [stack]).
    cbv zeta. rewrite length_app. cbn [length].
    replace (length cards + 1 - 1)%nat with (length cards) by lia.
    split; [reflexivity|].
    split; [apply (Hfield _ "cards"%string)|].
    split; [now rewrite lookup_app_r, Nat.sub_diag by lia|].
    split.
    + intros k Hk. destruct (Nat.lt_ge_cases k (length cards)) as [Hlt|Hge].
      * now apply lookup_app_l.
      * rewrite (lookup_ge_None_2 cards) by lia.
        apply lookup_ge_None_2. rewrite length_app. simpl. lia.
    + split; [lia|]. intros key. apply Hfield.
Qed.



(** ** processGrid: the report *)

Lemma findExistingStack_loop_invalid `{Runtime} cards index dn dh areaId strategy
    found dups :
  valid_strategy strategy = false ->
  findExistingStack_loop cards index dn dh areaId strategy found dups
  = if existsb isBubblePopup cards then Err (UnknownStrategy strategy)
    else Ok (found, dups).
Proof.
  intros Hv. revert index.
  induction cards as [|c cards IH]; intros index; [reflexivity|].
  cbn [findExistingStack_loop existsb].
  destruct (isBubblePopup c); cbn [negb orb]; [|apply IH].
  now rewrite strategy_match_invalid.
Qed.

(** The index that the matcher returns is a position of the cards. *)
Lemma findExistingStack_index_bound `{Runtime} grid cards room areaId strategy
    i dups :
  get "cards" grid = Some (VArr cards) ->
  findExistingStack grid room areaId strategy = Ok (Some i, dups) ->
  (i < length cards)%nat.
Proof.
  intros Hc. unfold findExistingStack. rewrite Hc.
  destruct grid; try discriminate.
  destruct (valid_strategy strategy) eqn:Hv.
  - rewrite findExistingStack_loop_valid by assumption.
    pose proof (matches_from_bound cards 0 room areaId strategy) as Hb.
    destruct (matches_from cards 0 room areaId strategy) as [|j rest];
      [discriminate|].
    intros [= <- _]. now inversion Hb.
  - rewrite findExistingStack_loop_invalid by assumption.
    destruct (existsb isBubblePopup cards); discriminate.
Qed.

Lemma processGrid_loop_rooms `{Runtime} rooms template opts grid report grid'
    report' :
  processGrid_loop rooms template opts grid report = Ok (grid', report') ->
  exists new,
    report' = report ++ new
    /\ map (fun e => VStr (e_room e)) new = rooms
    /\ Forall (fun e => e_areaId e = slugifyArea (e_room e)) new.
Proof.
  revert grid report. induction rooms as [|r rooms IH]; intros grid report.
  - intros [= <- <-]. exists []. now rewrite app_nil_r.
  - cbn [processGrid_loop]. destruct r as [| | |roomName| |]; try discriminate.
    destruct (findExistingStack grid roomName _ _) as [m|]; [|discriminate].
    cbn [bind].
    destruct (deepApplyTemplate template roomName _ _) as [applied|];
      [|discriminate].
    cbn [bind].
    destruct (replaceOrAppend grid (fst m) _ _) as [w|]; [|discriminate].
    cbn [bind]. intros Hloop.
    destruct (IH _ _ Hloop) as (new & -> & Hrooms & Hareas).
    eexists (_ :: new). rewrite <- app_assoc. split; [reflexivity|].
    split; [cbn [map e_room]; now rewrite Hrooms|].
    constructor; [reflexivity|exact Hareas].
Qed.

(** X15.  When [processGrid] returns, its report has one entry for each
    room of the list, in the order of the list, and the area of each entry
    is the slug of its room. *)
Theorem processGrid_report_rooms `{Runtime}
    (gridSource roomsSource templateSource : jstring) (opts : options)
    (yaml : jstring) (report : list entry) :
  processGrid gridSource roomsSource templateSource opts = Ok (yaml, report) ->
  JSON_parse roomsSource = Some (VArr (map (fun e => VStr (e_room e)) report))
  /\ Forall (fun e => e_areaId e = slugifyArea (e_room e)) report.
Proof.
  unfold processGrid.
  destruct (parseYAML gridSource) as [grid|]; [|discriminate]. cbn [bind].
  destruct (parseYAML templateSource) as [template|]; [|discriminate].
  cbn [bind].
  destruct (JSON_parse roomsSource) as [[| | | |rooms|]|]; try discriminate.
  destruct (_ || _ || _); [discriminate|].
  destruct (_ || _); [discriminate|].
  destruct (get "cards" template) as [[| | | |[|firstCard rest]|]|];
    try discriminate.
  destruct (_ || _ || _); [discriminate|].
  destruct (processGrid_loop rooms _ opts _ []) as [[g r]|] eqn:Hloop;
    [|discriminate].
  cbn [bind fst snd]. intros [= _ <-].
  destruct (processGrid_loop_rooms _ _ _ _ _ _ _ Hloop) as (new & -> & Hr & Ha).
  cbn [app]. now rewrite Hr.
Qed.

(** The indices of a report that starts with [n] slots: an update stays
    inside the slots there are, a creation takes the next free position. *)
Fixpoint indices_ok (n : nat) (report : list entry) : Prop :=
  match report with
  | [] => True
  | e :: report' =>
      match e_action e with
      | Created => e_index e = n /\ indices_ok (S n) report'
      | Updated => (e_index e < n)%nat /\ indices_ok n report'
      end
  end.

Lemma processGrid_loop_indices `{Runtime} rooms template opts grid cards report
    grid' report' :
  get "cards" grid = Some (VArr cards) ->
  processGrid_loop rooms template opts grid report = Ok (grid', report') ->
  exists new, report' = report ++ new /\ indices_ok (length cards) new.
Proof.
  revert grid cards report.
  induction rooms as [|r rooms IH]; intros grid cards report Hc.
  - intros [= <- <-]. exists []. now rewrite app_nil_r.
  - cbn [processGrid_loop]. destruct r as [| | |roomName| |]; try discriminate.
    destruct (findExistingStack grid roomName _ _) as [[index dups]|] eqn:Em;
      [|discriminate].
    cbn [bind fst snd].
    destruct (deepApplyTemplate template roomName _ _) as [applied|];
      [|discriminate].
    cbn [bind].
    assert (Hi : forall i, index = Some i -> (i < length cards)%nat).
    { intros i ->. eapply findExistingStack_index_bound; eassumption. }
    destruct (replaceOrAppend_spec grid cards index (a_stack applied)
                (o_insertMode opts) Hc Hi)
      as (g1 & cards1 & Hw & Hc1 & _ & _ & Hlen & _).
    cbv zeta in Hw. rewrite Hw. cbn [bind fst snd]. intros Hloop.
    destruct (IH _ _ _ Hc1 Hloop) as (new & -> & Hnew).
    eexists (_ :: new). rewrite <- app_assoc. split; [reflexivity|].
    cbn [indices_ok e_action e_index]. rewrite Hlen in Hnew.
    destruct index as [i|]; split; auto.
Qed.

(** X16.  The report counts the slots as they grow: an updated entry has an
    index below the number of slots at that moment, and a created entry
    has that number as its index, the slot being added at the end. *)
Theorem processGrid_report_indices `{Runtime}
    (gridSource roomsSource templateSource : jstring) (opts : options)
    (grid : value) (cards : list value) (yaml : jstring) (report : list entry) :
  parseYAML gridSource = Ok grid ->
  get "cards" grid = Some (VArr cards) ->
  processGrid gridSource roomsSource templateSource opts = Ok (yaml, report) ->
  indices_ok (length cards) report.
Proof.
  intros Hg Hc. unfold processGrid. rewrite Hg. cbn [bind].
  destruct (parseYAML templateSource) as [template|]; [|discriminate].
  cbn [bind].
  destruct (JSON_parse roomsSource) as [[| | | |rooms|]|]; try discriminate.
  destruct (_ || _ || _); [discriminate|].
  destruct (_ || _); [discriminate|].
  destruct (get "cards" template) as [[| | | |[|firstCard rest]|]|];
    try discriminate.
  destruct (_ || _ || _); [discriminate|].
  destruct (cards_deepClone grid cards Hc) as (cards' & Hc' & Hlen & _).
  destruct (processGrid_loop rooms _ opts _ []) as [[g r]|] eqn:Hloop;
    [|discriminate].
  cbn [bind fst snd]. intros [= _ <-].
  destruct (processGrid_loop_indices _ _ _ _ _ _ _ _ Hc' Hloop)
    as (new & -> & Hnew).
  cbn [app]. now rewrite <- Hlen.
Qed.

Lemma processGrid_report_rooms_witness :
  exists yaml report,
    @processGrid example_runtime kitchen_grid
      (json_array [js "Kitchen"; js "Hall"]) named_template by_name
    = Ok (yaml, report)
    /\ @JSON_parse example_runtime (json_array [js "Kitchen"; js "Hall"])
       = Some (VArr (map (fun e => VStr (e_room e)) report))
    /\ Forall (fun e => e_areaId e = @slugifyArea example_runtime (e_room e))
         report.
Proof.
  do 2 eexists. split; [vm_compute; reflexivity|].
  eapply (@processGrid_report_rooms example_runtime kitchen_grid
            (json_array [js "Kitchen"; js "Hall"]) named_template by_name).
  vm_compute. reflexivity.
Defined.

Lemma processGrid_report_indices_witness :
  exists yaml report,
    @processGrid example_runtime kitchen_grid
      (json_array [js "Hall"; js "Kitchen"; js "Attic"]) named_template by_name
    = Ok (yaml, report)
    /\ map e_index report = [1; 0; 2]%nat
    /\ indices_ok 1 report.
Proof.
  do 2 eexists. split; [vm_compute; reflexivity|].
  split; [reflexivity|].
  eapply (@processGrid_report_indices example_runtime kitchen_grid
            (json_array [js "Hall"; js "Kitchen"; js "Attic"]) named_template
            by_name _ [_]).
  - vm_compute. reflexivity.
  - reflexivity.
  - vm_compute. reflexivity.
Defined.

(** ** A pop-up template gives a pop-up stack *)

(** The shape [isBubblePopup] asks for. *)
Record popup_shape (v first : value) (rest : list value) : Prop := {
  ps_type : get "type" v = Some (VStr (js "vertical-stack"));
  ps_cards : get "cards" v = Some (VArr (first :: rest));
  ps_first : isRecord first = true;
  ps_first_type : get "type" first = Some (VStr (js "custom:bubble-card"));
  ps_card_type : get "card_type" first = Some (VStr (js "pop-up"))
}.

Lemma is_str_get s k v :
  is_str s (get k v) = true <-> get k v = Some (VStr (js s)).
Proof.
  unfold is_str, str_is. split.
  - destruct (get k v) as [[| | |t| |]|]; try discriminate.
    intros E. apply jstr_eqb_true in E. now subst.
  - intros ->. apply jstr_eqb_refl.
Qed.

Lemma isBubblePopup_shape v :
  isBubblePopup v = true <-> exists first rest, popup_shape v first rest.
Proof.
  unfold isBubblePopup. split.
  - destruct (isRecord v) eqn:Hv; [|discriminate]. cbn [negb].
    destruct (is_str "vertical-stack" (get "type" v)) eqn:Ht; [|discriminate].
    cbn [negb]. apply is_str_get in Ht.
    destruct (get "cards" v) as [[| | | |[|first rest]|]|] eqn:Hc;
      try discriminate.
    destruct (isRecord first) eqn:Hf; [|discriminate]. cbn [negb].
    intros H. apply andb_prop in H as [H1 H2].
    apply is_str_get in H1, H2. exists first, rest. now constructor.
  - intros (first & rest & [Ht Hc Hf Hft Hct]).
    assert (Hv : isRecord v = true) by (destruct v; try discriminate; reflexivity).
    rewrite Hv, Hc, Hf. cbn [negb].
    rewrite (proj2 (is_str_get _ _ _) Ht), (proj2 (is_str_get _ _ _) Hft),
      (proj2 (is_str_get _ _ _) Hct).
    reflexivity.
Qed.

(** A visitor that leaves the node alone at a place. *)
Definition idle {St} (visit : visitor St) (v : value)
    (ctx : option (pkind * key)) : Prop :=
  forall st, exists st', visit v ctx st = (None, v, st').

(** Idle at the places [isBubblePopup] looks at. *)
Record quiet_on_popup {St} (visit : visitor St) : Prop := {
  qp_root : forall v, idle visit v None;
  qp_item : forall v i, isRecord v = true ->
                        idle visit v (Some (PArray, KIndex i));
  qp_cards : forall items,
      idle visit (VArr items) (Some (PRecord, KName (js "cards")));
  qp_type : forall s, token s = false ->
                      idle visit (VStr s) (Some (PRecord, KName (js "type")));
  qp_card_type : forall s, token s = false ->
      idle visit (VStr s) (Some (PRecord, KName (js "card_type")))
}.

Lemma traverse_idle_text {St} (visit : visitor St) fuel s ctx st r :
  idle visit (VStr s) ctx ->
  traverse fuel visit (VStr s) ctx st = Ok r -> fst r = VStr s.
Proof.
  intros Hi. destruct fuel as [|f]; [discriminate|]. cbn [traverse].
  destruct (Hi st) as [st' ->]. now intros [= <-].
Qed.

Lemma traverse_idle_record {St} (visit : visitor St) fuel props ctx st r :
  idle visit (VObj props) ctx ->
  traverse fuel visit (VObj props) ctx st = Ok r ->
  exists f props',
    fuel = S f /\ fst r = VObj props'
    /\ Forall2 (fun kv kv' =>
                  fst kv' = fst kv
                  /\ exists st1 st2,
                      traverse f visit (snd kv) (Some (PRecord, KName (fst kv))) st1
                      = Ok (snd kv', st2)) props props'.
Proof.
  intros Hi. destruct fuel as [|f]; [discriminate|]. cbn [traverse].
  destruct (Hi st) as [st' ->].
  destruct (each_entry (traverse f visit) props st') as [[props' st2]|] eqn:E;
    [|discriminate].
  cbn [bind fst snd]. intros [= <-]. exists f, props'.
  split; [reflexivity|]. split; [reflexivity|].
  eapply each_entry_keys. exact E.
Qed.

Lemma traverse_idle_items {St} (visit : visitor St) fuel first rest ctx st r :
  idle visit (VArr (first :: rest)) ctx ->
  traverse fuel visit (VArr (first :: rest)) ctx st = Ok r ->
  exists f first' rest' st1 st2,
    fuel = S f /\ fst r = VArr (first' :: rest')
    /\ traverse f visit first (Some (PArray, KIndex 0)) st1 = Ok (first', st2).
Proof.
  intros Hi. destruct fuel as [|f]; [discriminate|]. cbn [traverse].
  destruct (Hi st) as [st' ->]. cbn [each_item].
  destruct (traverse f visit first (Some (PArray, KIndex 0)) st')
    as [[first' st2]|] eqn:E; [|discriminate].
  cbn [bind fst snd].
  destruct (each_item (traverse f visit) rest 1 st2) as [[rest' st3]|];
    [|discriminate].
  cbn [bind fst snd]. intros [= <-]. exists f, first', rest', st', st2. auto.
Qed.

Lemma popup_text_free : 
  token (js "vertical-stack") = false /\ token (js "custom:bubble-card") = false
  /\ token (js "pop-up") = false.
Proof. repeat split. Qed.

(** A traversal with such a visitor keeps the shape, and the first card
    keeps its field names. *)
Lemma traverse_popup_shape {St} (visit : visitor St) fuel t first rest st r :
  quiet_on_popup visit -> popup_shape t first rest ->
  traverse fuel visit t None st = Ok r ->
  exists first' rest',
    popup_shape (fst r) first' rest'
    /\ forall k, get k first <> None -> get k first' <> None.
Proof.
  intros [Hroot Hitem Hcards Htype Hctype] [Ht Hc Hf Hft Hct] E.
  destruct popup_text_free as (T1 & T2 & T3).
  destruct t as [| | | | |props]; try discriminate.
  destruct first as [| | | | |fprops]; try discriminate.
  destruct (traverse_idle_record _ _ _ _ _ _ (Hroot _) E)
    as (f & props' & -> & Er & HF).
  rewrite Er. cbn [get] in Ht, Hc |- *.
  pose proof (obj_get_Forall2
                (fun k v v' => exists st1 st2,
                     traverse f visit v (Some (PRecord, KName k)) st1 = Ok (v', st2))
                (js "type") _ _ HF) as Gt.
  pose proof (obj_get_Forall2
                (fun k v v' => exists st1 st2,
                     traverse f visit v (Some (PRecord, KName k)) st1 = Ok (v', st2))
                (js "cards") _ _ HF) as Gc.
  rewrite Ht in Gt. rewrite Hc in Gc.
  destruct (obj_get (js "type") props') as [ty'|] eqn:Ht'; [|contradiction].
  destruct (obj_get (js "cards") props') as [cards'|] eqn:Hc'; [|contradiction].
  destruct Gt as (s1 & s2 & Gt). destruct Gc as (s3 & s4 & Gc).
  apply traverse_idle_text in Gt; [|now apply Htype]. cbn [fst] in Gt. subst ty'.
  destruct (traverse_idle_items _ _ _ _ _ _ _ (Hcards _) Gc)
    as (f' & first' & rest' & s5 & s6 & -> & Ec & Ef).
  cbn [fst] in Ec. subst cards'.
  destruct (traverse_idle_record _ _ _ _ _ _ (Hitem (VObj fprops) 0%nat eq_refl) Ef)
    as (f'' & fprops' & -> & Efr & HFf).
  cbn [fst] in Efr. subst first'.
  assert (Hfield : forall k : string,
            match obj_get (js k) fprops, obj_get (js k) fprops' with
            | Some v, Some v' =>
                exists st1 st2,
                  traverse f'' visit v (Some (PRecord, KName (js k))) st1
                  = Ok (v', st2)
            | None, None => True
            | _, _ => False
            end).
  { intros k.
    exact (obj_get_Forall2
             (fun k v v' => exists st1 st2,
                  traverse f'' visit v (Some (PRecord, KName k)) st1 = Ok (v', st2))
             (js k) _ _ HFf). }
  exists (VObj fprops'), rest'. split.
  - constructor; try reflexivity; try assumption.
    + pose proof (Hfield "type"%string) as G. cbn [get] in Hft |- *.
      rewrite Hft in G.
      destruct (obj_get (js "type") fprops') as [v'|]; [|contradiction].
      destruct G as (? & ? & G).
      apply traverse_idle_text in G; [|now apply Htype]. cbn [fst] in G.
      now subst.
    + pose proof (Hfield "card_type"%string) as G. cbn [get] in Hct |- *.
      rewrite Hct in G.
      destruct (obj_get (js "card_type") fprops') as [v'|]; [|contradiction].
      destruct G as (? & ? & G).
      apply traverse_idle_text in G; [|now apply Hctype]. cbn [fst] in G.
      now subst.
  - intros k Hk. pose proof (Hfield k) as G. cbn [get] in Hk |- *.
    destruct (obj_get (js k) fprops); [|congruence].
    destruct (obj_get (js k) fprops'); [discriminate|contradiction].
Qed.

Lemma placeholder_visitor_quiet room areaId icon :
  quiet_on_popup (placeholder_visitor room areaId icon).
Proof.
  constructor.
  - intros v st. exists st. destruct v as [| | |s| |]; try reflexivity.
    cbn [placeholder_visitor]. destruct (replacements room areaId s);
      [reflexivity|]. now destruct icon.
  - intros v i Hv st. exists st. now destruct v.
  - intros items st. now exists st.
  - intros s Hs st. exists st. apply placeholder_visitor_idle.
    cbn [token_free]. now rewrite Hs.
  - intros s Hs st. exists st. apply placeholder_visitor_idle.
    cbn [token_free]. now rewrite Hs.
Qed.

Lemma heuristic_visitor_quiet areaId : quiet_on_popup (heuristic_visitor areaId).
Proof.
  constructor.
  - intros v st. now exists st.
  - intros v i _ st. now exists st.
  - intros items st. now exists st.
  - intros s _ st. now exists st.
  - intros s _ st. now exists st.
Qed.

Lemma popup_shape_deepClone `{Runtime} t first rest :
  popup_shape t first rest ->
  exists first' rest',
    popup_shape (deepClone t) first' rest'
    /\ forall k, get k first <> None -> get k first' <> None.
Proof.
  intros Hs. unfold deepClone. destruct has_structuredClone.
  - exists first, rest. split; [assumption|auto].
  - destruct Hs as [Ht Hc Hf Hft Hct].
    exists (json_roundtrip first), (map json_roundtrip rest). split.
    + constructor; rewrite ?get_json_roundtrip, ?isRecord_json_roundtrip;
        try assumption.
      * now rewrite Ht.
      * now rewrite Hc.
      * now rewrite Hft.
      * now rewrite Hct.
    + intros k Hk. rewrite get_json_roundtrip.
      destruct (get k first); [discriminate|congruence].
Qed.

(** The last step of [applyHeuristics]: the two assignments on the first
    card and the write of [cards]. *)
Lemma popup_shape_named stack first rest room areaId :
  popup_shape stack first rest ->
  let first' := set_if_present "hash" (VStr (anchor areaId))
                  (set_if_present "name" (VStr room) first) in
  popup_shape (set_field "cards" (VArr (first' :: rest)) stack) first' rest
  /\ (get "name" first <> None -> get "name" first' = Some (VStr room))
  /\ (get "hash" first <> None -> get "hash" first' = Some (VStr (anchor areaId))).
Proof.
  intros [Ht Hc Hf Hft Hct] first'.
  destruct stack as [| | | | |props]; try discriminate.
  assert (Hnh : js "name" <> js "hash") by discriminate.
  assert (Hhn : js "hash" <> js "name") by discriminate.
  split; [constructor|split].
  - cbn [set_field get]. rewrite obj_get_set_other; [exact Ht|discriminate].
  - cbn [set_field get]. apply obj_get_set_same. discriminate.
  - unfold first'. now rewrite !isRecord_set_if_present.
  - unfold first'. rewrite !get_set_if_present_other by discriminate. exact Hft.
  - unfold first'. rewrite !get_set_if_present_other by discriminate. exact Hct.
  - intros Hn. unfold first'. rewrite get_set_if_present_other by exact Hnh.
    unfold set_if_present. destruct (get "name" first); [|congruence].
    destruct first; try discriminate. cbn [set_field get].
    apply obj_get_set_same. discriminate.
  - intros Hh. unfold first'.
    assert (Hh' : get "hash" (set_if_present "name" (VStr room) first) <> None)
      by (now rewrite get_set_if_present_other by exact Hhn).
    unfold set_if_present at 1.
    destruct (get "hash" (set_if_present "name" (VStr room) first));
      [|congruence].
    assert (Hr : isRecord (set_if_present "name" (VStr room) first) = true)
      by (now rewrite isRecord_set_if_present).
    destruct (set_if_present "name" (VStr room) first); try discriminate.
    cbn [set_field get]. apply obj_get_set_same. discriminate.
Qed.

(** The stack made from a pop-up template has the pop-up shape, and its
    first card holds the room and the anchor where the first card of the
    template has a [name] and a [hash]. *)
Lemma deepApplyTemplate_popup_shape `{Runtime} (template : value)
    (room areaId : jstring) (iconMap : option (gmap jstring jstring)) :
  isBubblePopup template = true ->
  exists app first' rest',
    deepApplyTemplate template room areaId iconMap = Ok app
    /\ popup_shape (a_stack app) first' rest'
    /\ forall first rest,
         get "cards" template = Some (VArr (first :: rest)) ->
         (get "name" first <> None -> get "name" first' = Some (VStr room))
         /\ (get "hash" first <> None ->
             get "hash" first' = Some (VStr (anchor areaId))).
Proof.
  intros Hpop. apply isBubblePopup_shape in Hpop as (first0 & rest0 & Hs0).
  destruct (popup_shape_deepClone _ _ _ Hs0) as (first1 & rest1 & Hs1 & Hk1).
  unfold deepApplyTemplate, replacePlaceholders.
  set (icon := match iconMap with Some m => m !! room | None => None end).
  destruct (traverse_total (placeholder_visitor room areaId icon)
              (placeholder_visitor_shallow room areaId icon)
              (S (depth (deepClone template))) (deepClone template) None
              (false, false)) as [r Hr]; [lia|].
  rewrite Hr. cbn [bind].
  destruct (traverse_popup_shape _ _ _ _ _ _ _
              (placeholder_visitor_quiet room areaId icon) Hs1 Hr)
    as (first2 & rest2 & Hs2 & Hk2).
  unfold applyHeuristics.
  destruct (traverse_total (heuristic_visitor areaId)
              (heuristic_visitor_shallow areaId)
              (S (depth (fst r))) (fst r) None tt) as [r' Hr']; [lia|].
  rewrite Hr'. cbn [bind].
  destruct (traverse_popup_shape _ _ _ _ _ _ _
              (heuristic_visitor_quiet areaId) Hs2 Hr')
    as (first3 & rest3 & Hs3 & Hk3).
  destruct (popup_shape_named _ _ _ room areaId Hs3) as (Hs4 & Hname & Hhash).
  pose proof (ps_cards _ _ _ Hs3) as Hc3. pose proof (ps_first _ _ _ Hs3) as Hf3.
  destruct (fst r') as [| | | | |props] eqn:Er'; try discriminate.
  rewrite Hc3, Hf3. cbn [bind].
  eexists _, _, rest3. split; [reflexivity|]. cbn [a_stack].
  split; [exact Hs4|].
  intros first rest Hc.
  rewrite (ps_cards _ _ _ Hs0) in Hc. injection Hc as <- <-.
  split; intros Hk; [apply Hname|apply Hhash]; auto.
Qed.

(** X17.  Applied to a template that [isBubblePopup] accepts,
    [deepApplyTemplate] returns a stack that [isBubblePopup] accepts as
    well.  When the first card of the template has a [name] field, a search
    by name for the same room matches the stack; when it has a [hash]
    field, a search by hash for the same area does. *)
Theorem deepApplyTemplate_popup `{Runtime} (template : value)
    (room areaId : jstring) (iconMap : option (gmap jstring jstring)) :
  isBubblePopup template = true ->
  exists app,
    deepApplyTemplate template room areaId iconMap = Ok app
    /\ isBubblePopup (a_stack app) = true
    /\ forall first rest,
         get "cards" template = Some (VArr (first :: rest)) ->
         (get "name" first <> None ->
          slot_matches room areaId (VStr (js "name")) (a_stack app) = true)
         /\ (get "hash" first <> None ->
             slot_matches room areaId (VStr (js "hash")) (a_stack app) = true).
Proof.
  intros Hpop.
  destruct (deepApplyTemplate_popup_shape template room areaId iconMap Hpop)
    as (app & first' & rest' & Happ & Hs & Hfirst).
  assert (Hp : isBubblePopup (a_stack app) = true)
    by (apply isBubblePopup_shape; eauto).
  exists app. split; [exact Happ|]. split; [exact Hp|].
  intros first rest Hc. destruct (Hfirst first rest Hc) as [Hname Hhash].
  unfold slot_matches. rewrite Hp. cbn [andb]. unfold strategy_match.
  rewrite (ps_cards _ _ _ Hs). split; intros Hk.
  - rewrite Hname by auto.
    replace (str_is "name" (VStr (js "name"))) with true by reflexivity.
    now rewrite jstr_eqb_refl.
  - rewrite Hhash by auto.
    replace (str_is "name" (VStr (js "hash"))) with false by reflexivity.
    replace (str_is "hash" (VStr (js "hash"))) with true by reflexivity.
    now rewrite jstr_eqb_refl.
Qed.

Definition popup_template : value :=
  VObj [(js "type", VStr (js "vertical-stack"));
        (js "cards",
         VArr [VObj [(js "type", VStr (js "custom:bubble-card"));
                     (js "card_type", VStr (js "pop-up"));
                     (js "name", VStr (js "__AREA_NAME__"));
                     (js "hash", VStr (js "__HASH__"))];
               VObj [(js "type", VStr (js "area"));
                     (js "area", VStr (js "__AREA_ID__"))]])].

Lemma deepApplyTemplate_popup_witness :
  isBubblePopup popup_template = true
  /\ exists app,
      @deepApplyTemplate example_runtime popup_template (js "Living Room")
        (js "living_room") None = Ok app
      /\ isBubblePopup (a_stack app) = true
      /\ forall first rest,
           get "cards" popup_template = Some (VArr (first :: rest)) ->
           (get "name" first <> None ->
            @slot_matches example_runtime (js "Living Room") (js "living_room")
              (VStr (js "name")) (a_stack app) = true)
           /\ (get "hash" first <> None ->
               @slot_matches example_runtime (js "Living Room") (js "living_room")
                 (VStr (js "hash")) (a_stack app) = true).
Proof.
  split; [reflexivity|].
  apply (@deepApplyTemplate_popup example_runtime popup_template
           (js "Living Room") (js "living_room") None).
  reflexivity.
Defined.

(** ** The run does not throw on checked inputs *)





(** ** Keys written in quotes *)

Lemma filteredLines_one line :
  no_break line = true -> stripComments line = line -> trimEnd line = line ->
  filteredLines line = [line].
Proof.
  intros Hb Hs He. unfold filteredLines.
  rewrite normalize_newlines_none by (apply no_break_no; auto).
  unfold split_lines. rewrite split_on_last by (apply no_break_no; auto).
  cbn [rev app map]. rewrite Hs.
  rewrite replace1_none by (apply no_break_no; auto).
  now rewrite He.
Qed.

(** A one-line document [key: text]. *)
Lemma parseYAML_entry_line key t v :
  no_break (key ++ ch ":" :: 32 :: t) = true ->
  stripComments (key ++ ch ":" :: 32 :: t) = key ++ ch ":" :: 32 :: t ->
  key <> [] -> trim key = key ->
  forallb (fun c => negb (c =? ch ":")) key = true ->
  startsWith key [ch "-"] = false ->
  jstr_eqb key (js "__proto__") = false ->
  t <> [] -> trim t = t -> parseScalar t = Ok v ->
  parseYAML (key ++ ch ":" :: 32 :: t) = Ok (VObj [(key, v)]).
Proof.
  intros Hb Hs Hne Hk Hcolon Hdash Hproto Htne Ht Hparse.
  destruct (trim_tight key Hk) as [Hks Hke].
  destruct (trim_tight t Ht) as [Hts Hte].
  assert (Hstart : starts_tight (key ++ ch ":" :: 32 :: t) = true)
    by (destruct key; [congruence|exact Hks]).
  assert (Hend : ends_tight (key ++ ch ":" :: 32 :: t) = true).
  { change (key ++ ch ":" :: 32 :: t) with (key ++ [ch ":"; 32] ++ t).
    rewrite !app_assoc. now apply ends_tight_app. }
  unfold parseYAML.
  rewrite filteredLines_one; [|assumption|assumption|now apply trimEnd_tight].
  cbn [process_lines]. unfold process_line.
  assert (Hw : isWhitespaceOnly (key ++ ch ":" :: 32 :: t) = false).
  { unfold isWhitespaceOnly. destruct key as [|c key]; [congruence|].
    cbn in Hks |- *. now destruct (is_ws c). }
  rewrite Hw, takeWhile_tight, tight_trim by assumption.
  cbn [length pop_while root_frame Z.of_nat].
  cbn [resolve_pending f_pending bind].
  assert (Hd : startsWith (key ++ ch ":" :: 32 :: t) [ch "-"] = false).
  { destruct key as [|c key]; [congruence|].
    cbn [app startsWith] in Hdash |- *. rewrite !startsWith_nil in *.
    exact Hdash. }
  rewrite Hd. unfold mapping_entry.
  rewrite indexOf_key by assumption.
  rewrite slice_key, drop_key, Hk, (trim_space_text _ Ht).
  replace (jstr_eqb t []) with false by (symmetry; now apply jstr_eqb_false).
  rewrite Hparse.
  change (f_pending root_frame) with (@None pending).
  cbn [bind f_container root_frame container_set].
  rewrite obj_set_nil by assumption. reflexivity.
Qed.

(** A character that can stand between double quotes in front of the
    colon: no quote, backslash or colon, no line break or tab. *)
Definition plain_in_quotes (c : N) : bool :=
  negb ((c =? dquote) || (c =? 92) || (c =? ch ":") || (c =? 9) || (c =? 10)
        || (c =? 13)).

Lemma plain_in_quotes_facts c :
  plain_in_quotes c = true ->
  (c =? dquote) = false /\ (c =? 92) = false /\ (c =? ch ":") = false
  /\ (c =? 9) = false /\ (c =? 10) = false /\ (c =? 13) = false.
Proof.
  unfold plain_in_quotes. intros H. apply negb_true_iff in H.
  repeat (apply orb_false_elim in H as [H ?]). auto 10.
Qed.

Lemma stripComments_loop_in_double line k rest i :
  forallb plain_in_quotes k = true ->
  stripComments_loop line (k ++ rest) i false true
  = stripComments_loop line rest (i + length k) false true.
Proof.
  revert i. induction k as [|c k IH]; intros i Hk.
  - cbn. now rewrite Nat.add_0_r.
  - cbn [forallb] in Hk. apply andb_prop in Hk as [Hc Hk].
    destruct (plain_in_quotes_facts c Hc) as (H1 & _).
    cbn [app stripComments_loop length negb]. rewrite H1, !andb_false_r.
    cbn [andb]. rewrite IH by assumption. f_equal. lia.
Qed.

Lemma takeWhile_none (p : N -> bool) (l : jstring) :
  forallb (fun x => negb (p x)) l = true -> takeWhile p l = [].
Proof.
  destruct l as [|x l]; [reflexivity|]. cbn. intros H.
  apply andb_prop in H as [H _]. apply negb_true_iff in H. now rewrite H.
Qed.

Lemma stripComments_loop_dquote line rest i d :
  stripComments_loop line (dquote :: rest) i false d
  = stripComments_loop line rest (S i) false
      (if Nat.even (backslashes_before line i) then negb d else d).
Proof. now destruct d. Qed.

Lemma stripComments_quoted_key k t :
  forallb plain_in_quotes k = true -> stripComments t = t ->
  stripComments (dquote :: k ++ dquote :: ch ":" :: 32 :: t)
  = dquote :: k ++ dquote :: ch ":" :: 32 :: t.
Proof.
  intros Hk Ht. unfold stripComments.
  set (line := dquote :: k ++ dquote :: ch ":" :: 32 :: t).
  assert (Hno : forallb (fun x => negb (x =? 92)) (dquote :: k) = true).
  { cbn [forallb]. apply andb_true_intro. split; [reflexivity|].
    clear - Hk. induction k as [|c k IH]; [reflexivity|].
    cbn [forallb] in Hk |- *. apply andb_prop in Hk as [Hc Hk].
    destruct (plain_in_quotes_facts c Hc) as (_ & H2 & _).
    now rewrite H2, IH. }
  unfold line at 2. rewrite stripComments_loop_dquote.
  change (backslashes_before line 0) with 0%nat. cbn [Nat.even negb].
  rewrite stripComments_loop_in_double by assumption.
  rewrite stripComments_loop_dquote.
  assert (Hbs : backslashes_before line (1 + length k) = 0%nat).
  { unfold backslashes_before, line. cbn [Nat.add take].
    rewrite take_app_length. rewrite takeWhile_none; [reflexivity|].
    change (rev (dquote :: k)) with (rev (dquote :: k)).
    now rewrite forallb_rev. }
  rewrite Hbs. cbn [Nat.even negb].
  change (ch ":" :: 32 :: t) with ([ch ":"; 32] ++ t).
  rewrite stripComments_loop_quiet by reflexivity.
  replace line with (((dquote :: k ++ [dquote; ch ":"]) ++ [32%N]) ++ t)
    by (unfold line; cbn [app]; now rewrite <- !app_assoc).
  replace (S (1 + length k) + length [ch ":"; 32%N])%nat
    with (length ((dquote :: k ++ [dquote; ch ":"]) ++ [32%N]) + 0)%nat
    by (rewrite !length_app; cbn [length]; rewrite !length_app; cbn [length];
        lia).
  rewrite stripComments_loop_shift by reflexivity.
  fold (stripComments t). rewrite Ht.
  now rewrite bool_decide_eq_true_2.
Qed.

Lemma quoteString_plain_key k :
  forallb plain_in_quotes k = true -> quoteString k = dquote :: k ++ [dquote].
Proof.
  intros Hk.
  assert (H : forallb (fun c => negb (c =? 92)) k = true
              /\ forallb (fun c => negb (c =? dquote)) k = true).
  { induction k as [|c k IH]; [split; reflexivity|].
    cbn [forallb] in Hk |- *. apply andb_prop in Hk as [Hc Hk].
    destruct (plain_in_quotes_facts c Hc) as (H1 & H2 & _).
    destruct (IH Hk) as [-> ->]. now rewrite H1, H2. }
  destruct H as [H1 H2]. rewrite quoteString_plain by assumption.
  unfold escape_quotes. now rewrite replace1_none.
Qed.

(** X19.  A key that the serializer writes in quotes is read back with the
    quotes: for a mapping with one such key (without quote, backslash,
    colon, line break or tab) and a scalar that reads back as itself, the
    parser returns the mapping under the quoted text of the key, which is
    another key. *)
Theorem parseYAML_stringifyYAML_quoted_key (k : jstring) (v : value) :
  forallb plain_in_quotes k = true ->
  needsQuoting k = true ->
  leaf_ok v = true ->
  parseYAML (stringifyYAML (VObj [(k, v)]) 2 0) = Ok (VObj [(quoteString k, v)])
  /\ quoteString k <> k.
Proof.
  intros Hk Hq Hv. destruct (leaf_ok_facts v Hv) as [Hs (Hb & Hst & Htr) Hne Hp].
  assert (Hfacts : no_break k = true
                   /\ forallb (fun c => negb (c =? ch ":")) k = true).
  { clear - Hk. unfold no_break.
    induction k as [|c k IH]; [split; reflexivity|].
    cbn [forallb] in Hk |- *. apply andb_prop in Hk as [Hc Hk].
    destruct (plain_in_quotes_facts c Hc) as (_ & _ & H3 & H4 & H5 & H6).
    destruct (IH Hk) as [-> ->]. now rewrite H3, H4, H5, H6. }
  destruct Hfacts as [Hkb Hkc].
  rewrite quoteString_plain_key by assumption. split.
  - cbn [stringifyYAML map fst snd join_lines]. rewrite Hs, Hq.
    rewrite quoteString_plain_key by assumption.
    change (spaces 0) with (@nil N). cbn [app]. rewrite <- !app_assoc.
    cbn [app].
    replace (dquote :: k ++ dquote :: ch ":" :: 32 :: serializeScalar v)
      with ((dquote :: k ++ [dquote]) ++ ch ":" :: 32 :: serializeScalar v)
      by (cbn [app]; now rewrite <- app_assoc).
    apply parseYAML_entry_line; try assumption.
    + cbn [app]. rewrite <- app_assoc. cbn [app].
      change (dquote :: k ++ dquote :: ch ":" :: 32 :: serializeScalar v)
        with ([dquote] ++ k ++ [dquote; ch ":"; 32] ++ serializeScalar v).
      now rewrite !no_break_app, Hkb, Hb.
    + cbn [app]. rewrite <- app_assoc. cbn [app].
      now apply stripComments_quoted_key.
    + discriminate.
    + apply tight_trim; [reflexivity|].
      change (dquote :: k ++ [dquote]) with ((dquote :: k) ++ [dquote]).
      now apply ends_tight_app.
    + change (dquote :: k ++ [dquote]) with ([dquote] ++ k ++ [dquote]).
      now rewrite !forallb_app, Hkc.
    + reflexivity.
    + apply jstr_eqb_false. intros E. apply (f_equal (hd 0)) in E.
      vm_compute in E. discriminate.
  - intros E. apply (f_equal (@length N)) in E. cbn [length] in E.
    rewrite length_app in E. cbn [length] in E. lia.
Qed.

Lemma parseYAML_stringifyYAML_quoted_key_witness :
  parseYAML (stringifyYAML (VObj [(js "my key", VBool true)]) 2 0)
  = Ok (VObj [(quoteString (js "my key"), VBool true)])
  /\ quoteString (js "my key") <> js "my key".
Proof.
  apply (parseYAML_stringifyYAML_quoted_key (js "my key") (VBool true));
    reflexivity.
Defined.

(** ** What the clone keeps *)

(** No number that [JSON.stringify] writes as another one: no infinity, no
    NaN, no negative zero. *)
Fixpoint json_safe (v : value) : bool :=
  match v with
  | VNum (S754_zero s) => negb s
  | VNum (S754_finite _ _ _) => true
  | VNum _ => false
  | VArr items => forallb json_safe items
  | VObj props => forallb (fun kv => json_safe (snd kv)) props
  | _ => true
  end.

Lemma json_roundtrip_fixed v : json_roundtrip v = v <-> json_safe v = true.
Proof.
  induction v as [| b | n | s | items IH | props IH] using value_induction;
    try (cbn; tauto).
  - destruct n as [[|]| | |]; cbn; split; congruence.
  - cbn [json_roundtrip json_safe]. split.
    + intros [= E]. induction IH as [|c items Hc _ IHi]; [reflexivity|].
      cbn [map forallb] in E |- *. injection E as E1 E2.
      apply Hc in E1. rewrite E1. now apply IHi.
    + intros E. f_equal. induction IH as [|c items Hc _ IHi]; [reflexivity|].
      cbn [map forallb] in E |- *. apply andb_prop in E as [E1 E2].
      apply Hc in E1. rewrite E1. f_equal. now apply IHi.
  - cbn [json_roundtrip json_safe]. split.
    + intros [= E]. induction IH as [|[k c] props Hc _ IHp]; [reflexivity|].
      cbn [map forallb fst snd] in E, Hc |- *. injection E as E1 E2.
      apply Hc in E1. rewrite E1. now apply IHp.
    + intros E. f_equal. induction IH as [|[k c] props Hc _ IHp]; [reflexivity|].
      cbn [map forallb fst snd] in E, Hc |- *. apply andb_prop in E as [E1 E2].
      apply Hc in E1. rewrite E1. f_equal. now apply IHp.
Qed.

Lemma json_safe_json_roundtrip v : json_safe (json_roundtrip v) = true.
Proof.
  induction v as [| b | n | s | items IH | props IH] using value_induction;
    try reflexivity.
  - now destruct n.
  - cbn [json_roundtrip json_safe].
    induction IH as [|c items Hc _ IHi]; [reflexivity|].
    cbn [map forallb]. now rewrite Hc, IHi.
  - cbn [json_roundtrip json_safe].
    induction IH as [|kv props Hc _ IHp]; [reflexivity|].
    cbn [map forallb snd]. now rewrite Hc, IHp.
Qed.

(** X20.  [deepClone] returns a tree equal to its argument exactly when
    [structuredClone] is there or the tree holds no infinity, no NaN and no
    negative zero (the detour through JSON turns the first two into [null]
    and the last into zero); the clone of a clone is the clone. *)
Theorem deepClone_fixed `{Runtime} (v : value) :
  (deepClone v = v <-> has_structuredClone = true \/ json_safe v = true)
  /\ deepClone (deepClone v) = deepClone v.
Proof.
  unfold deepClone. destruct has_structuredClone.
  - split; [tauto|reflexivity].
  - split.
    + rewrite json_roundtrip_fixed. split; [tauto|]. now intros [?|?].
    + apply json_roundtrip_fixed, json_safe_json_roundtrip.
Qed.

(** * The first card of the result (C4) *)











(** * The run on one known and one new identifier (C5) *)









(** * A mapping entry inside a sequence *)

(** A line [key: value] at the indent of the items of a sequence writes a
    property of the array.  An index inside the bounds replaces the
    element.  A name is where the model stops: the program goes on with an
    array that has the property, and throws at the next call of a method
    the name hides ([push] in the parser, [forEach] in
    [findExistingStack]). *)
Lemma parseYAML_entry_in_sequence :
  parseYAML (text [js "cards:"; js "  - a"; js "  0: b"])
  = Ok (VObj [(js "cards", VArr [VStr (js "b")])])
  /\ parseYAML (text [js "cards:"; js "  - a"; js "  forEach: x"])
     = Err Unmodelled
  /\ parseYAML (text [js "cards:"; js "  - a"; js "  push: x"; js "  - b"])
     = Err Unmodelled.
Proof. repeat split; vm_compute; reflexivity. Qed.
